(** * Legacy message normalizer (WoltLabSuite/Core/Component/Ckeditor/Normalizer)

    A shallow embedding of [normalizeLegacyMessage] and of the passes it is
    made of ([normalizeBr], [unwrapBr], [removeTrailingBr],
    [getPossibleSpacerParagraphs], [reduceSpacerParagraphs]) over a model of
    the part of the DOM the code touches.

    The DOM is a tree of nodes; every node carries a reference (its identity)
    so that a node list taken before a mutation still designates the same
    nodes afterwards, as the static list returned by [querySelectorAll] does.

    The call is modelled twice: over the page alone (the argument and the
    document around it), and with the state of the text control and the
    loading that parsing starts in view.

    The helpers of DOM/Traverse ([_parent], [_sibling] and the functions
    built on them) are embedded over the same trees. *)

From Stdlib Require Import String List Arith Bool Lia.
Import ListNotations.
Set Warnings "-register-all".
Local Open Scope string_scope.
Local Open Scope nat_scope.
Local Open Scope list_scope.

(** ** Markup and DOM nodes *)

Definition ref := nat.
Definition attrs := list (string * string).

(** What [innerHTML] reads and writes: markup without node identity.  The
    parser and the serializer are the platform's; a value of this type stands
    for the markup text up to that round trip.  [<br>] is a void element and
    has a constructor of its own. *)
Inductive html : Type :=
| HText (data : string)
| HBr (attributes : attrs)
| HElement (tagName : string) (attributes : attrs) (children : list html).

(** DOM nodes.  [Text] stands for any character-data node, [Br] is an
    [HTMLBRElement], [Element] any other element. *)
Inductive node : Type :=
| Text (self : ref) (data : string)
| Br (self : ref) (attributes : attrs)
| Element (self : ref) (tag : string) (attributes : attrs) (children : list node).

Definition node_ref (n : node) : ref :=
  match n with
  | Text i _ | Br i _ | Element i _ _ _ => i
  end.

Definition tagName (n : node) : string :=
  match n with
  | Text _ _ => "#text"
  | Br _ _ => "BR"
  | Element _ t _ _ => t
  end.

Definition childNodes (n : node) : list node :=
  match n with
  | Element _ _ _ cs => cs
  | _ => []
  end.

Definition isElement (n : node) : bool :=
  match n with
  | Text _ _ => false
  | _ => true
  end.

Definition isBr (n : node) : bool :=
  match n with
  | Br _ _ => true
  | _ => false
  end.

Definition node_attributes (n : node) : attrs :=
  match n with
  | Text _ _ => []
  | Br _ a | Element _ _ a _ => a
  end.

Fixpoint getAttribute (name : string) (a : attrs) : option string :=
  match a with
  | [] => None
  | (k, v) :: a' => if String.eqb k name then Some v else getAttribute name a'
  end.

(** [node.dataset.ckeFiller === "true"] *)
Definition ckeFiller (n : node) : bool :=
  match getAttribute "data-cke-filler" (node_attributes n) with
  | Some v => String.eqb v "true"
  | None => false
  end.

(** [children] and [childElementCount] only see element children. *)
Definition children (n : node) : list node := filter isElement (childNodes n).
Definition childElementCount (n : node) : nat := length (children n).

(** References of a subtree, in document order. *)
Fixpoint refs (n : node) : list ref :=
  match n with
  | Text i _ | Br i _ => [i]
  | Element i _ _ cs => i :: flat_map refs cs
  end.

Definition refs_of (l : list node) : list ref := flat_map refs l.

Fixpoint descendants_or_self (n : node) : list node :=
  n :: match n with
       | Element _ _ _ cs => flat_map descendants_or_self cs
       | _ => []
       end.

Definition descendants (n : node) : list node :=
  flat_map descendants_or_self (childNodes n).

(** [root.querySelectorAll(sel)]: the matching descendants, in document
    order, as a static list. *)
Definition querySelectorAll (sel : node -> bool) (root : node) : list node :=
  filter sel (descendants root).

(** ** Positions in the tree

    A node is found by its reference; its position is the chain of its
    ancestors, nearest first, each with the siblings to the left and to the
    right of the child the chain goes through. *)

Record frame : Type := Frame {
  f_ref : ref;
  f_tag : string;
  f_attrs : attrs;
  f_before : list node;
  f_after : list node
}.

Definition fill (f : frame) (n : node) : node :=
  Element (f_ref f) (f_tag f) (f_attrs f) (f_before f ++ n :: f_after f).

(** The element itself, once the child in the hole is taken out. *)
Definition close (f : frame) : node :=
  Element (f_ref f) (f_tag f) (f_attrs f) (f_before f ++ f_after f).

Definition plug (p : list frame) (n : node) : node :=
  fold_left (fun m f => fill f m) p n.

Section LocateIn.
Variable loc : node -> option (list frame * node).
Variables (i : ref) (t : string) (a : attrs).

Fixpoint locate_in (before cs : list node) : option (list frame * node) :=
  match cs with
  | [] => None
  | c :: rest =>
      match loc c with
      | Some (p, m) => Some (p ++ [Frame i t a before rest], m)
      | None => locate_in (before ++ [c]) rest
      end
  end.
End LocateIn.

Fixpoint locate (x : ref) (n : node) : option (list frame * node) :=
  if node_ref n =? x then Some ([], n)
  else match n with
       | Element i t a cs => locate_in (locate x) i t a [] cs
       | _ => None
       end.

(** ** The DOM interface used by the normalizer *)

Definition last_node (l : list node) : option node :=
  match rev l with
  | [] => None
  | n :: _ => Some n
  end.

Definition parentElement (x : ref) (d : node) : option node :=
  match locate x d with
  | Some (f :: _, n) => Some (fill f n)
  | _ => None
  end.

Definition previousSibling (x : ref) (d : node) : option node :=
  match locate x d with
  | Some (f :: _, _) => last_node (f_before f)
  | _ => None
  end.

Definition nextSibling (x : ref) (d : node) : option node :=
  match locate x d with
  | Some (f :: _, _) => hd_error (f_after f)
  | _ => None
  end.

Definition nextElementSibling (x : ref) (d : node) : option node :=
  match locate x d with
  | Some (f :: _, _) => find isElement (f_after f)
  | _ => None
  end.

(** The node and its ancestors, nearest first, as they stand in the tree. *)
Fixpoint inclusive_ancestors (p : list frame) (n : node) : list node :=
  n :: match p with
       | [] => []
       | f :: p' => inclusive_ancestors p' (fill f n)
       end.

(** [x.closest(sel)] *)
Definition closest (sel : node -> bool) (x : ref) (d : node) : option node :=
  match locate x d with
  | Some (p, n) => find sel (inclusive_ancestors p n)
  | None => None
  end.

(** [x.remove()]: the node leaves its parent's child list; a node without a
    parent is left alone. *)
Fixpoint remove (x : ref) (n : node) : node :=
  match n with
  | Element i t a cs =>
      Element i t a
        (flat_map (fun c => if node_ref c =? x then [] else [remove x c]) cs)
  | _ => n
  end.

(** [target.insertAdjacentElement("afterend", x)]: [x] leaves its place and
    becomes the next sibling of [target]; nothing happens when [target] has
    no parent.  [unwrapBr], the only caller, passes a child of [target] as
    [x]; for an [x] that contains [target], which the platform rejects, the
    tree is returned as it is. *)
Definition insertAdjacentElement_afterend (target x : ref) (d : node) : node :=
  match locate target d, locate x d with
  | Some (_ :: _, _), Some (_ :: _, n) =>
      match locate target (remove x d) with
      | Some (f :: p, t) =>
          plug p (Element (f_ref f) (f_tag f) (f_attrs f)
                    (f_before f ++ t :: n :: f_after f))
      | _ => d
      end
  | _, _ => d
  end.

(** Modelled from the spec: [DomUtil.isAtNodeEnd(node, ancestor)] lives in
    Dom/Util, which is not part of the sources at hand.  The spec words it as
    "the marker is the last rendered node within that container (no following
    sibling content, text or element)": neither the node nor any of its
    ancestors below [ancestor] has a next sibling. *)
Fixpoint at_node_end (p : list frame) (ancestor : ref) : bool :=
  match p with
  | [] => false
  | f :: p' =>
      match f_after f with
      | [] => if f_ref f =? ancestor then true else at_node_end p' ancestor
      | _ :: _ => false
      end
  end.

Definition isAtNodeEnd (x ancestor : ref) (d : node) : bool :=
  match locate x d with
  | Some (p, _) => at_node_end p ancestor
  | None => false
  end.

(** ** Outcomes of a call *)

Inductive error : Type :=
| TypeError (message : string).

Inductive result (A : Type) : Type :=
| Ok (a : A)
| Throw (e : error)
| OutOfFuel.

Arguments Ok {A} a.
Arguments Throw {A} e.
Arguments OutOfFuel {A}.

Definition bind {A B : Type} (r : result A) (k : A -> result B) : result B :=
  match r with
  | Ok a => k a
  | Throw e => Throw e
  | OutOfFuel => OutOfFuel
  end.

Notation "x <- r ;; k" := (bind r (fun x => k))
  (at level 61, r at next level, right associativity).

(** [list.forEach(f)] over a static list, the tree threaded through. *)
Fixpoint forEach {A : Type} (f : A -> node -> result node) (l : list A) (d : node)
    : result node :=
  match l with
  | [] => Ok d
  | x :: l' => d' <- f x d ;; forEach f l' d'
  end.

(** ** The normalizer *)

Definition isInlineWrapper (t : string) : bool :=
  existsb (String.eqb t) ["B"; "DEL"; "EM"; "I"; "STRONG"; "SUB"; "SUP"; "SPAN"; "U"].

Definition isSome {A : Type} (o : option A) : bool :=
  match o with
  | Some _ => true
  | None => false
  end.

(** The [for (;;)] of [unwrapBr]; [fuel] bounds the number of iterations. *)
Fixpoint unwrapBr (fuel : nat) (br : ref) (d : node) : result node :=
  match fuel with
  | 0 => OutOfFuel
  | S fuel' =>
      if isSome (previousSibling br d) || isSome (nextSibling br d) then Ok d
      else
        match parentElement br d with
        | None => Throw (TypeError "parent is null")
        | Some parent =>
            if isInlineWrapper (tagName parent) then
              let d1 := insertAdjacentElement_afterend (node_ref parent) br d in
              let d2 := remove (node_ref parent) d1 in
              unwrapBr fuel' br d2
            else Ok d
        end
  end.

Definition matches_p_td (n : node) : bool :=
  match n with
  | Element _ t _ _ => String.eqb t "P" || String.eqb t "TD"
  | _ => false
  end.

Definition dataset_ckeFiller (x : ref) (d : node) : bool :=
  match locate x d with
  | Some (_, n) => ckeFiller n
  | None => false
  end.

Definition removeTrailingBr (br : ref) (d : node) : node :=
  if dataset_ckeFiller br d then d
  else
    match closest matches_p_td br d with
    | None => d
    | Some paragraphOrTableCell =>
        if negb (isAtNodeEnd br (node_ref paragraphOrTableCell) d) then d
        else if String.eqb (tagName paragraphOrTableCell) "TD"
                || (1 <? length (childNodes paragraphOrTableCell))
             then remove br d
             else d
    end.

Definition nodeCount (d : node) : nat := length (refs d).

Definition normalizeBr (div : node) : result node :=
  forEach (fun br d => d1 <- unwrapBr (nodeCount d) br d ;; Ok (removeTrailingBr br d1))
          (map node_ref (querySelectorAll isBr div)) div.

Definition matches_p (n : node) : bool :=
  match n with
  | Element _ t _ _ => String.eqb t "P"
  | _ => false
  end.

Definition isPossibleSpacer (paragraph : node) : bool :=
  if childElementCount paragraph =? 1 then
    match nth_error (children paragraph) 0 with
    | Some child => isBr child && negb (ckeFiller child)
    | None => false
    end
  else false.

Definition getPossibleSpacerParagraphs (div : node) : list ref :=
  map node_ref (filter isPossibleSpacer (querySelectorAll matches_p div)).

Definition same_node (o : option node) (x : ref) : bool :=
  match o with
  | Some n => node_ref n =? x
  | None => false
  end.

(** The inner [while] of [reduceSpacerParagraphs]. *)
Fixpoint adjacentOffset (fuel : nat) (paragraphs : list ref) (d : node)
    (candidate : ref) (i offset : nat) : result nat :=
  match fuel with
  | 0 => OutOfFuel
  | S fuel' =>
      if i + offset + 1 <? length paragraphs then
        match nth_error paragraphs (i + offset + 1) with
        | Some nextCandidate =>
            if negb (same_node (nextElementSibling candidate d) nextCandidate)
            then Ok offset
            else adjacentOffset fuel' paragraphs d candidate i (offset + 1)
        | None => Ok offset
        end
      else Ok offset
  end.

(** [Math.ceil(offset / 2)] *)
Definition ceil_half (offset : nat) : nat := (offset + 1) / 2.

(** [paragraphs.slice(from, to)] *)
Definition slice {A : Type} (l : list A) (from to : nat) : list A :=
  firstn (to - from) (skipn from l).

Definition removeAll (l : list ref) (d : node) : node :=
  fold_left (fun d' paragraph => remove paragraph d') l d.

(** The outer [for] of [reduceSpacerParagraphs], from index [i] on. *)
Fixpoint reduceFrom (fuel : nat) (paragraphs : list ref) (i : nat) (d : node)
    : result node :=
  match fuel with
  | 0 => OutOfFuel
  | S fuel' =>
      if i <? length paragraphs then
        match nth_error paragraphs i with
        | None => Throw (TypeError "candidate is undefined")
        | Some candidate =>
            offset <- adjacentOffset (S (length paragraphs)) paragraphs d candidate i 0 ;;
            if offset =? 0 then
              reduceFrom fuel' paragraphs (i + 1) (remove candidate d)
            else
              let numberOfParagraphsToRemove :=
                if offset mod 2 =? 1 then ceil_half offset else ceil_half offset + 1 in
              let removeParagraphs := slice paragraphs i (i + numberOfParagraphsToRemove) in
              reduceFrom fuel' paragraphs (i + offset + 1) (removeAll removeParagraphs d)
        end
      else Ok d
  end.

Definition reduceSpacerParagraphs (paragraphs : list ref) (d : node) : result node :=
  if length paragraphs =? 0 then Ok d
  else reduceFrom (S (length paragraphs)) paragraphs 0 d.

(** *** Parsing and serializing *)

Fixpoint html_size (h : html) : nat :=
  match h with
  | HElement _ _ cs => S (list_sum (map html_size cs))
  | _ => 1
  end.

(** Fresh nodes for a piece of markup, numbered in document order. *)
Fixpoint createNode (next : ref) (h : html) : node :=
  match h with
  | HText s => Text next s
  | HBr a => Br next a
  | HElement t a cs =>
      Element next t a
        ((fix go (next : ref) (cs : list html) {struct cs} : list node :=
            match cs with
            | [] => []
            | c :: rest => createNode next c :: go (next + html_size c) rest
            end) (S next) cs)
  end.

Fixpoint createNodes (next : ref) (cs : list html) : list node :=
  match cs with
  | [] => []
  | c :: rest => createNode next c :: createNodes (next + html_size c) rest
  end.

Fixpoint serialize (n : node) : html :=
  match n with
  | Text _ s => HText s
  | Br _ a => HBr a
  | Element _ t a cs => HElement t a (map serialize cs)
  end.

(** [document.createElement("div")] followed by [div.innerHTML = value] *)
Definition createDiv (value : list html) : node :=
  Element 0 "DIV" [] (createNodes 1 value).

(** [div.innerHTML] *)
Definition innerHTML (div : node) : list html := map serialize (childNodes div).

(** Lines 176 to 178 of [normalizeLegacyMessage]: the passes over [div]. *)
Definition normalizeDiv (div : node) : result node :=
  div1 <- normalizeBr div ;;
  let paragraphs := getPossibleSpacerParagraphs div1 in
  reduceSpacerParagraphs paragraphs div1.

(** *** The host side: the argument and the page around it *)

Record textarea : Type := TextArea {
  value : list html;
  properties : attrs
}.

Inductive hostElement : Type :=
| HTMLTextAreaElement (t : textarea)
| OtherElement (tag : string) (properties : attrs) (content : list html).

(** What a caller can observe: the element passed in and the document. *)
Record page : Type := Page {
  element : hostElement;
  document : list html
}.

Inductive completion : Type :=
| Returned
| Threw (e : error)
| Diverged.

Definition normalizeLegacyMessage (w : page) : completion * page :=
  match element w with
  | OtherElement _ _ _ =>
      (Threw (TypeError "Expected the element to be a <textarea>."), w)
  | HTMLTextAreaElement t =>
      let div := createDiv (value t) in
      match normalizeDiv div with
      | Ok div' =>
          (Returned,
           Page (HTMLTextAreaElement (TextArea (innerHTML div') (properties t)))
                (document w))
      | Throw e => (Threw e, w)
      | OutOfFuel => (Diverged, w)
      end
  end.

(** The new value of a textarea holding [v], when the call returns. *)
Definition normalized (v : list html) : option (list html) :=
  match normalizeLegacyMessage (Page (HTMLTextAreaElement (TextArea v [])) []) with
  | (Returned, Page (HTMLTextAreaElement t) _) => Some (value t)
  | _ => None
  end.

(** ** Shorthands for markup *)

Definition p (cs : list html) : html := HElement "P" [] cs.
Definition br : html := HBr [].
Definition filler : html := HBr [("data-cke-filler", "true")].

(** ** Auxiliary notions for the proofs and the statements *)

(** References around the hole of a position, in document order. *)
Fixpoint refs_before (p : list frame) : list ref :=
  match p with
  | [] => []
  | f :: p' => refs_before p' ++ f_ref f :: refs_of (f_before f)
  end.

Fixpoint refs_after (p : list frame) : list ref :=
  match p with
  | [] => []
  | f :: p' => refs_of (f_after f) ++ refs_after p'
  end.

Definition remove_list (x : ref) (cs : list node) : list node :=
  flat_map (fun c => if node_ref c =? x then [] else [remove x c]) cs.

Inductive sublist {A : Type} : list A -> list A -> Prop :=
| sublist_nil : sublist [] []
| sublist_skip x l' l : sublist l' l -> sublist l' (x :: l)
| sublist_keep x l' l : sublist l' l -> sublist (x :: l') (x :: l).

Definition ordered (l : list ref) : Prop :=
  forall l1 a l2, l = l1 ++ a :: l2 -> forall b, In b l2 -> a < b.

(** A tree the normalizer works on. *)
Definition well_formed (d : node) : Prop := ordered (refs d).

Definition alone (f : frame) : bool :=
  match f_before f, f_after f with
  | [], [] => true
  | _, _ => false
  end.

(** What is left of a position once the lone inline wrappers next to the
    node are gone. *)
Fixpoint unwrapped (p : list frame) : list frame :=
  match p with
  | f :: (_ :: _) as p' =>
      if alone f && isInlineWrapper (f_tag f) then unwrapped p' else p
  | _ => p
  end.

Definition select (sel : node -> bool) (n : node) : list ref :=
  map node_ref (filter sel (descendants_or_self n)).

Definition select_of (sel : node -> bool) (l : list node) : list ref :=
  flat_map (select sel) l.

(** Selectors that only match leaves: a line break, a filler. *)
Definition leaf_selector (sel : node -> bool) : Prop :=
  forall i t a cs, sel (Element i t a cs) = false.

Definition isFiller (n : node) : bool := isBr n && ckeFiller n.

Fixpoint select_before (sel : node -> bool) (p : list frame) : list ref :=
  match p with
  | [] => []
  | f :: p' => select_before sel p' ++ select_of sel (f_before f)
  end.

Fixpoint select_after (sel : node -> bool) (p : list frame) : list ref :=
  match p with
  | [] => []
  | f :: p' => select_of sel (f_after f) ++ select_after sel p'
  end.

(** The decision [removeTrailingBr] takes for a marker [b] at position [p]. *)
Definition strips (p : list frame) (b : node) : bool :=
  negb (ckeFiller b) &&
  match find matches_p_td (inclusive_ancestors p b) with
  | None => false
  | Some c =>
      at_node_end p (node_ref c) &&
      (String.eqb (tagName c) "TD" || (1 <? length (childNodes c)))
  end.

Definition brStep (br : ref) (d : node) : result node :=
  d1 <- unwrapBr (nodeCount d) br d ;; Ok (removeTrailingBr br d1).

Definition is_container (d : node) : bool :=
  match d with
  | Element _ t _ _ => negb (isInlineWrapper t)
  | _ => false
  end.

Definition adjacent (d : node) (x y : ref) : bool :=
  same_node (nextElementSibling x d) y.

(** Removing the first member of each pair of adjacent entries, and an entry
    that has no adjacent successor in the list. *)
Fixpoint reducePairs (paragraphs : list ref) (d : node) : node :=
  match paragraphs with
  | [] => d
  | first :: rest =>
      match rest with
      | [] => remove first d
      | second :: rest' =>
          if adjacent d first second
          then reducePairs rest' (remove first d)
          else reducePairs rest (remove first d)
      end
  end.

Definition remove_frame (r : ref) (f : frame) : frame :=
  Frame (f_ref f) (f_tag f) (f_attrs f)
        (remove_list r (f_before f)) (remove_list r (f_after f)).

Definition is_leaf (n : node) : bool :=
  match n with
  | Element _ _ _ _ => false
  | _ => true
  end.

(** All children are leaves: text and line breaks. *)
Definition flat (n : node) : bool := forallb is_leaf (childNodes n).

Definition spacer (n : node) : bool := matches_p n && isPossibleSpacer n.

Definition spacer_at (d : node) (r : ref) : Prop :=
  exists f q n, locate r d = Some (f :: q, n) /\ spacer n = true.

(** The filler marker among [c] and below it, each with its parent and the
    parent's tag. *)
Definition own_parent (par : ref) (t : string) (c : node) : list (ref * ref * string) :=
  if isFiller c then [(node_ref c, par, t)] else [].

(** The filler markers of a tree, each with its parent and the parent's tag,
    in document order. *)
Fixpoint filler_parents (n : node) : list (ref * ref * string) :=
  match n with
  | Element i t _ cs =>
      flat_map (fun c => (if isFiller c then [(node_ref c, i, t)] else [])
                         ++ filler_parents c) cs
  | _ => []
  end.

Definition filler_parents_of (par : ref) (t : string) (cs : list node)
    : list (ref * ref * string) :=
  flat_map (fun c => own_parent par t c ++ filler_parents c) cs.

Fixpoint parents_before (p : list frame) : list (ref * ref * string) :=
  match p with
  | [] => []
  | f :: p' => parents_before p' ++ filler_parents_of (f_ref f) (f_tag f) (f_before f)
  end.

Fixpoint parents_after (p : list frame) : list (ref * ref * string) :=
  match p with
  | [] => []
  | f :: p' => filler_parents_of (f_ref f) (f_tag f) (f_after f) ++ parents_after p'
  end.

(** From [d] to [d'] no filler marker is lost or reordered, and the filler
    markers whose parent is not an inline wrapper keep their parent. *)
Definition fillers_kept (d d' : node) : Prop :=
  select isFiller d' = select isFiller d /\
  forall x par t,
    In (x, par, t) (filler_parents d) -> isInlineWrapper t = false ->
    In (x, par, t) (filler_parents d').

Definition isTextArea (e : hostElement) : bool :=
  match e with
  | HTMLTextAreaElement _ => true
  | OtherElement _ _ _ => false
  end.

Section Pairing.
Variable adj : ref -> ref -> bool.

Fixpoint kept (l : list ref) : list ref :=
  match l with
  | [] => []
  | first :: rest =>
      match rest with
      | [] => []
      | second :: rest' =>
          if adj first second then second :: kept rest' else kept rest
      end
  end.

(** Every entry follows the one before it. *)
Fixpoint chained (l : list ref) : bool :=
  match l with
  | x :: (y :: _) as l' => adj x y && chained l'
  | _ => true
  end.

(** The first entry of [l2] follows the last entry of [l1]. *)
Fixpoint joined (l1 l2 : list ref) : bool :=
  match l1 with
  | [] => false
  | x :: l1' =>
      match l1' with
      | [] => match l2 with
              | y :: _ => adj x y
              | [] => false
              end
      | _ :: _ => joined l1' l2
      end
  end.

End Pairing.

Definition mem (r : ref) (l : list ref) : bool := existsb (Nat.eqb r) l.

(** The node is still in the tree. *)
Definition contains (d : node) (r : ref) : bool := isSome (locate r d).

(** The paragraph is where it was in the tree the list was taken from, with
    the same content and the same siblings after it. *)
Definition settled (d0 d : node) (r : ref) : Prop :=
  exists f0 q0 f q n,
    locate r d0 = Some (f0 :: q0, n) /\
    locate r d = Some (f :: q, n) /\
    f_after f = f_after f0 /\
    spacer n = true.

Definition pid (name : string) (cs : list html) : html := HElement "P" [("id", name)] cs.

(** A run of three between a heading and a paragraph with text. *)
Definition three_spacers : list html :=
  [HElement "H1" [] [HText "t"]; pid "a" [br]; pid "b" [br]; pid "c" [br]; p [HText "x"]].

Definition message_page : page :=
  Page (HTMLTextAreaElement (TextArea [p [HText "a"; br]; p [br]] [("name", "message")]))
       [HElement "FORM" [] []].

(** The parent of a node and the number of siblings before it. *)
Definition parent_and_index (x : ref) (d : node) : option (ref * nat) :=
  match locate x d with
  | Some (f :: _, _) => Some (f_ref f, length (f_before f))
  | _ => None
  end.

(** C1 as stated: after the passes every filler marker has the parent and the
    place among its siblings it had in the parsed input. *)
Definition fillers_stay_in_place (v : list html) : Prop :=
  forall d',
    normalizeDiv (createDiv v) = Ok d' ->
    forall x, In x (select isFiller (createDiv v)) ->
              parent_and_index x d' = parent_and_index x (createDiv v).


(** [unwrapBr] would move the marker: it is alone in an inline wrapper. *)
Definition unwrappable (x : ref) (d : node) : bool :=
  negb (isSome (previousSibling x d) || isSome (nextSibling x d)) &&
  match parentElement x d with
  | Some parent => isInlineWrapper (tagName parent)
  | None => false
  end.

(** [removeTrailingBr] would remove the marker. *)
Definition trailing (x : ref) (d : node) : bool :=
  negb (dataset_ckeFiller x d) &&
  match closest matches_p_td x d with
  | Some c =>
      isAtNodeEnd x (node_ref c) d &&
      (String.eqb (tagName c) "TD" || (1 <? length (childNodes c)))
  | None => false
  end.

(** Nothing for the normalizer to do: no marker to unwrap or to strip, no
    spacer paragraph. *)
Definition at_rest (v : list html) : bool :=
  let d := createDiv v in
  forallb (fun b => negb (unwrappable (node_ref b) d) && negb (trailing (node_ref b) d))
          (querySelectorAll isBr d)
  && match getPossibleSpacerParagraphs d with
     | [] => true
     | _ :: _ => false
     end.

Definition trailing_cases : node :=
  createDiv [p [br]; p [HText "x"; br]; HElement "TD" [] [br]; br].

Definition lone_wrapper (w : frame) : Prop :=
  isInlineWrapper (f_tag w) = true /\ f_before w = [] /\ f_after w = [].

(** [<div><p><b><i><br></i></b></p></div>], seen from the marker. *)
Definition nested_wrappers : list frame :=
  [Frame 3 "I" [] [] []; Frame 2 "B" [] [] []].

(** C8 as stated: the containers found are the paragraphs and table cells
    whose only child node is a marker that is not a filler. *)
Definition only_child_is_marker (n : node) : bool :=
  match childNodes n with
  | [c] => isBr c && negb (ckeFiller c)
  | _ => false
  end.

Definition spacer_containers (d : node) : list ref :=
  map node_ref (filter (fun n => matches_p_td n && only_child_is_marker n) (descendants d)).

(** ** What the passes do to a tree *)

Definition node_data (n : node) : string :=
  match n with
  | Text _ s => s
  | _ => ""
  end.

(** A node without its children: reference, node name, attributes, text. *)
Definition label : Type := ref * string * attrs * string.

Definition node_label (n : node) : label :=
  (node_ref n, tagName n, node_attributes n, node_data n).

(** The nodes of a tree, in document order. *)
Definition labels (n : node) : list label := map node_label (descendants_or_self n).

(** The two edits of [normalizeBr]: a marker that is the only child of a
    recognized inline wrapper takes the place of the wrapper, and a marker
    that [removeTrailingBr] picks is taken out. *)
Inductive unwraps_or_strips : node -> node -> Prop :=
| edit_unwrap f g p i a :
    alone f = true -> isInlineWrapper (f_tag f) = true ->
    unwraps_or_strips (plug (f :: g :: p) (Br i a)) (plug (g :: p) (Br i a))
| edit_strip f p i a :
    strips (f :: p) (Br i a) = true ->
    unwraps_or_strips (plug (f :: p) (Br i a)) (plug p (close f)).

(** The edit of [reduceSpacerParagraphs] on the scanner's list: a paragraph
    whose only element child is a marker that is not a filler is taken out. *)
Inductive drops_spacer : node -> node -> Prop :=
| edit_drop f p n :
    spacer n = true -> drops_spacer (plug (f :: p) n) (plug p (close f)).

(** One edit after the other. *)
Inductive steps (R : node -> node -> Prop) : node -> node -> Prop :=
| steps_nil d : steps R d d
| steps_cons d1 d2 d3 : R d1 d2 -> steps R d2 d3 -> steps R d1 d3.

(** Neither a line-break marker nor a recognized inline wrapper. *)
Definition survivor (l : label) : bool :=
  let '(_, name, _, _) := l in
  negb (String.eqb name "BR") && negb (isInlineWrapper name).



(** The markup holds a line break somewhere. *)
Fixpoint has_br (h : html) : bool :=
  match h with
  | HText _ => false
  | HBr _ => true
  | HElement _ _ cs => existsb has_br cs
  end.

(** The line-break markers of a tree that are not below a paragraph or a
    table cell, in document order. *)
Fixpoint free_markers (n : node) : list ref :=
  match n with
  | Text _ _ => []
  | Br i _ => [i]
  | Element _ t _ cs =>
      if String.eqb t "P" || String.eqb t "TD" then [] else flat_map free_markers cs
  end.

(** ** The places of filler markers *)

(** Where a filler marker sits: the marker, its parent, the parent's tag,
    the number of child nodes of the parent before the marker, and whether
    the marker is the only child of its parent. *)
Definition place : Type := ref * ref * string * nat * bool.

Definition place_of (e : place) : ref :=
  let '(x, _, _, _, _) := e in x.

Section PlacesFrom.
Variables (par : ref) (t : string) (only : bool).
Variable below : node -> list place.

(** The filler markers among the children [cs] of [par] and below them, the
    first of [cs] being child number [k]. *)
Fixpoint places_from (k : nat) (cs : list node) : list place :=
  match cs with
  | [] => []
  | c :: rest =>
      (if isFiller c then [(node_ref c, par, t, k, only)] else []) ++
      below c ++ places_from (S k) rest
  end.
End PlacesFrom.

(** The filler markers of a tree with their places, in document order. *)
Fixpoint filler_places (n : node) : list place :=
  match n with
  | Element i t _ cs => places_from i t (length cs =? 1) filler_places 0 cs
  | _ => []
  end.

(** The place of the node in the hole of [f], when it is a filler marker. *)
Definition own_place (f : frame) (n : node) : list place :=
  if isFiller n
  then [(node_ref n, f_ref f, f_tag f, length (f_before f), alone f)]
  else [].

(** ** What the call does besides replacing the value

    The two assignments of [normalizeLegacyMessage] go through setters of the
    platform.

    [div.innerHTML = element.value]: [div] was made by
    [document.createElement], so the markup is parsed into nodes of the live
    document, attached or not.  The images among them start loading, and
    their handlers run once that has succeeded or failed.

    [element.value = div.innerHTML]: the value setter of a textarea stores
    the new text, marks the value as dirty (it no longer follows the default
    value) and, when the new text differs from the old one, moves the cursor
    to the end of the text, with nothing selected and no selection
    direction. *)

Inductive selectionDirection : Type :=
| Forward
| Backward
| NoDirection.

(** [selectionStart], [selectionEnd] and [selectionDirection].  [CursorAtEnd]
    is what the value setter leaves: both offsets at the length of the new
    text, direction none. *)
Inductive selection : Type :=
| Range (selectionStart selectionEnd : nat) (selectionDirection : selectionDirection)
| CursorAtEnd.

(** What a textarea holds besides the markup of its value and its
    attributes.  [serialized] says that the text of the value is, character
    for character, what the serializer writes for the markup it parses to;
    any text that [innerHTML] returned is. *)
Record controlState : Type := ControlState {
  control_selection : selection;
  dirty_value : bool;
  serialized : bool
}.

Fixpoint attrs_eqb (a b : attrs) : bool :=
  match a, b with
  | [], [] => true
  | (k, v) :: a', (k', v') :: b' => String.eqb k k' && String.eqb v v' && attrs_eqb a' b'
  | _, _ => false
  end.

Fixpoint html_eqb (h h' : html) : bool :=
  match h, h' with
  | HText s, HText s' => String.eqb s s'
  | HBr a, HBr a' => attrs_eqb a a'
  | HElement t a cs, HElement t' a' cs' =>
      String.eqb t t' && attrs_eqb a a' &&
      (fix all (l l' : list html) {struct l} : bool :=
         match l, l' with
         | [], [] => true
         | c :: r, c' :: r' => html_eqb c c' && all r r'
         | _, _ => false
         end) cs cs'
  | _, _ => false
  end.

Fixpoint markup_eqb (v v' : list html) : bool :=
  match v, v' with
  | [], [] => true
  | c :: r, c' :: r' => html_eqb c c' && markup_eqb r r'
  | _, _ => false
  end.

(** [element.value = text], where the old text parses to [old] and the new
    text is what the serializer writes for [new].  The serializer writes
    different text for different markup, and its text parses back to the
    markup it was written for; so the two texts are the same exactly when the
    old one was in serialized form and the markup is the same. *)
Definition value_assigned (c : controlState) (old new : list html) : controlState :=
  ControlState
    (if serialized c && markup_eqb old new then control_selection c else CursorAtEnd)
    true
    true.

Section TextControl.

(** The resources whose loading starts when markup is parsed into an element
    of the live document.  Which ones these are is the platform's matter and
    is left open. *)
Variable resource : Type.
Variable loads : list html -> list resource.

(** [normalizeLegacyMessage] with the state of the text control and the
    loading it starts in view. *)
Definition normalizeLegacyMessage_control (w : page) (c : controlState)
    : completion * page * controlState * list resource :=
  match element w with
  | OtherElement _ _ _ =>
      (Threw (TypeError "Expected the element to be a <textarea>."), w, c, [])
  | HTMLTextAreaElement t =>
      let div := createDiv (value t) in
      let started := loads (value t) in
      match normalizeDiv div with
      | Ok div' =>
          (Returned,
           Page (HTMLTextAreaElement (TextArea (innerHTML div') (properties t)))
                (document w),
           value_assigned c (value t) (innerHTML div'),
           started)
      | Throw e => (Threw e, w, c, started)
      | OutOfFuel => (Diverged, w, c, started)
      end
  end.

End TextControl.

Arguments normalizeLegacyMessage_control {resource} loads w c.

(** C9 as stated: when the call returns, nothing but the value of the
    textarea has changed and nothing else has been set off. *)
Definition only_sets_value : Prop :=
  forall (resource : Type) (loads : list html -> list resource) w c w' c' started,
    normalizeLegacyMessage_control loads w c = (Returned, w', c', started) ->
    (exists t new,
        element w = HTMLTextAreaElement t /\
        w' = Page (HTMLTextAreaElement (TextArea new (properties t))) (document w)) /\
    control_selection c' = control_selection c /\
    started = [].

(** The images of a piece of markup, by their [src]. *)
Fixpoint image_sources (h : html) : list string :=
  match h with
  | HElement t a cs =>
      (if String.eqb t "IMG"
       then match getAttribute "src" a with Some s => [s] | None => [] end
       else []) ++ flat_map image_sources cs
  | _ => []
  end.

(** A textarea with its first three characters selected. *)
Definition message_control : controlState := ControlState (Range 0 3 Forward) false true.

(** * DOM/Traverse

    The helpers of the module [WoltLab/WCF/DOM/Traverse] over the same trees:
    an element is designated by its reference in the tree [d]. *)

Definition previousElementSibling (x : ref) (d : node) : option node :=
  match locate x d with
  | Some (f :: _, _) => find isElement (rev (f_before f))
  | _ => None
  end.

(** [el.parentNode].  In these trees every parent is an element; what the
    root hangs from (nothing, a document, a fragment) is not an [Element]
    and ends the loop of [_parent] like [null]. *)
Definition parentNode (x : ref) (d : node) : option node := parentElement x d.

(** [el.nodeName]: the tag name of an element, [#text] for a text node. *)
Definition nodeName (n : node) : string := tagName n.

(** ASCII whitespace, which separates the tokens of a [class] attribute:
    tab, line feed, form feed, carriage return and space. *)
Definition isAsciiWhitespace (c : Ascii.ascii) : bool :=
  match Ascii.nat_of_ascii c with
  | 9 | 10 | 12 | 13 | 32 => true
  | _ => false
  end.

(** The tokens of [s], [token] being the one that is being read. *)
Fixpoint tokens (token s : string) : list string :=
  match s with
  | EmptyString =>
      match token with
      | EmptyString => []
      | _ => [token]
      end
  | String c s' =>
      if isAsciiWhitespace c then
        match token with
        | EmptyString => tokens "" s'
        | _ => token :: tokens "" s'
        end
      else tokens (token ++ String c "") s'
  end.

(** [el.classList] *)
Definition classList (el : node) : list string :=
  match getAttribute "class" (node_attributes el) with
  | Some value => tokens "" value
  | None => []
  end.

(** [el.classList.contains(className)] *)
Definition classList_contains (el : node) (className : string) : bool :=
  existsb (String.eqb className) (classList el).

(** The constants that index [_probe]. *)
Inductive probeType : Type :=
| NONE
| SELECTOR
| CLASS_NAME
| TAG_NAME.

(** The property [_sibling] reads from [el]. *)
Inductive siblingType : Type :=
| NextElementSibling
| PreviousElementSibling.

Inductive exception : Type :=
| ReferenceError (message : string).

Section Traverse.

(** [DOMUtil.matches(el, selector)].  Dom/Util is not among the sources and
    selector matching is the platform's: the helpers are defined for whatever
    it answers.  It is given the tree as well, since a selector may look at
    the ancestors and the siblings of [el]. *)
Variable matches : node -> node -> string -> bool.

(** [_probe[type](el, value)]; [NONE] is called with [null], which it does
    not look at. *)
Definition _probe (type : probeType) (d : node) (el : node) (value : string) : bool :=
  match type with
  | NONE => true
  | SELECTOR => matches d el value
  | CLASS_NAME => classList_contains el value
  | TAG_NAME => String.eqb (nodeName el) value
  end.

(** The [while] of [_parent]: [el] is what the loop variable holds, [None]
    for [null]; [fuel] bounds the number of iterations. *)
Fixpoint _parent_loop (fuel : nat) (d : node) (el : option node)
    (type : probeType) (value : string) : result (option node) :=
  match fuel with
  | 0 => OutOfFuel
  | S fuel' =>
      match el with
      | Some e =>
          if isElement e then
            if _probe type d e value then Ok (Some e)
            else _parent_loop fuel' d (parentNode (node_ref e) d) type value
          else Ok None
      | None => Ok None
      end
  end.

Definition _parent (fuel : nat) (el : ref) (type : probeType) (value : string) (d : node)
    : result (option node) :=
  _parent_loop fuel d (parentNode el d) type value.

Definition sibling (siblingType : siblingType) (el : ref) (d : node) : option node :=
  match siblingType with
  | NextElementSibling => nextElementSibling el d
  | PreviousElementSibling => previousElementSibling el d
  end.

Definition _sibling (el : ref) (siblingType : siblingType) (type : probeType)
    (value : string) (d : node) : option node :=
  match locate el d with
  | Some (_, n) =>
      if isElement n then
        match sibling siblingType el d with
        | Some s => if _probe type d s value then Some s else None
        | None => None
        end
      else None
  | None => None
  end.

Definition parentBySel (fuel : nat) (el : ref) (selector : string) (d : node) :=
  _parent fuel el SELECTOR selector d.

Definition parentByClass (fuel : nat) (el : ref) (className : string) (d : node) :=
  _parent fuel el CLASS_NAME className d.

Definition parentByTag (fuel : nat) (el : ref) (tag : string) (d : node) :=
  _parent fuel el TAG_NAME tag d.

Definition next (el : ref) (d : node) := _sibling el NextElementSibling NONE "" d.

Definition nextBySel (el : ref) (selector : string) (d : node) :=
  _sibling el NextElementSibling SELECTOR selector d.

Definition nextByClass (el : ref) (className : string) (d : node) :=
  _sibling el NextElementSibling CLASS_NAME className d.

(** [nextByTag] and [prevByTag] pass [CLASS_NAME, className] where
    [className] is not a parameter of theirs nor a variable of the module:
    the name is looked up in the global scope.  [global_className] is what
    the page has there, [None] when it defines no such variable; reading it
    then throws. *)
Definition nextByTag (global_className : option string) (el : ref) (tag : string) (d : node)
    : exception + option node :=
  match global_className with
  | None => inl (ReferenceError "className is not defined")
  | Some className => inr (_sibling el NextElementSibling CLASS_NAME className d)
  end.

Definition prev (el : ref) (d : node) := _sibling el PreviousElementSibling NONE "" d.

Definition prevBySel (el : ref) (selector : string) (d : node) :=
  _sibling el PreviousElementSibling SELECTOR selector d.

Definition prevByClass (el : ref) (className : string) (d : node) :=
  _sibling el PreviousElementSibling CLASS_NAME className d.

Definition prevByTag (global_className : option string) (el : ref) (tag : string) (d : node)
    : exception + option node :=
  match global_className with
  | None => inl (ReferenceError "className is not defined")
  | Some className => inr (_sibling el PreviousElementSibling CLASS_NAME className d)
  end.

End Traverse.

(** A character of [s] is ASCII whitespace. *)
Fixpoint has_whitespace (s : string) : bool :=
  match s with
  | EmptyString => false
  | String c s' => isAsciiWhitespace c || has_whitespace s'
  end.

(** [<div><ul class="a  list"><li>one</li> <li class="on">two</li></ul></div>] *)
Definition list_page : node :=
  createDiv [HElement "UL" [("class", "a  list")]
               [HElement "LI" [] [HText "one"]; HText " ";
                HElement "LI" [("class", "on")] [HText "two"]]].

(** * Properties *)

(** ** Induction over nodes *)

Lemma node_induction (P : node -> Prop) :
  (forall i s, P (Text i s)) ->
  (forall i a, P (Br i a)) ->
  (forall i t a cs, Forall P cs -> P (Element i t a cs)) ->
  forall n, P n.
Proof.
  intros HT HB HE.
  fix IH 1.
  intros [i s | i a | i t a cs].
  - apply HT.
  - apply HB.
  - apply HE. induction cs as [| c cs IHcs]; constructor; [apply IH | exact IHcs].
Qed.

(** ** Finding a node *)

Lemma locate_Element x i t a cs :
  locate x (Element i t a cs) =
  if i =? x then Some ([], Element i t a cs)
  else locate_in (locate x) i t a [] cs.
Proof. reflexivity. Qed.

Lemma plug_app p q n : plug (p ++ q) n = plug q (plug p n).
Proof. unfold plug. apply fold_left_app. Qed.

Lemma plug_cons f p n : plug (f :: p) n = plug p (fill f n).
Proof. reflexivity. Qed.

Lemma locate_in_Some loc i t a before cs p n :
  locate_in loc i t a before cs = Some (p, n) ->
  exists q l c r,
    p = q ++ [Frame i t a (before ++ l) r] /\ cs = l ++ c :: r /\
    loc c = Some (q, n) /\ Forall (fun c' => loc c' = None) l.
Proof.
  revert before. induction cs as [| c cs IH]; intros before H; simpl in H; [discriminate |].
  destruct (loc c) as [[q m] |] eqn:E.
  - inversion H; subst. exists q, [], c, cs. rewrite app_nil_r. auto.
  - apply IH in H. destruct H as (q & l & c' & r & -> & -> & Hc & Hl).
    exists q, (c :: l), c', r. rewrite <- app_assoc. simpl. auto.
Qed.

Lemma locate_in_intro loc i t a before l c r q n :
  Forall (fun c' => loc c' = None) l ->
  loc c = Some (q, n) ->
  locate_in loc i t a before (l ++ c :: r) = Some (q ++ [Frame i t a (before ++ l) r], n).
Proof.
  intros Hl Hc. revert before. induction Hl as [| c' l Hc' Hl IH]; intros before; simpl.
  - rewrite Hc, app_nil_r. reflexivity.
  - rewrite Hc', IH, <- app_assoc. reflexivity.
Qed.

Lemma locate_in_None loc i t a before cs :
  locate_in loc i t a before cs = None <-> Forall (fun c => loc c = None) cs.
Proof.
  revert before. induction cs as [| c cs IH]; intros before; simpl.
  - split; auto.
  - destruct (loc c) as [[q m] |] eqn:E.
    + split; [discriminate | intros H; inversion H; congruence].
    + rewrite IH. split; [auto | intros H; inversion H; auto].
Qed.

Lemma locate_sound x d p n :
  locate x d = Some (p, n) -> plug p n = d /\ node_ref n = x.
Proof.
  revert p n. induction d as [i s | i a | i t a cs IH] using node_induction; intros p n H.
  - simpl in H. destruct (i =? x) eqn:E; [| discriminate].
    inversion H; subst. apply Nat.eqb_eq in E. auto.
  - simpl in H. destruct (i =? x) eqn:E; [| discriminate].
    inversion H; subst. apply Nat.eqb_eq in E. auto.
  - rewrite locate_Element in H. destruct (i =? x) eqn:E.
    + inversion H; subst. apply Nat.eqb_eq in E. auto.
    + apply locate_in_Some in H. destruct H as (q & l & c & r & -> & -> & Hc & _).
      rewrite Forall_forall in IH. apply IH in Hc; [| apply in_elt].
      destruct Hc as [Hp Hn]. rewrite plug_app, Hp. auto.
Qed.

Lemma locate_None x d : locate x d = None <-> ~ In x (refs d).
Proof.
  induction d as [i s | i a | i t a cs IH] using node_induction.
  - simpl. destruct (i =? x) eqn:E.
    + apply Nat.eqb_eq in E. split; [discriminate | tauto].
    + apply Nat.eqb_neq in E. split; [tauto | auto].
  - simpl. destruct (i =? x) eqn:E.
    + apply Nat.eqb_eq in E. split; [discriminate | tauto].
    + apply Nat.eqb_neq in E. split; [tauto | auto].
  - rewrite locate_Element. simpl refs. destruct (i =? x) eqn:E.
    + apply Nat.eqb_eq in E. split; [discriminate | simpl; tauto].
    + apply Nat.eqb_neq in E. rewrite locate_in_None.
      rewrite Forall_forall in IH. rewrite Forall_forall. simpl. rewrite in_flat_map.
      split.
      * intros H [Hx | (c & Hc & Hx)]; [tauto |].
        apply (proj1 (IH c Hc)) in Hx; auto.
      * intros H c Hc. apply IH; [assumption |]. intros Hx. apply H. right. eauto.
Qed.

Lemma locate_self n : locate (node_ref n) n = Some ([], n).
Proof. destruct n; simpl; rewrite Nat.eqb_refl; reflexivity. Qed.

Lemma refs_of_app l1 l2 : refs_of (l1 ++ l2) = refs_of l1 ++ refs_of l2.
Proof. apply flat_map_app. Qed.

Lemma refs_fill f n :
  refs (fill f n) = f_ref f :: refs_of (f_before f) ++ refs n ++ refs_of (f_after f).
Proof.
  unfold fill. simpl. fold (refs_of (f_before f ++ n :: f_after f)).
  rewrite refs_of_app. reflexivity.
Qed.

Lemma refs_plug p n : refs (plug p n) = refs_before p ++ refs n ++ refs_after p.
Proof.
  revert n. induction p as [| f p IH]; intros n.
  - simpl. rewrite app_nil_r. reflexivity.
  - rewrite plug_cons, IH, refs_fill. simpl. repeat rewrite <- app_assoc. reflexivity.
Qed.

Lemma locate_fill x f n q m :
  x <> f_ref f -> ~ In x (refs_of (f_before f)) ->
  locate x n = Some (q, m) ->
  locate x (fill f n) = Some (q ++ [f], m).
Proof.
  intros Hf Hb Hn. unfold fill. rewrite locate_Element.
  destruct (f_ref f =? x) eqn:E; [apply Nat.eqb_eq in E; congruence |].
  rewrite (locate_in_intro _ _ _ _ [] (f_before f) n (f_after f) q m); simpl.
  - destruct f; reflexivity.
  - rewrite Forall_forall. intros c Hc. apply locate_None. intros Hx.
    apply Hb. unfold refs_of. rewrite in_flat_map. eauto.
  - exact Hn.
Qed.

Lemma locate_plug_lift x p n q m :
  ~ In x (refs_before p) ->
  locate x n = Some (q, m) ->
  locate x (plug p n) = Some (q ++ p, m).
Proof.
  revert n q. induction p as [| f p IH]; intros n q Hp Hn.
  - simpl. rewrite app_nil_r. exact Hn.
  - rewrite plug_cons. simpl in Hp. rewrite in_app_iff in Hp. simpl in Hp.
    replace (q ++ f :: p) with ((q ++ [f]) ++ p) by (rewrite <- app_assoc; reflexivity).
    apply IH; [tauto |]. apply locate_fill; [intros ->; tauto | tauto | exact Hn].
Qed.

(** ** Distinct references *)

Lemma NoDup_app_inv {A : Type} (l1 l2 : list A) :
  NoDup (l1 ++ l2) -> NoDup l1 /\ NoDup l2 /\ (forall x, In x l1 -> ~ In x l2).
Proof.
  induction l1 as [| a l1 IH]; simpl; intros H.
  - repeat split; [constructor | assumption | tauto].
  - inversion H as [| ? ? Ha Hl]; subst. destruct (IH Hl) as (H1 & H2 & H3).
    repeat split; [| assumption |].
    + constructor; [| assumption]. intros Hin. apply Ha, in_or_app; auto.
    + intros x [-> | Hx]; [| auto]. intros Hin. apply Ha, in_or_app; auto.
Qed.

Lemma refs_head n : refs n = node_ref n :: refs_of (childNodes n).
Proof. destruct n; reflexivity. Qed.

Lemma node_ref_in_refs n : In (node_ref n) (refs n).
Proof. rewrite refs_head. left. reflexivity. Qed.

(** What distinctness says about the hole of a position. *)
Lemma NoDup_plug_hole p n :
  NoDup (refs (plug p n)) ->
  NoDup (refs n) /\
  (forall x, In x (refs n) -> ~ In x (refs_before p) /\ ~ In x (refs_after p)).
Proof.
  rewrite refs_plug. intros H.
  apply NoDup_app_inv in H. destruct H as (_ & H & Hb).
  apply NoDup_app_inv in H. destruct H as (Hn & _ & Ha).
  split; [assumption |]. intros x Hx. split; [| auto].
  intros Hin. apply (Hb x Hin). apply in_or_app. auto.
Qed.

(** In a tree whose references are pairwise distinct a node is found where
    it stands. *)
Lemma locate_plug p n :
  NoDup (refs (plug p n)) -> locate (node_ref n) (plug p n) = Some (p, n).
Proof.
  intros H. apply NoDup_plug_hole in H. destruct H as [_ H].
  apply (locate_plug_lift _ p n [] n); [| apply locate_self].
  apply H, node_ref_in_refs.
Qed.

Lemma NoDup_app_drop {A : Type} (l1 m l2 : list A) :
  NoDup (l1 ++ m ++ l2) -> NoDup (l1 ++ l2).
Proof.
  induction m as [| a m IH]; simpl; intros H; [assumption |].
  apply IH. eapply NoDup_remove_1. exact H.
Qed.

(** ** Removing a node *)

Lemma remove_Element x i t a cs :
  remove x (Element i t a cs) = Element i t a (remove_list x cs).
Proof. reflexivity. Qed.

Lemma remove_list_app x l1 l2 :
  remove_list x (l1 ++ l2) = remove_list x l1 ++ remove_list x l2.
Proof. apply flat_map_app. Qed.

Lemma remove_absent x d : ~ In x (refs_of (childNodes d)) -> remove x d = d.
Proof.
  induction d as [i s | i a | i t a cs IH] using node_induction; intros H;
    [reflexivity | reflexivity |].
  rewrite remove_Element. f_equal. simpl in H.
  induction cs as [| c cs IHcs]; [reflexivity |].
  inversion IH as [| ? ? Hc Hcs]; subst.
  change (remove_list x (c :: cs)) with
    ((if node_ref c =? x then [] else [remove x c]) ++ remove_list x cs).
  simpl in H. rewrite in_app_iff in H.
  destruct (node_ref c =? x) eqn:E.
  - apply Nat.eqb_eq in E. exfalso. apply H. left. rewrite <- E. apply node_ref_in_refs.
  - simpl. rewrite Hc, IHcs; [reflexivity | assumption | tauto |].
    intros Hx. apply H. left. rewrite refs_head. right. exact Hx.
Qed.

Lemma remove_list_absent x cs : ~ In x (refs_of cs) -> remove_list x cs = cs.
Proof.
  intros H. assert (E := remove_absent x (Element 0 "" [] cs) H).
  rewrite remove_Element in E. congruence.
Qed.

Lemma remove_fill_hole x f n :
  node_ref n = x -> ~ In x (refs_of (f_before f)) -> ~ In x (refs_of (f_after f)) ->
  remove x (fill f n) = close f.
Proof.
  intros Hn Hb Ha. unfold fill, close. rewrite remove_Element. f_equal.
  rewrite remove_list_app. change (n :: f_after f) with ([n] ++ f_after f).
  rewrite remove_list_app.
  rewrite (remove_list_absent x (f_before f)), (remove_list_absent x (f_after f)) by assumption.
  simpl. rewrite Hn, Nat.eqb_refl. reflexivity.
Qed.

Lemma remove_fill_above x f n :
  node_ref n <> x -> ~ In x (refs_of (f_before f)) -> ~ In x (refs_of (f_after f)) ->
  remove x (fill f n) = fill f (remove x n).
Proof.
  intros Hn Hb Ha. unfold fill. rewrite remove_Element. f_equal.
  rewrite remove_list_app. change (n :: f_after f) with ([n] ++ f_after f).
  rewrite remove_list_app.
  rewrite (remove_list_absent x (f_before f)), (remove_list_absent x (f_after f)) by assumption.
  simpl. apply Nat.eqb_neq in Hn. rewrite Hn. reflexivity.
Qed.

Lemma remove_plug_above x p n :
  node_ref n <> x -> ~ In x (refs_before p) -> ~ In x (refs_after p) ->
  remove x (plug p n) = plug p (remove x n).
Proof.
  revert n. induction p as [| f p IH]; intros n Hn Hb Ha; [reflexivity |].
  simpl in Hb, Ha. rewrite in_app_iff in Hb, Ha. simpl in Hb.
  rewrite !plug_cons, IH.
  - rewrite remove_fill_above; tauto.
  - simpl. intros E. apply Hb. auto.
  - tauto.
  - tauto.
Qed.

(** Removing a node that has a parent closes the hole it leaves. *)
Lemma remove_plug f p n :
  NoDup (refs (plug (f :: p) n)) ->
  remove (node_ref n) (plug (f :: p) n) = plug p (close f).
Proof.
  intros H. apply NoDup_plug_hole in H. destruct H as [_ H].
  destruct (H _ (node_ref_in_refs n)) as [Hb Ha].
  simpl in Hb, Ha. rewrite in_app_iff in Hb, Ha. simpl in Hb.
  rewrite plug_cons, remove_plug_above.
  - rewrite remove_fill_hole; tauto.
  - simpl. intros E. apply Hb. auto.
  - tauto.
  - tauto.
Qed.

Lemma remove_located x d f p n :
  NoDup (refs d) -> locate x d = Some (f :: p, n) -> remove x d = plug p (close f).
Proof.
  intros H L. apply locate_sound in L. destruct L as [<- <-].
  apply remove_plug. exact H.
Qed.

Lemma remove_unlocated x d : locate x d = None -> remove x d = d.
Proof.
  intros L. apply remove_absent. rewrite locate_None in L.
  intros H. apply L. rewrite refs_head. right. exact H.
Qed.

Lemma remove_root x d n : NoDup (refs d) -> locate x d = Some ([], n) -> remove x d = d.
Proof.
  intros H L. apply locate_sound in L. destruct L as [<- <-]. simpl in *.
  apply remove_absent. rewrite refs_head in H. inversion H; assumption.
Qed.

(** ** Document order

    Fresh nodes are numbered in document order, and no mutation of the
    normalizer reorders nodes: references stay increasing along the tree. *)

Lemma sublist_refl {A : Type} (l : list A) : sublist l l.
Proof. induction l; constructor; assumption. Qed.

Lemma sublist_nil_l {A : Type} (l : list A) : sublist [] l.
Proof. induction l; constructor; assumption. Qed.

Lemma sublist_app {A : Type} (a a' b b' : list A) :
  sublist a a' -> sublist b b' -> sublist (a ++ b) (a' ++ b').
Proof. intros Ha Hb. induction Ha; simpl; try constructor; assumption. Qed.

Lemma sublist_In {A : Type} (l' l : list A) x : sublist l' l -> In x l' -> In x l.
Proof. intros H. induction H; simpl; intuition. Qed.

Lemma sublist_trans {A : Type} (l1 l2 l3 : list A) :
  sublist l1 l2 -> sublist l2 l3 -> sublist l1 l3.
Proof.
  intros H12 H23. revert l1 H12.
  induction H23 as [| x l2 l3 H IH | x l2 l3 H IH]; intros l1 H12.
  - assumption.
  - constructor. auto.
  - inversion H12; subst; [apply sublist_skip | apply sublist_keep]; auto.
Qed.

Lemma sublist_NoDup {A : Type} (l' l : list A) : sublist l' l -> NoDup l -> NoDup l'.
Proof.
  intros H. induction H as [| x l' l H IH | x l' l H IH]; intros Hl.
  - constructor.
  - inversion Hl; auto.
  - inversion Hl as [| ? ? Hx Hl']; subst. constructor; [| auto].
    intros Hin. apply Hx. eapply sublist_In; eassumption.
Qed.

Lemma sublist_app_l {A : Type} (a l c : list A) : sublist l c -> sublist l (a ++ c).
Proof. intros H. induction a; simpl; [assumption | constructor; assumption]. Qed.

Lemma sublist_app_same {A : Type} (a b c : list A) :
  sublist b c -> sublist (a ++ b) (a ++ c).
Proof. intros H. apply sublist_app; [apply sublist_refl | assumption]. Qed.

Ltac sublist_solve :=
  rewrite <- ?app_assoc; simpl; rewrite <- ?app_assoc;
  repeat first
    [ apply sublist_refl | apply sublist_nil_l | apply sublist_keep
    | apply sublist_app_same | apply sublist_app_l | apply sublist_skip ].

Lemma ordered_nil : ordered [].
Proof. intros [| ? ?] a l2 H; discriminate. Qed.

Lemma ordered_cons a l : ordered (a :: l) <-> (forall b, In b l -> a < b) /\ ordered l.
Proof.
  split.
  - intros H. split.
    + intros b Hb. apply (H [] a l eq_refl b Hb).
    + intros l1 c l2 E b Hb. apply (H (a :: l1) c l2); [simpl; congruence | assumption].
  - intros [Ha Hl] [| a' l1] c l2 E b Hb; simpl in E; inversion E; subst.
    + auto.
    + eapply Hl; [reflexivity | assumption].
Qed.

Lemma ordered_sublist l' l : sublist l' l -> ordered l -> ordered l'.
Proof.
  intros H. induction H as [| x l' l H IH | x l' l H IH]; intros Hl.
  - assumption.
  - apply ordered_cons in Hl. tauto.
  - apply ordered_cons in Hl. apply ordered_cons. split; [| tauto].
    intros b Hb. apply Hl. eapply sublist_In; eassumption.
Qed.

Lemma ordered_NoDup l : ordered l -> NoDup l.
Proof.
  induction l as [| a l IH]; intros H; constructor.
  - apply ordered_cons in H. intros Hin. apply (proj1 H) in Hin. lia.
  - apply IH. apply ordered_cons in H. tauto.
Qed.

Lemma well_formed_NoDup d : well_formed d -> NoDup (refs d).
Proof. apply ordered_NoDup. Qed.

(** ** One step of unwrapping *)

Lemma alone_inv f : alone f = true -> f_before f = [] /\ f_after f = [].
Proof. unfold alone. destruct (f_before f), (f_after f); intros; auto; discriminate. Qed.

Lemma last_node_None l : last_node l = None <-> l = [].
Proof.
  unfold last_node. split; [| intros ->; reflexivity].
  destruct l as [| a l]; [reflexivity |]. simpl.
  destruct (rev l ++ [a]) eqn:E; [| discriminate].
  apply app_eq_nil in E. destruct E; discriminate.
Qed.

Lemma has_sibling_alone x d f p n :
  locate x d = Some (f :: p, n) ->
  isSome (previousSibling x d) || isSome (nextSibling x d) = negb (alone f).
Proof.
  intros L. unfold previousSibling, nextSibling, alone. rewrite L.
  destruct (f_before f) as [| c l] eqn:Eb.
  - destruct (f_after f); reflexivity.
  - destruct (last_node (c :: l)) eqn:El; [reflexivity |].
    apply last_node_None in El. discriminate.
Qed.

Lemma refs_close_sublist f p n :
  sublist (refs (plug p (close f))) (refs (plug (f :: p) n)).
Proof.
  rewrite plug_cons, !refs_plug, refs_fill. unfold close. simpl.
  fold (refs_of (f_before f ++ f_after f)). rewrite refs_of_app.
  sublist_solve.
Qed.

Lemma refs_pop_sublist f p n :
  sublist (refs (plug p n)) (refs (plug (f :: p) n)).
Proof. rewrite plug_cons, !refs_plug, refs_fill. sublist_solve. Qed.

(** Moving a lone child after its parent and removing the parent takes one
    frame off the child's position. *)
Lemma unwrap_step f g p b :
  NoDup (refs (plug (f :: g :: p) b)) ->
  alone f = true ->
  remove (f_ref f)
    (insertAdjacentElement_afterend (f_ref f) (node_ref b) (plug (f :: g :: p) b))
  = plug (g :: p) b.
Proof.
  intros H Hf. apply alone_inv in Hf. destruct Hf as [Hb Ha].
  unfold insertAdjacentElement_afterend.
  assert (L1 : locate (f_ref f) (plug (f :: g :: p) b) = Some (g :: p, fill f b)).
  { rewrite plug_cons in *. apply (locate_plug (g :: p) (fill f b)). exact H. }
  assert (L2 : locate (node_ref b) (plug (f :: g :: p) b) = Some (f :: g :: p, b)).
  { apply locate_plug. exact H. }
  rewrite L1, L2, remove_plug by exact H.
  assert (H1 : NoDup (refs (plug (g :: p) (close f)))).
  { eapply sublist_NoDup; [apply refs_close_sublist | exact H]. }
  assert (L3 : locate (f_ref f) (plug (g :: p) (close f)) = Some (g :: p, close f)).
  { apply (locate_plug (g :: p) (close f)). exact H1. }
  rewrite L3.
  set (g' := Frame (f_ref g) (f_tag g) (f_attrs g) (f_before g) (b :: f_after g)).
  change (plug p (Element (f_ref g) (f_tag g) (f_attrs g)
                    (f_before g ++ close f :: b :: f_after g)))
    with (plug (g' :: p) (close f)).
  assert (H2 : NoDup (refs (plug (g' :: p) (close f)))).
  { revert H. rewrite !plug_cons, !refs_plug, !refs_fill. unfold close, g'. simpl.
    rewrite Hb, Ha. simpl. rewrite <- !app_assoc. simpl. rewrite <- !app_assoc.
    simpl. rewrite ?app_nil_r. tauto. }
  change (f_ref f) with (node_ref (close f)).
  rewrite remove_plug by exact H2. reflexivity.
Qed.

(** ** The unwrap loop *)

Lemma unwrapBr_plug fuel p b :
  NoDup (refs (plug p b)) ->
  p <> [] ->
  (forall f, isInlineWrapper (f_tag (last p f)) = false) ->
  length p <= fuel ->
  unwrapBr fuel (node_ref b) (plug p b) = Ok (plug (unwrapped p) b).
Proof.
  revert p. induction fuel as [| fuel IH]; intros p H Hp Hroot Hfuel.
  - destruct p; [congruence | simpl in Hfuel; lia].
  - destruct p as [| f p]; [congruence |].
    assert (L : locate (node_ref b) (plug (f :: p) b) = Some (f :: p, b))
      by (apply locate_plug; exact H).
    cbn [unwrapBr]. rewrite (has_sibling_alone _ _ _ _ _ L).
    unfold parentElement. rewrite L. cbn [tagName fill node_ref].
    destruct p as [| g p].
    + specialize (Hroot f). simpl in Hroot. rewrite Hroot.
      destruct (alone f); reflexivity.
    + cbn [unwrapped]. destruct (alone f) eqn:Ef; [| reflexivity]. simpl negb.
      cbn [orb andb]. destruct (isInlineWrapper (f_tag f)) eqn:Ew; [| reflexivity].
      rewrite unwrap_step by assumption.
      apply IH.
      * eapply sublist_NoDup; [apply refs_pop_sublist | exact H].
      * discriminate.
      * intros f0. apply (Hroot f0).
      * simpl in *. lia.
Qed.

(** ** Selecting nodes of a tree *)

Lemma leaf_selector_isBr : leaf_selector isBr.
Proof. intros i t a cs. reflexivity. Qed.

Lemma leaf_selector_isFiller : leaf_selector isFiller.
Proof. intros i t a cs. reflexivity. Qed.

Lemma select_flat_map sel cs :
  map node_ref (filter sel (flat_map descendants_or_self cs)) = select_of sel cs.
Proof.
  induction cs as [| c cs IH]; [reflexivity |].
  simpl. rewrite filter_app, map_app, IH. reflexivity.
Qed.

Lemma select_Element sel i t a cs :
  select sel (Element i t a cs) =
  (if sel (Element i t a cs) then [i] else []) ++ select_of sel cs.
Proof.
  unfold select. simpl. destruct (sel (Element i t a cs)); simpl;
    rewrite select_flat_map; reflexivity.
Qed.

Lemma select_of_app sel l1 l2 :
  select_of sel (l1 ++ l2) = select_of sel l1 ++ select_of sel l2.
Proof. apply flat_map_app. Qed.

Lemma select_fill sel f n :
  leaf_selector sel ->
  select sel (fill f n) =
  select_of sel (f_before f) ++ select sel n ++ select_of sel (f_after f).
Proof.
  intros H. unfold fill. rewrite select_Element, H, select_of_app. reflexivity.
Qed.

Lemma select_close sel f :
  leaf_selector sel ->
  select sel (close f) = select_of sel (f_before f) ++ select_of sel (f_after f).
Proof.
  intros H. unfold close. rewrite select_Element, H, select_of_app. reflexivity.
Qed.

Lemma select_plug sel p n :
  leaf_selector sel ->
  select sel (plug p n) = select_before sel p ++ select sel n ++ select_after sel p.
Proof.
  intros H. revert n. induction p as [| f p IH]; intros n.
  - simpl. rewrite app_nil_r. reflexivity.
  - rewrite plug_cons, IH, select_fill by assumption. simpl.
    rewrite <- !app_assoc. reflexivity.
Qed.

Lemma select_sublist sel n : sublist (select sel n) (refs n).
Proof.
  induction n as [i s | i a | i t a cs IH] using node_induction.
  - unfold select. simpl. destruct (sel _); sublist_solve.
  - unfold select. simpl. destruct (sel _); sublist_solve.
  - rewrite select_Element. simpl refs.
    assert (H : sublist (select_of sel cs) (flat_map refs cs)).
    { induction IH as [| c cs Hc Hcs IHcs]; simpl; [constructor |].
      apply sublist_app; assumption. }
    destruct (sel _); simpl; constructor; assumption.
Qed.

Lemma descendants_or_self_plug d n :
  In n (descendants_or_self d) -> exists p, plug p n = d.
Proof.
  induction d as [i s | i a | i t a cs IH] using node_induction; simpl.
  - intros [<- | []]. exists []. reflexivity.
  - intros [<- | []]. exists []. reflexivity.
  - intros [<- | H]; [exists []; reflexivity |].
    rewrite in_flat_map in H. destruct H as (c & Hc & Hn).
    rewrite Forall_forall in IH. destruct (IH c Hc Hn) as [q Hq].
    apply in_split in Hc. destruct Hc as (l & r & ->).
    exists (q ++ [Frame i t a l r]). rewrite plug_app, Hq. reflexivity.
Qed.

Lemma select_locate sel d x :
  NoDup (refs d) -> In x (select sel d) ->
  exists p n, locate x d = Some (p, n) /\ sel n = true.
Proof.
  intros H Hx. unfold select in Hx. rewrite in_map_iff in Hx.
  destruct Hx as (n & <- & Hn). rewrite filter_In in Hn. destruct Hn as [Hn Hs].
  apply descendants_or_self_plug in Hn. destruct Hn as [p <-].
  exists p, n. split; [apply locate_plug; assumption | assumption].
Qed.

Lemma select_querySelectorAll sel d :
  sel d = false -> map node_ref (querySelectorAll sel d) = select sel d.
Proof.
  intros H. unfold querySelectorAll, descendants, select.
  destruct d as [i s | i a | i t a cs]; simpl; rewrite H; reflexivity.
Qed.

Lemma select_Br sel i a : select sel (Br i a) = if sel (Br i a) then [i] else [].
Proof. unfold select. simpl. destruct (sel (Br i a)); reflexivity. Qed.

Lemma isBr_inv b : isBr b = true -> exists i a, b = Br i a.
Proof. destruct b; try discriminate. eauto. Qed.

(** ** The trailing-removal step *)

Lemma removeTrailingBr_located x d p b :
  locate x d = Some (p, b) ->
  removeTrailingBr x d = if strips p b then remove x d else d.
Proof.
  intros L. unfold removeTrailingBr, dataset_ckeFiller, closest, isAtNodeEnd, strips.
  rewrite L. destruct (ckeFiller b); [reflexivity |]. simpl.
  destruct (find matches_p_td (inclusive_ancestors p b)) as [c |]; [| reflexivity].
  destruct (at_node_end p (node_ref c)); reflexivity.
Qed.

(** ** One marker of [normalizeBr] *)

Lemma last_cons_nonempty {A : Type} (a : A) l d : l <> [] -> last (a :: l) d = last l d.
Proof. destruct l; [congruence | reflexivity]. Qed.

Lemma last_default {A : Type} (l : list A) d d' : l <> [] -> last l d = last l d'.
Proof.
  induction l as [| a l IH]; [congruence |]. intros _.
  destruct l as [| b l]; [reflexivity |].
  rewrite !(last_cons_nonempty a) by discriminate. apply IH. discriminate.
Qed.

Lemma plug_root p n d :
  p <> [] ->
  exists cs, plug p n =
             Element (f_ref (last p d)) (f_tag (last p d)) (f_attrs (last p d)) cs.
Proof.
  revert n. induction p as [| f p IH]; intros n Hp; [congruence |].
  destruct p as [| g p].
  - eexists. reflexivity.
  - rewrite plug_cons, last_cons_nonempty by discriminate. apply IH. discriminate.
Qed.

Lemma is_container_plug p n d :
  p <> [] -> is_container (plug p n) = negb (isInlineWrapper (f_tag (last p d))).
Proof. intros Hp. destruct (plug_root p n d Hp) as [cs ->]. reflexivity. Qed.

Lemma unwrapped_cons2 f g p :
  unwrapped (f :: g :: p) =
  if alone f && isInlineWrapper (f_tag f) then unwrapped (g :: p) else f :: g :: p.
Proof. reflexivity. Qed.

Lemma unwrapped_nonempty p : p <> [] -> unwrapped p <> [].
Proof.
  induction p as [| f p IH]; [congruence |]. intros _.
  destruct p as [| g p]; [discriminate |].
  rewrite unwrapped_cons2. destruct (alone f && isInlineWrapper (f_tag f)); [| discriminate].
  apply IH. discriminate.
Qed.

Lemma unwrapped_last p d : last (unwrapped p) d = last p d.
Proof.
  induction p as [| f p IH]; [reflexivity |].
  destruct p as [| g p]; [reflexivity |].
  rewrite unwrapped_cons2. destruct (alone f && isInlineWrapper (f_tag f)); [| reflexivity].
  rewrite IH. rewrite (last_cons_nonempty f) by discriminate. reflexivity.
Qed.

Lemma refs_unwrapped_sublist p n :
  sublist (refs (plug (unwrapped p) n)) (refs (plug p n)).
Proof.
  induction p as [| f p IH]; [apply sublist_refl |].
  destruct p as [| g p]; [apply sublist_refl |].
  rewrite unwrapped_cons2. destruct (alone f && isInlineWrapper (f_tag f)); [| apply sublist_refl].
  eapply sublist_trans; [exact IH | apply refs_pop_sublist].
Qed.

Lemma select_unwrapped sel p n :
  leaf_selector sel ->
  select sel (plug (unwrapped p) n) = select sel (plug p n).
Proof.
  intros H. induction p as [| f p IH]; [reflexivity |].
  destruct p as [| g p]; [reflexivity |].
  rewrite unwrapped_cons2. destruct (alone f && isInlineWrapper (f_tag f)) eqn:E; [| reflexivity].
  rewrite IH. apply andb_prop in E. destruct E as [E _].
  apply alone_inv in E. destruct E as [Eb Ea].
  rewrite !select_plug by assumption. cbn [select_before select_after].
  rewrite Eb, Ea. simpl. rewrite app_nil_r. reflexivity.
Qed.

Lemma fillers_kept_refl d : fillers_kept d d.
Proof. split; auto. Qed.

Lemma fillers_kept_trans d1 d2 d3 :
  fillers_kept d1 d2 -> fillers_kept d2 d3 -> fillers_kept d1 d3.
Proof. intros [A1 B1] [A2 B2]. split; [congruence | auto]. Qed.

Lemma filler_parents_Element i t a cs :
  filler_parents (Element i t a cs) = filler_parents_of i t cs.
Proof. reflexivity. Qed.

Lemma filler_parents_of_app par t l1 l2 :
  filler_parents_of par t (l1 ++ l2) = filler_parents_of par t l1 ++ filler_parents_of par t l2.
Proof. apply flat_map_app. Qed.

Lemma filler_parents_fill f n :
  filler_parents (fill f n) =
  filler_parents_of (f_ref f) (f_tag f) (f_before f) ++
  own_parent (f_ref f) (f_tag f) n ++ filler_parents n ++
  filler_parents_of (f_ref f) (f_tag f) (f_after f).
Proof.
  unfold fill. rewrite filler_parents_Element, filler_parents_of_app. simpl.
  rewrite <- !app_assoc. reflexivity.
Qed.

Lemma filler_parents_close f :
  filler_parents (close f) =
  filler_parents_of (f_ref f) (f_tag f) (f_before f) ++
  filler_parents_of (f_ref f) (f_tag f) (f_after f).
Proof. unfold close. rewrite filler_parents_Element. apply filler_parents_of_app. Qed.

Lemma filler_parents_plug p :
  forall f n,
    filler_parents (plug (f :: p) n) =
    parents_before (f :: p) ++ own_parent (f_ref f) (f_tag f) n ++
    filler_parents n ++ parents_after (f :: p).
Proof.
  induction p as [| g p IH]; intros f n.
  - simpl plug. rewrite filler_parents_fill. simpl. rewrite app_nil_r. reflexivity.
  - rewrite plug_cons, IH, filler_parents_fill.
    cbn [parents_before parents_after]. unfold own_parent at 1. cbn [fill isFiller isBr andb].
    rewrite <- !app_assoc. reflexivity.
Qed.

Lemma fillers_kept_pop f g p b :
  alone f && isInlineWrapper (f_tag f) = true ->
  fillers_kept (plug (f :: g :: p) b) (plug (g :: p) b).
Proof.
  intros H. apply andb_prop in H. destruct H as [Ha Hw].
  apply alone_inv in Ha. destruct Ha as [Eb Ea]. split.
  - rewrite !select_plug by apply leaf_selector_isFiller.
    cbn [select_before select_after]. rewrite Eb, Ea. simpl. rewrite app_nil_r. reflexivity.
  - intros x par t. rewrite !filler_parents_plug.
    cbn [parents_before parents_after]. rewrite Eb, Ea.
    cbn [filler_parents_of flat_map]. rewrite app_nil_r. simpl app.
    rewrite !in_app_iff. intros [H | [H | H]] Ht; auto.
    unfold own_parent in H. destruct (isFiller b); [| contradiction].
    destruct H as [H | []]. inversion H; subst. congruence.
Qed.

Lemma fillers_kept_unwrapped p b : fillers_kept (plug p b) (plug (unwrapped p) b).
Proof.
  induction p as [| f p IH]; [apply fillers_kept_refl |].
  destruct p as [| g p]; [apply fillers_kept_refl |].
  rewrite unwrapped_cons2.
  destruct (alone f && isInlineWrapper (f_tag f)) eqn:E; [| apply fillers_kept_refl].
  eapply fillers_kept_trans; [apply fillers_kept_pop; exact E | exact IH].
Qed.

(** Taking out a node that neither is nor holds a filler marker. *)
Lemma fillers_kept_close f q n :
  isFiller n = false -> select isFiller n = [] -> filler_parents n = [] ->
  fillers_kept (plug (f :: q) n) (plug q (close f)).
Proof.
  intros Hn Hs Hp. split.
  - rewrite plug_cons, !select_plug by apply leaf_selector_isFiller.
    rewrite select_fill, select_close by apply leaf_selector_isFiller.
    rewrite Hs. reflexivity.
  - intros x par t. rewrite filler_parents_plug. unfold own_parent. rewrite Hn, Hp.
    simpl app. intros H _. revert H.
    destruct q as [| g q].
    + simpl plug. rewrite filler_parents_close. simpl. rewrite app_nil_r. auto.
    + rewrite filler_parents_plug, filler_parents_close.
      unfold own_parent. cbn [close isFiller isBr andb parents_before parents_after].
      rewrite !in_app_iff. simpl. tauto.
Qed.

(** What processing one attached marker does to the tree. *)
(** ** Every mutation takes nodes out *)

Lemma sublist_length {A : Type} (l' l : list A) : sublist l' l -> length l' <= length l.
Proof. intros H. induction H; simpl; lia. Qed.

Lemma refs_nonempty n : 1 <= length (refs n).
Proof. rewrite refs_head. simpl. lia. Qed.

Lemma nodeCount_pop f p n : nodeCount (plug p n) < nodeCount (plug (f :: p) n).
Proof.
  unfold nodeCount. rewrite plug_cons, !refs_plug, refs_fill.
  rewrite !length_app. simpl. rewrite !length_app. lia.
Qed.

Lemma nodeCount_close f p n : nodeCount (plug p (close f)) < nodeCount (plug (f :: p) n).
Proof.
  unfold nodeCount. rewrite plug_cons, !refs_plug, refs_fill. unfold close. simpl refs.
  fold (refs_of (f_before f ++ f_after f)). rewrite refs_of_app.
  assert (H := refs_nonempty n).
  rewrite !length_app. simpl. rewrite !length_app. lia.
Qed.

Lemma nodeCount_remove d x f q n :
  NoDup (refs d) -> locate x d = Some (f :: q, n) -> nodeCount (remove x d) < nodeCount d.
Proof.
  intros Hnd L. rewrite (remove_located _ _ _ _ _ Hnd L).
  destruct (locate_sound _ _ _ _ L) as [<- _]. apply nodeCount_close.
Qed.

Lemma nodeCount_unwrapped p b :
  nodeCount (plug (unwrapped p) b) <= nodeCount (plug p b).
Proof. apply sublist_length, refs_unwrapped_sublist. Qed.

Lemma unwrappable_located x d f q n :
  locate x d = Some (f :: q, n) ->
  unwrappable x d = alone f && isInlineWrapper (f_tag f).
Proof.
  intros L. unfold unwrappable. rewrite (has_sibling_alone _ _ _ _ _ L), negb_involutive.
  unfold parentElement. rewrite L. reflexivity.
Qed.

Lemma trailing_located x d p n : locate x d = Some (p, n) -> trailing x d = strips p n.
Proof.
  intros L. unfold trailing, strips, dataset_ckeFiller, closest, isAtNodeEnd.
  rewrite L. reflexivity.
Qed.

Lemma unwrapped_id f q :
  alone f && isInlineWrapper (f_tag f) = false -> unwrapped (f :: q) = f :: q.
Proof. intros H. destruct q as [| g q]; [reflexivity |]. rewrite unwrapped_cons2, H. reflexivity. Qed.

Lemma forEach_app {A : Type} (f : A -> node -> result node) l1 l2 d :
  forEach f (l1 ++ l2) d = (d1 <- forEach f l1 d ;; forEach f l2 d1).
Proof.
  revert d. induction l1 as [| x l1 IH]; intros d; [reflexivity |].
  simpl. destruct (f x d) as [d1 | e |]; simpl; [apply IH | reflexivity | reflexivity].
Qed.

Lemma forallb_first_false {A : Type} (P : A -> bool) l :
  forallb P l = false ->
  exists l1 x l2, l = l1 ++ x :: l2 /\ forallb P l1 = true /\ P x = false.
Proof.
  induction l as [| a l IH]; [discriminate |]. simpl.
  destruct (P a) eqn:E.
  - intros H. destruct (IH H) as (l1 & x & l2 & -> & H1 & Hx).
    exists (a :: l1), x, l2. simpl. rewrite E. auto.
  - intros _. exists [], a, l. auto.
Qed.

Lemma forEach_fixed {A : Type} (f : A -> node -> result node) l d :
  (forall x, In x l -> f x d = Ok d) -> forEach f l d = Ok d.
Proof.
  induction l as [| x l IH]; intros H; [reflexivity |].
  simpl. rewrite (H x (or_introl eq_refl)). simpl. apply IH.
  intros y Hy. apply H. right. assumption.
Qed.

Lemma removeTrailingBr_trailing x d :
  removeTrailingBr x d = if trailing x d then remove x d else d.
Proof.
  unfold removeTrailingBr, trailing.
  destruct (dataset_ckeFiller x d); [reflexivity |]. simpl.
  destruct (closest matches_p_td x d) as [c |]; [| reflexivity].
  destruct (isAtNodeEnd x (node_ref c) d); reflexivity.
Qed.

(** A marker with nothing to unwrap and nothing to strip is passed over. *)
Lemma brStep_at_rest x d f q b :
  locate x d = Some (f :: q, b) ->
  unwrappable x d = false -> trailing x d = false ->
  brStep x d = Ok d.
Proof.
  intros L Hu Ht. unfold brStep.
  assert (U : unwrapBr (nodeCount d) x d = Ok d).
  { assert (H := refs_nonempty d). unfold nodeCount.
    destruct (length (refs d)) as [| k]; [lia |]. cbn [unwrapBr].
    unfold unwrappable in Hu.
    destruct (isSome (previousSibling x d) || isSome (nextSibling x d)); [reflexivity |].
    simpl in Hu. unfold parentElement in *. rewrite L in *. rewrite Hu. reflexivity. }
  rewrite U. cbn [bind]. rewrite removeTrailingBr_trailing, Ht. reflexivity.
Qed.

Lemma brStep_spec x d p b :
  well_formed d -> is_container d = true ->
  locate x d = Some (p, b) -> isBr b = true ->
  exists d',
    brStep x d = Ok d' /\
    sublist (refs d') (refs d) /\
    is_container d' = true /\
    fillers_kept d d' /\
    (forall y, y <> x -> In y (select isBr d) -> In y (select isBr d')) /\
    (unwrappable x d || trailing x d = true -> nodeCount d' < nodeCount d).
Proof.
  intros Hwf Hroot L Hb.
  assert (Hnd := well_formed_NoDup _ Hwf).
  rewrite (trailing_located _ _ _ _ L).
  destruct (locate_sound _ _ _ _ L) as [Ed Ex]. subst d x.
  apply isBr_inv in Hb. destruct Hb as (i & a & ->).
  assert (Hp : p <> []) by (intros ->; discriminate).
  assert (Hd : exists f0 q0, p = f0 :: q0) by (destruct p; [congruence | eauto]).
  destruct Hd as (f0 & q0 & Ep).
  assert (Hu : unwrappable (node_ref (Br i a)) (plug p (Br i a))
               = alone f0 && isInlineWrapper (f_tag f0)).
  { apply (unwrappable_located _ _ f0 q0 (Br i a)). rewrite <- Ep. exact L. }
  rewrite Hu. clear Hu.
  assert (Hlast : isInlineWrapper (f_tag (last p f0)) = false).
  { rewrite (is_container_plug p _ f0) in Hroot by assumption.
    apply negb_true_iff in Hroot. exact Hroot. }
  assert (Hfuel : length p <= nodeCount (plug p (Br i a))).
  { unfold nodeCount. rewrite refs_plug, !length_app.
    assert (length p <= length (refs_before p)); [| lia].
    clear. induction p as [| f p IH]; simpl; [lia |].
    rewrite length_app. simpl. lia. }
  unfold brStep. rewrite unwrapBr_plug; try assumption.
  2:{ intros f. rewrite (last_default p f f0) by assumption. exact Hlast. }
  cbn [bind].
  assert (Hq := unwrapped_nonempty p Hp).
  assert (Hsub := refs_unwrapped_sublist p (Br i a)).
  assert (Hcount := nodeCount_unwrapped p (Br i a)).
  assert (Hnd1 : NoDup (refs (plug (unwrapped p) (Br i a))))
    by (eapply sublist_NoDup; eassumption).
  assert (Hroot1 : is_container (plug (unwrapped p) (Br i a)) = true).
  { rewrite (is_container_plug _ _ f0), unwrapped_last, Hlast by assumption. reflexivity. }
  rewrite (removeTrailingBr_located _ _ (unwrapped p) (Br i a))
    by (apply (locate_plug _ (Br i a)); assumption).
  destruct (strips (unwrapped p) (Br i a)) eqn:Es.
  - destruct (unwrapped p) as [| f q] eqn:Eq; [congruence |].
    change i with (node_ref (Br i a)) at 1. rewrite remove_plug by assumption.
    eexists. split; [reflexivity |].
    split; [eapply sublist_trans; [apply refs_close_sublist | exact Hsub] |].
    split.
    { destruct q as [| g q]; [exact Hroot1 |].
      rewrite (is_container_plug _ _ f0) by discriminate.
      rewrite (is_container_plug _ _ f0) in Hroot1 by discriminate.
      rewrite (last_cons_nonempty f) in Hroot1 by discriminate. exact Hroot1. }
    unfold strips in Es. apply andb_prop in Es. destruct Es as [Ec _].
    apply negb_true_iff in Ec.
    assert (Hnf : isFiller (Br i a) = false) by (unfold isFiller; rewrite Ec; reflexivity).
    split; [| split].
    + eapply fillers_kept_trans; [apply fillers_kept_unwrapped |].
      rewrite Eq. apply fillers_kept_close; [assumption | | reflexivity].
      rewrite select_Br, Hnf. reflexivity.
    + intros y Hy.
      rewrite <- (select_unwrapped isBr p) by apply leaf_selector_isBr.
      rewrite Eq, plug_cons, !select_plug by apply leaf_selector_isBr.
      rewrite select_fill, select_close by apply leaf_selector_isBr.
      rewrite select_Br. simpl in *. rewrite !in_app_iff. simpl. intuition congruence.
    + intros _. assert (H := nodeCount_close f q (Br i a)). lia.
  - eexists. split; [reflexivity |].
    split; [exact Hsub |]. split; [exact Hroot1 |].
    split; [apply fillers_kept_unwrapped |].
    split; [intros y _; rewrite select_unwrapped by apply leaf_selector_isBr; auto |].
    intros H. subst p.
    destruct (alone f0 && isInlineWrapper (f_tag f0)) eqn:Ew.
    + destruct q0 as [| g q0].
      { simpl in Hlast. apply andb_prop in Ew. destruct Ew. congruence. }
      rewrite unwrapped_cons2, Ew.
      assert (H1 := nodeCount_unwrapped (g :: q0) (Br i a)).
      assert (H2 := nodeCount_pop f0 (g :: q0) (Br i a)). lia.
    + rewrite (unwrapped_id f0 q0 Ew) in Es. simpl in H. congruence.
Qed.

(** ** The whole of [normalizeBr] *)

Lemma normalizeBr_forEach d :
  normalizeBr d = forEach brStep (map node_ref (querySelectorAll isBr d)) d.
Proof. reflexivity. Qed.

Lemma forEach_brStep l d :
  well_formed d -> is_container d = true -> NoDup l ->
  (forall x, In x l -> In x (select isBr d)) ->
  exists d',
    forEach brStep l d = Ok d' /\
    sublist (refs d') (refs d) /\
    is_container d' = true /\
    fillers_kept d d'.
Proof.
  revert d. induction l as [| x l IH]; intros d Hwf Hroot Hl Hin.
  - exists d. simpl. auto using sublist_refl, fillers_kept_refl.
  - inversion Hl as [| ? ? Hx Hl']; subst.
    destruct (select_locate isBr d x (well_formed_NoDup _ Hwf) (Hin x (or_introl eq_refl)))
      as (p & b & L & Hb).
    destruct (brStep_spec x d p b Hwf Hroot L Hb) as (d1 & E1 & S1 & R1 & F1 & B1 & _).
    destruct (IH d1) as (d' & E' & S' & R' & F').
    + eapply ordered_sublist; eassumption.
    + assumption.
    + assumption.
    + intros y Hy. apply B1; [intros ->; contradiction | apply Hin; right; assumption].
    + exists d'. cbn [forEach]. rewrite E1. cbn [bind].
      split; [assumption |]. split; [eapply sublist_trans; eassumption |].
      split; [assumption | eapply fillers_kept_trans; eassumption].
Qed.

Lemma is_container_not_br d : is_container d = true -> isBr d = false.
Proof. destruct d; simpl; congruence. Qed.

(** [normalizeBr] always returns; it keeps the document order, the root
    and every filler marker. *)
Lemma normalizeBr_spec d :
  well_formed d -> is_container d = true ->
  exists d',
    normalizeBr d = Ok d' /\
    sublist (refs d') (refs d) /\
    is_container d' = true /\
    fillers_kept d d'.
Proof.
  intros Hwf Hroot. rewrite normalizeBr_forEach.
  rewrite select_querySelectorAll by (apply is_container_not_br; assumption).
  apply forEach_brStep; try assumption; [| auto].
  eapply sublist_NoDup; [apply select_sublist | apply well_formed_NoDup; assumption].
Qed.

(** ** Fresh trees *)

Lemma html_induction (P : html -> Prop) :
  (forall s, P (HText s)) ->
  (forall a, P (HBr a)) ->
  (forall t a cs, Forall P cs -> P (HElement t a cs)) ->
  forall h, P h.
Proof.
  intros HT HB HE.
  fix IH 1.
  intros [s | a | t a cs].
  - apply HT.
  - apply HB.
  - apply HE. induction cs as [| c cs IHcs]; constructor; [apply IH | exact IHcs].
Qed.

Lemma createNode_Element next t a cs :
  createNode next (HElement t a cs) = Element next t a (createNodes (S next) cs).
Proof. reflexivity. Qed.

Lemma refs_createNode h : forall next, refs (createNode next h) = seq next (html_size h).
Proof.
  induction h as [s | a | t a cs IH] using html_induction; intros next;
    [reflexivity | reflexivity |].
  rewrite createNode_Element. simpl. f_equal.
  generalize (S next) as k.
  induction IH as [| c cs Hc Hcs IHcs]; intros k; [reflexivity |].
  simpl. rewrite Hc, IHcs, seq_app. reflexivity.
Qed.

Lemma refs_createNodes cs next :
  refs_of (createNodes next cs) = seq next (list_sum (map html_size cs)).
Proof.
  revert next. induction cs as [| c cs IH]; intros next; [reflexivity |].
  simpl. rewrite refs_createNode, IH, seq_app. reflexivity.
Qed.

Lemma ordered_seq k n : ordered (seq k n).
Proof.
  revert k. induction n as [| n IH]; intros k; simpl; [apply ordered_nil |].
  apply ordered_cons. split; [| apply IH].
  intros b Hb. apply in_seq in Hb. lia.
Qed.

Lemma well_formed_createDiv v : well_formed (createDiv v).
Proof.
  unfold well_formed, createDiv. simpl. fold (refs_of (createNodes 1 v)).
  rewrite refs_createNodes. apply (ordered_seq 0 (S _)).
Qed.

Lemma serialize_createNode h : forall next, serialize (createNode next h) = h.
Proof.
  induction h as [s | a | t a cs IH] using html_induction; intros next;
    [reflexivity | reflexivity |].
  rewrite createNode_Element. simpl. f_equal.
  generalize (S next) as k.
  induction IH as [| c cs Hc Hcs IHcs]; intros k; [reflexivity |].
  simpl. rewrite Hc, IHcs. reflexivity.
Qed.

Lemma innerHTML_createDiv v : innerHTML (createDiv v) = v.
Proof.
  unfold innerHTML, createDiv. simpl. generalize 1 as k.
  induction v as [| c v IH]; intros k; [reflexivity |].
  simpl. rewrite serialize_createNode, IH. reflexivity.
Qed.

(** ** The reducer, as it runs

    The candidate stays [paragraphs[i]] while the inner loop looks ahead, so
    the loop can only ever see whether the next entry of the list follows the
    candidate: the entries are taken in pairs. *)

Lemma same_node_injective o x y : same_node o x = true -> same_node o y = true -> x = y.
Proof.
  destruct o as [n |]; simpl; [| discriminate].
  rewrite !Nat.eqb_eq. congruence.
Qed.

Lemma nth_error_skipn {A : Type} (l : list A) i c :
  nth_error l i = Some c -> skipn i l = c :: skipn (S i) l.
Proof.
  revert i. induction l as [| a l IH]; intros [| i] H; simpl in *; try discriminate.
  - congruence.
  - apply IH. exact H.
Qed.

Lemma adjacentOffset_two fuel paragraphs d candidate i :
  NoDup paragraphs -> 2 <= fuel ->
  adjacentOffset fuel paragraphs d candidate i 0 =
  Ok match nth_error paragraphs (i + 1) with
     | Some next => if adjacent d candidate next then 1 else 0
     | None => 0
     end.
Proof.
  intros Hnd Hfuel. destruct fuel as [| [| fuel]]; [lia | lia |].
  cbn [adjacentOffset]. rewrite !Nat.add_0_r.
  destruct (i + 1 <? length paragraphs) eqn:E1.
  - apply Nat.ltb_lt in E1.
    destruct (nth_error paragraphs (i + 1)) as [next |] eqn:N1.
    2:{ apply nth_error_None in N1. lia. }
    fold (adjacent d candidate next).
    destruct (adjacent d candidate next) eqn:A1; [| reflexivity]. simpl negb. cbn iota.
    destruct (i + (0 + 1) + 1 <? length paragraphs) eqn:E2; [| reflexivity].
    destruct (nth_error paragraphs (i + (0 + 1) + 1)) as [next2 |] eqn:N2; [| reflexivity].
    fold (adjacent d candidate next2).
    destruct (adjacent d candidate next2) eqn:A2; [| reflexivity].
    exfalso. assert (next = next2) by (eapply same_node_injective; eassumption). subst.
    rewrite NoDup_nth_error in Hnd. specialize (Hnd (i + 1) (i + (0 + 1) + 1) E1).
    rewrite N1, N2 in Hnd. specialize (Hnd eq_refl). lia.
  - apply Nat.ltb_ge in E1.
    destruct (nth_error paragraphs (i + 1)) as [next |] eqn:N1; [| reflexivity].
    assert (nth_error paragraphs (i + 1) <> None) by congruence.
    apply nth_error_Some in H. lia.
Qed.

Lemma adjacentOffset_le_1 fuel paragraphs d candidate i offset :
  NoDup paragraphs ->
  adjacentOffset fuel paragraphs d candidate i 0 = Ok offset -> offset <= 1.
Proof.
  intros Hnd H. destruct fuel as [| [| fuel]].
  - discriminate.
  - cbn [adjacentOffset] in H.
    destruct (i + 0 + 1 <? length paragraphs); [| inversion H; lia].
    destruct (nth_error paragraphs (i + 0 + 1)); [| inversion H; lia].
    destruct (negb _); [inversion H; lia | discriminate].
  - rewrite adjacentOffset_two in H by (assumption || lia). inversion H; subst.
    destruct (nth_error paragraphs (i + 1)); [| lia].
    destruct (adjacent d candidate r); lia.
Qed.

Lemma reduceFrom_pairs paragraphs :
  NoDup paragraphs ->
  forall fuel i d,
    length paragraphs - i < fuel ->
    reduceFrom fuel paragraphs i d = Ok (reducePairs (skipn i paragraphs) d).
Proof.
  intros Hnd. induction fuel as [| fuel IH]; intros i d Hfuel; [lia |].
  cbn [reduceFrom].
  destruct (i <? length paragraphs) eqn:Ei.
  - apply Nat.ltb_lt in Ei.
    destruct (nth_error paragraphs i) as [candidate |] eqn:Ni.
    2:{ apply nth_error_None in Ni. lia. }
    rewrite (nth_error_skipn _ _ _ Ni).
    rewrite adjacentOffset_two by (assumption || lia). cbn [bind].
    replace (S i) with (i + 1) by lia.
    destruct (nth_error paragraphs (i + 1)) as [next |] eqn:N1.
    + rewrite (nth_error_skipn _ _ _ N1). cbn [reducePairs].
      destruct (adjacent d candidate next) eqn:A.
      * change (1 =? 0) with false. cbv iota.
        change (1 mod 2 =? 1) with true. cbv iota zeta.
        change (ceil_half 1) with 1. unfold slice.
        replace (i + 1 - i) with 1 by lia.
        rewrite (nth_error_skipn _ _ _ Ni). cbn [firstn removeAll fold_left].
        rewrite IH by lia. replace (i + 1 + 1) with (S (i + 1)) by lia. reflexivity.
      * change (0 =? 0) with true. cbv iota.
        rewrite IH by lia. rewrite (nth_error_skipn _ _ _ N1). reflexivity.
    + change (0 =? 0) with true. cbv iota. rewrite IH by lia.
      apply nth_error_None in N1. rewrite (skipn_all2 paragraphs) by lia.
      reflexivity.
  - apply Nat.ltb_ge in Ei. rewrite skipn_all2 by lia. reflexivity.
Qed.

Lemma reduceSpacerParagraphs_pairs paragraphs d :
  NoDup paragraphs ->
  reduceSpacerParagraphs paragraphs d = Ok (reducePairs paragraphs d).
Proof.
  intros Hnd. unfold reduceSpacerParagraphs.
  destruct (length paragraphs =? 0) eqn:E.
  - apply Nat.eqb_eq in E. destruct paragraphs; [reflexivity | discriminate].
  - rewrite (reduceFrom_pairs paragraphs Hnd) by lia. reflexivity.
Qed.

(** ** Removing a node next to another one *)

Lemma refs_remove_sublist r d : sublist (refs (remove r d)) (refs d).
Proof.
  induction d as [i s | i a | i t a cs IH] using node_induction;
    [apply sublist_refl | apply sublist_refl |].
  rewrite remove_Element. simpl. apply sublist_keep.
  induction IH as [| c cs Hc Hcs IHcs]; [constructor |].
  change (remove_list r (c :: cs)) with
    ((if node_ref c =? r then [] else [remove r c]) ++ remove_list r cs).
  rewrite flat_map_app. simpl.
  apply sublist_app; [| exact IHcs].
  destruct (node_ref c =? r); simpl; [apply sublist_nil_l |].
  rewrite app_nil_r. exact Hc.
Qed.

Lemma node_ref_plug p n d :
  node_ref (plug p n) = match p with [] => node_ref n | _ => f_ref (last p d) end.
Proof.
  destruct p as [| f p]; [reflexivity |].
  destruct (plug_root (f :: p) n d) as [cs ->]; [discriminate | reflexivity].
Qed.

Lemma in_map_last {A B : Type} (g : A -> B) (l : list A) d :
  l <> [] -> In (g (last l d)) (map g l).
Proof.
  induction l as [| a l IH]; [congruence |]. intros _.
  destruct l as [| b l]; [left; reflexivity |].
  right. apply IH. discriminate.
Qed.

(** A node that is neither inside the removed subtree nor the removed node
    itself stays where it is; only its ancestors' child lists may shrink. *)
Lemma locate_remove r x d :
  forall p n,
    locate x d = Some (p, n) ->
    ~ In r (refs n) -> ~ In r (map f_ref p) ->
    locate x (remove r d) = Some (map (remove_frame r) p, n).
Proof.
  induction d as [i s | i a | i t a cs IH] using node_induction; intros p n L Hn Hp.
  - simpl in *. destruct (i =? x); [| discriminate]. inversion L; subst. reflexivity.
  - simpl in *. destruct (i =? x); [| discriminate]. inversion L; subst. reflexivity.
  - rewrite locate_Element in L. destruct (i =? x) eqn:E.
    + inversion L; subst. rewrite remove_absent.
      * simpl. rewrite E. reflexivity.
      * intros H. apply Hn. simpl. right. exact H.
    + apply locate_in_Some in L.
      destruct L as (q & l & c & rr & -> & -> & Lc & Hl). simpl app in *.
      rewrite map_app, in_app_iff in Hp. simpl in Hp.
      assert (Hc : node_ref c <> r).
      { destruct (locate_sound _ _ _ _ Lc) as [<- Hx].
        rewrite (node_ref_plug q n (Frame 0 "" [] [] [])).
        destruct q as [| f q].
        - intros <-. apply Hn, node_ref_in_refs.
        - intros Hr. apply Hp. left. rewrite <- Hr. apply in_map_last. discriminate. }
      rewrite remove_Element, remove_list_app.
      change (remove_list r (c :: rr)) with
        ((if node_ref c =? r then [] else [remove r c]) ++ remove_list r rr).
      apply Nat.eqb_neq in Hc. rewrite Hc. simpl app.
      rewrite locate_Element, E.
      rewrite (locate_in_intro _ i t a [] (remove_list r l) (remove r c)
                 (remove_list r rr) (map (remove_frame r) q) n).
      * rewrite map_app. reflexivity.
      * rewrite Forall_forall in *. intros c' Hc'.
        unfold remove_list in Hc'. rewrite in_flat_map in Hc'.
        destruct Hc' as (c0 & Hc0 & Hin).
        destruct (node_ref c0 =? r); [contradiction |].
        destruct Hin as [<- | []].
        apply locate_None. intros Hx.
        apply (sublist_In _ _ _ (refs_remove_sublist r c0)) in Hx.
        apply (proj1 (locate_None x c0)); auto.
      * rewrite Forall_forall in IH. apply IH; [apply in_elt | assumption | tauto | tauto].
Qed.

(** ** Spacer paragraphs in the tree *)

Lemma refs_leaf c : is_leaf c = true -> refs c = [node_ref c].
Proof. destruct c; simpl; congruence. Qed.

Lemma flat_not_ancestor d r pr nr x p n :
  NoDup (refs d) ->
  locate r d = Some (pr, nr) -> flat nr = true ->
  locate x d = Some (p, n) -> is_leaf n = false ->
  ~ In r (map f_ref p).
Proof.
  intros Hnd Lr Hflat Lx Hleaf Hin.
  rewrite in_map_iff in Hin. destruct Hin as (g & Hg & Hin).
  apply in_split in Hin. destruct Hin as (p1 & p2 & ->).
  destruct (locate_sound _ _ _ _ Lx) as [Ed _].
  rewrite plug_app, plug_cons in Ed. subst d.
  assert (L := locate_plug p2 (fill g (plug p1 n)) Hnd).
  simpl node_ref in L. rewrite Hg, Lr in L. inversion L; subst.
  unfold flat, fill in Hflat. simpl in Hflat.
  rewrite forallb_app in Hflat. simpl in Hflat.
  apply andb_prop in Hflat. destruct Hflat as [_ Hflat].
  apply andb_prop in Hflat. destruct Hflat as [Hflat _].
  destruct p1 as [| f p1]; [simpl in Hflat; congruence |].
  destruct (plug_root (f :: p1) n f) as [cs E]; [discriminate |].
  rewrite E in Hflat. discriminate.
Qed.

Lemma flat_not_inside d r pr nr x p n :
  NoDup (refs d) ->
  locate r d = Some (pr, nr) -> is_leaf nr = false ->
  locate x d = Some (p, n) -> flat n = true ->
  x <> r -> ~ In r (refs n).
Proof.
  intros Hnd Lr Hleaf Lx Hflat Hxr Hin.
  destruct (locate_sound _ _ _ _ Lx) as [Ed Ex].
  rewrite refs_head in Hin. destruct Hin as [Hin | Hin]; [congruence |].
  unfold refs_of in Hin. rewrite in_flat_map in Hin. destruct Hin as (c & Hc & Hin).
  assert (Hcl : is_leaf c = true).
  { unfold flat in Hflat. rewrite forallb_forall in Hflat. auto. }
  rewrite (refs_leaf c Hcl) in Hin. destruct Hin as [Hr | []].
  destruct n as [i s | i a | i t a cs]; try contradiction.
  simpl in Hc. apply in_split in Hc. destruct Hc as (l & rr & ->).
  subst d.
  assert (L : locate (node_ref c) (plug p (Element i t a (l ++ c :: rr))) =
              Some (Frame i t a l rr :: p, c))
    by (apply (locate_plug (Frame i t a l rr :: p) c); exact Hnd).
  rewrite Hr, Lr in L. inversion L; subst. congruence.
Qed.

Lemma isPossibleSpacer_children n :
  isPossibleSpacer n = true ->
  forall c, In c (childNodes n) -> is_leaf c = true /\ isFiller c = false.
Proof.
  unfold isPossibleSpacer, childElementCount, children. intros H c Hc.
  destruct (filter isElement (childNodes n)) as [| b [| b' l]] eqn:E; try discriminate.
  simpl in H. apply andb_prop in H. destruct H as [Hb Hf].
  destruct (isElement c) eqn:Ec.
  - assert (Hin : In c (filter isElement (childNodes n))) by (apply filter_In; auto).
    rewrite E in Hin. destruct Hin as [<- | []].
    destruct b; try discriminate. unfold isFiller. simpl.
    apply negb_true_iff in Hf. auto.
  - destruct c; try discriminate. auto.
Qed.

Lemma spacer_flat n : spacer n = true -> flat n = true /\ is_leaf n = false.
Proof.
  unfold spacer. intros H. apply andb_prop in H. destruct H as [Hp Hs].
  split.
  - unfold flat. apply forallb_forall. intros c Hc.
    apply (isPossibleSpacer_children n Hs c Hc).
  - destruct n; try discriminate. reflexivity.
Qed.

Lemma select_of_leaves sel cs :
  (forall c, In c cs -> is_leaf c = true /\ sel c = false) -> select_of sel cs = [].
Proof.
  induction cs as [| c cs IH]; intros H; [reflexivity |].
  simpl. rewrite IH by (intros c' Hc'; apply H; right; assumption).
  destruct (H c (or_introl eq_refl)) as [Hl Hf].
  destruct c; try discriminate; unfold select; simpl; rewrite Hf; reflexivity.
Qed.

Lemma spacer_no_filler n : spacer n = true -> select isFiller n = [].
Proof.
  unfold spacer. intros H. apply andb_prop in H. destruct H as [Hp Hs].
  destruct n as [i s | i a | i t a cs]; try discriminate.
  rewrite select_Element. simpl.
  apply select_of_leaves. apply (isPossibleSpacer_children _ Hs).
Qed.

Lemma spacer_at_remove d r x :
  NoDup (refs d) -> spacer_at d r -> spacer_at d x -> x <> r ->
  spacer_at (remove r d) x.
Proof.
  intros Hnd (fr & qr & nr & Lr & Sr) (f & q & n & Lx & Sx) Hxr.
  destruct (spacer_flat _ Sr) as [Fr Er]. destruct (spacer_flat _ Sx) as [Fx Ex].
  exists (remove_frame r f), (map (remove_frame r) q), n. split; [| assumption].
  apply (locate_remove r x d (f :: q) n Lx).
  - eapply flat_not_inside; eassumption.
  - eapply flat_not_ancestor; eassumption.
Qed.

Lemma filler_parents_of_leaves par t cs :
  (forall c, In c cs -> is_leaf c = true /\ isFiller c = false) ->
  filler_parents_of par t cs = [].
Proof.
  induction cs as [| c cs IH]; intros H; [reflexivity |].
  simpl. rewrite IH by (intros c' Hc'; apply H; right; assumption).
  destruct (H c (or_introl eq_refl)) as [Hl Hf].
  unfold own_parent. rewrite Hf. destruct c; try discriminate; reflexivity.
Qed.

Lemma spacer_no_filler_parents n : spacer n = true -> filler_parents n = [].
Proof.
  unfold spacer. intros H. apply andb_prop in H. destruct H as [Hp Hs].
  destruct n as [i s | i a | i t a cs]; try discriminate.
  rewrite filler_parents_Element.
  apply filler_parents_of_leaves. apply (isPossibleSpacer_children _ Hs).
Qed.

Lemma remove_spacer_fillers d r :
  NoDup (refs d) -> spacer_at d r -> fillers_kept d (remove r d).
Proof.
  intros Hnd (f & q & n & L & S). rewrite (remove_located _ _ _ _ _ Hnd L).
  destruct (locate_sound _ _ _ _ L) as [<- _].
  apply fillers_kept_close.
  - destruct (spacer_flat n S) as [_ Hl]. destruct n; try discriminate. reflexivity.
  - apply spacer_no_filler. assumption.
  - apply spacer_no_filler_parents. assumption.
Qed.

Lemma is_container_remove r d : is_container (remove r d) = is_container d.
Proof. destruct d; reflexivity. Qed.

(** The reducer only ever takes spacer paragraphs out, whichever it picks. *)
Lemma reducePairs_frame k :
  forall l d,
    length l <= k -> NoDup l -> NoDup (refs d) ->
    (forall r, In r l -> spacer_at d r) ->
    fillers_kept d (reducePairs l d) /\
    sublist (refs (reducePairs l d)) (refs d) /\
    is_container (reducePairs l d) = is_container d.
Proof.
  induction k as [| k IH]; intros l d Hk Hl Hnd Hs.
  - destruct l; [| simpl in Hk; lia]. simpl. auto using sublist_refl, fillers_kept_refl.
  - destruct l as [| first rest]; [simpl; auto using sublist_refl, fillers_kept_refl |].
    assert (Hfirst : spacer_at d first) by (apply Hs; left; reflexivity).
    assert (S1 := refs_remove_sublist first d).
    assert (N1 : NoDup (refs (remove first d))) by (eapply sublist_NoDup; eassumption).
    assert (F1 := remove_spacer_fillers d first Hnd Hfirst).
    inversion Hl as [| ? ? Hx Hl']; subst.
    assert (Hrest : forall r, In r rest -> spacer_at (remove first d) r).
    { intros r Hr. apply spacer_at_remove; auto.
      - apply Hs. right. assumption.
      - intros ->. contradiction. }
    cbn [reducePairs].
    destruct rest as [| second rest'].
    + rewrite is_container_remove. auto.
    + assert (Hgo : forall l', (forall r, In r l' -> In r (second :: rest')) ->
                NoDup l' -> length l' <= k ->
                fillers_kept d (reducePairs l' (remove first d)) /\
                sublist (refs (reducePairs l' (remove first d))) (refs d) /\
                is_container (reducePairs l' (remove first d)) = is_container d).
      { intros l' Hsub Hnd' Hlen.
        destruct (IH l' (remove first d) Hlen Hnd' N1) as (A & B & C).
        - intros r Hr. apply Hrest, Hsub, Hr.
        - split; [eapply fillers_kept_trans; eassumption |].
          split; [eapply sublist_trans; eassumption |].
          rewrite C. apply is_container_remove. }
      inversion Hl' as [| ? ? Hx' Hl'']; subst. simpl in Hk.
      destruct (adjacent d first second).
      * apply Hgo; [intros r Hr; right; assumption | assumption | lia].
      * apply Hgo; [auto | assumption | simpl; lia].
Qed.

(** ** The scanner *)

Lemma descendants_plug d n :
  In n (descendants d) -> exists f p, plug (f :: p) n = d.
Proof.
  destruct d as [i s | i a | i t a cs]; simpl; try contradiction.
  unfold descendants. simpl. rewrite in_flat_map. intros (c & Hc & Hn).
  apply descendants_or_self_plug in Hn. destruct Hn as [q Hq].
  apply in_split in Hc. destruct Hc as (l & r & ->).
  destruct q as [| f q].
  - exists (Frame i t a l r), []. simpl in *. subst. reflexivity.
  - exists f, (q ++ [Frame i t a l r]).
    rewrite <- Hq. exact (plug_app (f :: q) [Frame i t a l r] n).
Qed.

Lemma getPossibleSpacerParagraphs_In d r :
  In r (getPossibleSpacerParagraphs d) <->
  exists n, In n (descendants d) /\ spacer n = true /\ node_ref n = r.
Proof.
  unfold getPossibleSpacerParagraphs, querySelectorAll, spacer.
  rewrite in_map_iff. split.
  - intros (n & Hr & Hn). rewrite !filter_In in Hn. exists n.
    rewrite andb_true_iff. tauto.
  - intros (n & Hn & Hs & Hr). exists n. rewrite !filter_In.
    rewrite andb_true_iff in Hs. tauto.
Qed.

Lemma getPossibleSpacerParagraphs_spacer_at d r :
  NoDup (refs d) -> In r (getPossibleSpacerParagraphs d) -> spacer_at d r.
Proof.
  intros Hnd Hr. apply getPossibleSpacerParagraphs_In in Hr.
  destruct Hr as (n & Hn & Hs & <-).
  apply descendants_plug in Hn. destruct Hn as (f & q & <-).
  exists f, q, n. split; [apply locate_plug; assumption | assumption].
Qed.

Lemma refs_descendants_or_self n : map node_ref (descendants_or_self n) = refs n.
Proof.
  induction n as [i s | i a | i t a cs IH] using node_induction;
    [reflexivity | reflexivity |].
  simpl. f_equal. induction IH as [| c cs Hc Hcs IHcs]; [reflexivity |].
  simpl. rewrite map_app, Hc, IHcs. reflexivity.
Qed.

Lemma refs_descendants d : map node_ref (descendants d) = refs_of (childNodes d).
Proof.
  unfold descendants, refs_of. induction (childNodes d) as [| c cs IH]; [reflexivity |].
  simpl. rewrite map_app, refs_descendants_or_self, IH. reflexivity.
Qed.

Lemma sublist_map_filter {A B : Type} (g : A -> B) (sel : A -> bool) l :
  sublist (map g (filter sel l)) (map g l).
Proof.
  induction l as [| a l IH]; simpl; [constructor |].
  destruct (sel a); simpl; constructor; assumption.
Qed.

Lemma getPossibleSpacerParagraphs_sublist d :
  sublist (getPossibleSpacerParagraphs d) (refs d).
Proof.
  unfold getPossibleSpacerParagraphs, querySelectorAll.
  eapply sublist_trans; [apply sublist_map_filter |].
  eapply sublist_trans; [apply sublist_map_filter |].
  rewrite refs_descendants, refs_head. constructor. apply sublist_refl.
Qed.

(** ** The passes together *)

(** On a fresh tree the passes always return; they keep the root, the
    document order, and every filler marker. *)
Lemma normalizeDiv_spec d :
  well_formed d -> is_container d = true ->
  exists d',
    normalizeDiv d = Ok d' /\
    fillers_kept d d' /\
    sublist (refs d') (refs d) /\
    is_container d' = true.
Proof.
  intros Hwf Hroot.
  destruct (normalizeBr_spec d Hwf Hroot) as (d1 & E1 & S1 & R1 & F1).
  assert (Hwf1 : well_formed d1) by (eapply ordered_sublist; eassumption).
  assert (Hnd1 := well_formed_NoDup _ Hwf1).
  assert (Hl : NoDup (getPossibleSpacerParagraphs d1)).
  { eapply sublist_NoDup; [apply getPossibleSpacerParagraphs_sublist | assumption]. }
  destruct (reducePairs_frame _ (getPossibleSpacerParagraphs d1) d1 (le_n _) Hl Hnd1)
    as (F2 & S2 & R2).
  { intros r. apply getPossibleSpacerParagraphs_spacer_at. assumption. }
  exists (reducePairs (getPossibleSpacerParagraphs d1) d1).
  unfold normalizeDiv. rewrite E1. cbn [bind].
  rewrite reduceSpacerParagraphs_pairs by assumption.
  split; [reflexivity |]. split; [eapply fillers_kept_trans; eassumption |].
  split; [eapply sublist_trans; eassumption | congruence].
Qed.

Lemma normalizeDiv_createDiv v :
  exists d',
    normalizeDiv (createDiv v) = Ok d' /\
    fillers_kept (createDiv v) d'.
Proof.
  destruct (normalizeDiv_spec (createDiv v)) as (d' & E & F & _).
  - apply well_formed_createDiv.
  - reflexivity.
  - eauto.
Qed.

(** ** A run that changes the tree takes nodes out *)

Lemma select_locate_below d x :
  NoDup (refs d) -> is_container d = true -> In x (select isBr d) ->
  exists f q b, locate x d = Some (f :: q, b) /\ isBr b = true.
Proof.
  intros Hnd Hroot Hx. destruct (select_locate isBr d x Hnd Hx) as (p & b & L & Hb).
  destruct p as [| f q]; [| eauto].
  destruct (locate_sound _ _ _ _ L) as [E _]. simpl in E. subst b.
  rewrite is_container_not_br in Hb by assumption. discriminate.
Qed.

(** The first marker with something to do shortens the tree, and no later
    step puts anything back. *)
Lemma forEach_brStep_shrinks l1 x l2 d :
  well_formed d -> is_container d = true -> NoDup (l1 ++ x :: l2) ->
  (forall y, In y (l1 ++ x :: l2) -> In y (select isBr d)) ->
  (forall y, In y l1 -> unwrappable y d = false /\ trailing y d = false) ->
  unwrappable x d || trailing x d = true ->
  exists d',
    forEach brStep (l1 ++ x :: l2) d = Ok d' /\
    sublist (refs d') (refs d) /\
    is_container d' = true /\
    nodeCount d' < nodeCount d.
Proof.
  intros Hwf Hroot Hl Hin Hrest Hx.
  assert (Hnd := well_formed_NoDup _ Hwf).
  rewrite forEach_app.
  rewrite (forEach_fixed brStep l1 d).
  2:{ intros y Hy. destruct (Hrest y Hy) as [Hu Ht].
      destruct (select_locate_below d y Hnd Hroot) as (f & q & b & L & _).
      { apply Hin. rewrite in_app_iff. auto. }
      eapply brStep_at_rest; eassumption. }
  cbn [bind forEach].
  apply NoDup_remove in Hl. destruct Hl as [Hl Hxl].
  destruct (select_locate_below d x Hnd Hroot) as (f & q & b & L & Hb).
  { apply Hin. rewrite in_app_iff. simpl. auto. }
  destruct (brStep_spec x d _ b Hwf Hroot L Hb) as (d1 & E1 & S1 & R1 & F1 & B1 & C1).
  rewrite E1. cbn [bind].
  destruct (forEach_brStep l2 d1) as (d' & E' & S' & R' & F').
  - eapply ordered_sublist; eassumption.
  - assumption.
  - apply NoDup_app_remove_l in Hl. assumption.
  - intros y Hy. apply B1.
    + intros ->. apply Hxl. rewrite in_app_iff. auto.
    + apply Hin. rewrite in_app_iff. simpl. auto.
  - exists d'. split; [assumption |].
    split; [eapply sublist_trans; eassumption |]. split; [assumption |].
    specialize (C1 Hx). apply sublist_length in S'. unfold nodeCount in *. lia.
Qed.

Lemma reducePairs_shrinks first rest d :
  NoDup (first :: rest) -> NoDup (refs d) ->
  (forall r, In r (first :: rest) -> spacer_at d r) ->
  nodeCount (reducePairs (first :: rest) d) < nodeCount d.
Proof.
  intros Hl Hnd Hs.
  assert (Hfirst : spacer_at d first) by (apply Hs; left; reflexivity).
  assert (H1 : nodeCount (remove first d) < nodeCount d).
  { destruct Hfirst as (f & q & n & L & _).
    eapply nodeCount_remove; eassumption. }
  assert (N1 : NoDup (refs (remove first d))).
  { eapply sublist_NoDup; [apply refs_remove_sublist | assumption]. }
  inversion Hl as [| ? ? Hx Hl']; subst.
  assert (Hrest : forall r, In r rest -> spacer_at (remove first d) r).
  { intros r Hr. apply spacer_at_remove; auto.
    - apply Hs. right. assumption.
    - intros ->. contradiction. }
  assert (Hgo : forall l', (forall r, In r l' -> In r rest) -> NoDup l' ->
              nodeCount (reducePairs l' (remove first d)) < nodeCount d).
  { intros l' Hsub Hnd'.
    destruct (reducePairs_frame _ l' (remove first d) (le_n _) Hnd' N1) as (_ & B & _).
    - intros r Hr. apply Hrest, Hsub, Hr.
    - apply sublist_length in B. unfold nodeCount in *. lia. }
  cbn [reducePairs]. destruct rest as [| second rest']; [assumption |].
  inversion Hl' as [| ? ? Hx' Hl'']; subst.
  destruct (adjacent d first second).
  - apply Hgo; [intros r Hr; right; assumption | assumption].
  - apply Hgo; [auto | assumption].
Qed.

Lemma forallb_map {A B : Type} (g : A -> B) (P : B -> bool) l :
  forallb P (map g l) = forallb (fun a => P (g a)) l.
Proof. induction l as [| a l IH]; simpl; [reflexivity | rewrite IH; reflexivity]. Qed.

Lemma html_size_serialize n : html_size (serialize n) = length (refs n).
Proof.
  induction n as [i s | i a | i t a cs IH] using node_induction;
    [reflexivity | reflexivity |].
  simpl. f_equal. induction IH as [| c cs Hc Hcs IHcs]; [reflexivity |].
  simpl. rewrite length_app, Hc, IHcs. reflexivity.
Qed.

(** The markup of a tree has as many nodes as the tree below its root. *)
Lemma nodeCount_innerHTML d : nodeCount d = S (list_sum (map html_size (innerHTML d))).
Proof.
  unfold nodeCount, innerHTML. rewrite refs_head. simpl. f_equal.
  unfold refs_of. induction (childNodes d) as [| c cs IH]; [reflexivity |].
  simpl. rewrite length_app, html_size_serialize, IH. reflexivity.
Qed.

(** When there is a marker to unwrap or to strip, or a spacer paragraph, the
    passes return a tree with fewer nodes. *)
Lemma normalizeDiv_shrinks v :
  at_rest v = false ->
  exists d',
    normalizeDiv (createDiv v) = Ok d' /\ nodeCount d' < nodeCount (createDiv v).
Proof.
  unfold at_rest. set (d := createDiv v).
  assert (Hwf : well_formed d) by apply well_formed_createDiv.
  assert (Hroot : is_container d = true) by reflexivity.
  assert (Hnd := well_formed_NoDup _ Hwf).
  clearbody d.
  destruct (forallb _ (querySelectorAll isBr d)) eqn:Hb; intros Hrest.
  - simpl in Hrest.
    assert (E : normalizeBr d = Ok d).
    { rewrite normalizeBr_forEach. apply forEach_fixed. intros x Hx.
      rewrite forallb_forall in Hb.
      assert (Hsel : In x (select isBr d)).
      { rewrite <- select_querySelectorAll by (apply is_container_not_br; assumption).
        assumption. }
      rewrite in_map_iff in Hx. destruct Hx as (b & <- & Hin).
      specialize (Hb b Hin). apply andb_prop in Hb. destruct Hb as [Hu Ht].
      apply negb_true_iff in Hu, Ht.
      destruct (select_locate_below d (node_ref b) Hnd Hroot Hsel) as (f & q & b' & L & _).
      eapply brStep_at_rest; eassumption. }
    unfold normalizeDiv. rewrite E. cbn [bind].
    assert (Hl : NoDup (getPossibleSpacerParagraphs d)).
    { eapply sublist_NoDup; [apply getPossibleSpacerParagraphs_sublist | assumption]. }
    rewrite reduceSpacerParagraphs_pairs by assumption.
    eexists. split; [reflexivity |].
    assert (Hs := fun r => getPossibleSpacerParagraphs_spacer_at d r Hnd).
    destruct (getPossibleSpacerParagraphs d) as [| first rest]; [discriminate |].
    apply reducePairs_shrinks; assumption.
  - clear Hrest. rewrite <- (forallb_map node_ref
      (fun x => negb (unwrappable x d) && negb (trailing x d))) in Hb.
    apply forallb_first_false in Hb. destruct Hb as (l1 & x & l2 & El & H1 & Hx).
    assert (Hsel : map node_ref (querySelectorAll isBr d) = select isBr d)
      by (apply select_querySelectorAll, is_container_not_br; assumption).
    destruct (forEach_brStep_shrinks l1 x l2 d Hwf Hroot) as (d1 & E1 & S1 & R1 & C1).
    + rewrite <- El, Hsel.
      eapply sublist_NoDup; [apply select_sublist | assumption].
    + intros y Hy. rewrite <- El, Hsel in Hy. assumption.
    + intros y Hy. rewrite forallb_forall in H1. specialize (H1 y Hy).
      apply andb_prop in H1. destruct H1 as [Hu Ht].
      apply negb_true_iff in Hu, Ht. auto.
    + destruct (unwrappable x d); [reflexivity |]. destruct (trailing x d); [reflexivity |].
      discriminate.
    + assert (Hwf1 : well_formed d1) by (eapply ordered_sublist; eassumption).
      assert (Hnd1 := well_formed_NoDup _ Hwf1).
      assert (Hl : NoDup (getPossibleSpacerParagraphs d1)).
      { eapply sublist_NoDup; [apply getPossibleSpacerParagraphs_sublist | assumption]. }
      destruct (reducePairs_frame _ (getPossibleSpacerParagraphs d1) d1 (le_n _) Hl Hnd1)
        as (_ & S2 & _).
      { intros r. apply getPossibleSpacerParagraphs_spacer_at. assumption. }
      unfold normalizeDiv. rewrite normalizeBr_forEach, El, E1. cbn [bind].
      rewrite reduceSpacerParagraphs_pairs by assumption.
      eexists. split; [reflexivity |].
      apply sublist_length in S2. unfold nodeCount in *. lia.
Qed.

Lemma normalized_innerHTML v d' :
  normalizeDiv (createDiv v) = Ok d' -> normalized v = Some (innerHTML d').
Proof.
  intros E. unfold normalized, normalizeLegacyMessage. cbn [element value].
  rewrite E. reflexivity.
Qed.

(** A value that the normalizer returns as it was has nothing left to do. *)
Lemma fixed_at_rest v : normalized v = Some v -> at_rest v = true.
Proof.
  intros H. destruct (at_rest v) eqn:E; [reflexivity |].
  destruct (normalizeDiv_shrinks v E) as (d' & Ed & Hc).
  rewrite (normalized_innerHTML v d' Ed) in H. inversion H as [Hv].
  rewrite (nodeCount_innerHTML d'), (nodeCount_innerHTML (createDiv v)) in Hc.
  rewrite innerHTML_createDiv, Hv in Hc. lia.
Qed.

Lemma at_rest_fixed v : at_rest v = true -> normalized v = Some v.
Proof.
  unfold at_rest. intros H. apply andb_prop in H. destruct H as [Hb Hs].
  rewrite forallb_forall in Hb.
  assert (Hnd := well_formed_NoDup _ (well_formed_createDiv v)).
  assert (E : normalizeBr (createDiv v) = Ok (createDiv v)).
  { rewrite normalizeBr_forEach. apply forEach_fixed. intros x Hx.
    rewrite in_map_iff in Hx. destruct Hx as (b & <- & Hin).
    specialize (Hb b Hin). apply andb_prop in Hb. destruct Hb as [Hu Ht].
    apply negb_true_iff in Hu, Ht.
    unfold querySelectorAll in Hin. rewrite filter_In in Hin. destruct Hin as [Hin _].
    apply descendants_plug in Hin. destruct Hin as (f & q & Ed).
    assert (L : locate (node_ref b) (createDiv v) = Some (f :: q, b)).
    { rewrite <- Ed. apply locate_plug. rewrite Ed. assumption. }
    unfold brStep.
    assert (U : unwrapBr (nodeCount (createDiv v)) (node_ref b) (createDiv v)
                = Ok (createDiv v)).
    { unfold nodeCount. simpl refs. cbn [length unwrapBr].
      unfold unwrappable in Hu.
      destruct (isSome (previousSibling (node_ref b) (createDiv v))
                || isSome (nextSibling (node_ref b) (createDiv v))); [reflexivity |].
      simpl in Hu. unfold parentElement in *. rewrite L in *.
      rewrite Hu. reflexivity. }
    rewrite U. cbn [bind]. rewrite removeTrailingBr_trailing, Ht. reflexivity. }
  unfold normalized, normalizeLegacyMessage. cbn [element value].
  unfold normalizeDiv. rewrite E. cbn [bind].
  destruct (getPossibleSpacerParagraphs (createDiv v)); [| discriminate].
  change (reduceSpacerParagraphs [] (createDiv v)) with (Ok (createDiv v)).
  cbv beta iota. cbn [value]. rewrite innerHTML_createDiv. reflexivity.
Qed.

(** With no marker to unwrap or to strip and no spacer paragraph, the passes
    hand the tree back as it was parsed. *)
Lemma at_rest_untouched v :
  at_rest v = true -> normalizeDiv (createDiv v) = Ok (createDiv v).
Proof.
  unfold at_rest. intros H. apply andb_prop in H. destruct H as [Hb Hs].
  rewrite forallb_forall in Hb.
  assert (Hnd := well_formed_NoDup _ (well_formed_createDiv v)).
  assert (E : normalizeBr (createDiv v) = Ok (createDiv v)).
  { rewrite normalizeBr_forEach. apply forEach_fixed. intros x Hx.
    rewrite in_map_iff in Hx. destruct Hx as (b & <- & Hin).
    specialize (Hb b Hin). apply andb_prop in Hb. destruct Hb as [Hu Ht].
    apply negb_true_iff in Hu, Ht.
    unfold querySelectorAll in Hin. rewrite filter_In in Hin. destruct Hin as [Hin _].
    apply descendants_plug in Hin. destruct Hin as (f & q & Ed).
    assert (L : locate (node_ref b) (createDiv v) = Some (f :: q, b)).
    { rewrite <- Ed. apply locate_plug. rewrite Ed. assumption. }
    eapply brStep_at_rest; eassumption. }
  unfold normalizeDiv. rewrite E. cbn [bind].
  destruct (getPossibleSpacerParagraphs (createDiv v)); [| discriminate].
  reflexivity.
Qed.

Lemma normalizeLegacyMessage_textarea t doc :
  exists div',
    normalizeDiv (createDiv (value t)) = Ok div' /\
    normalizeLegacyMessage (Page (HTMLTextAreaElement t) doc) =
    (Returned, Page (HTMLTextAreaElement (TextArea (innerHTML div') (properties t))) doc).
Proof.
  destruct (normalizeDiv_createDiv (value t)) as (d' & E & _).
  exists d'. split; [assumption |].
  unfold normalizeLegacyMessage. simpl. rewrite E. reflexivity.
Qed.

(** ** Pairing along a list

    Which entries of the list the reducer leaves in place, given which
    entries follow each other in the tree. *)

Section PairingFacts.
Variable adj : ref -> ref -> bool.

Lemma kept_cons2 x y l :
  kept adj (x :: y :: l) = if adj x y then y :: kept adj l else kept adj (y :: l).
Proof. reflexivity. Qed.

Lemma chained_cons2 x y l : chained adj (x :: y :: l) = adj x y && chained adj (y :: l).
Proof. reflexivity. Qed.

Lemma kept_app_bounded k :
  forall l1 l2, length l1 <= k -> joined adj l1 l2 = false ->
                kept adj (l1 ++ l2) = kept adj l1 ++ kept adj l2.
Proof.
  induction k as [| k IH]; intros l1 l2 Hk Hj.
  - destruct l1; [reflexivity | simpl in Hk; lia].
  - destruct l1 as [| x [| y l]]; [reflexivity | |].
    + destruct l2 as [| z l2]; [reflexivity |]. simpl in *. rewrite Hj. reflexivity.
    + change ((x :: y :: l) ++ l2) with (x :: y :: (l ++ l2)).
      rewrite (kept_cons2 x y (l ++ l2)), (kept_cons2 x y l).
      simpl in Hk. destruct (adj x y).
      * simpl. f_equal. destruct l as [| z l]; [reflexivity |].
        apply IH; [simpl in *; lia | exact Hj].
      * change (y :: l ++ l2) with ((y :: l) ++ l2).
        apply IH; [simpl in *; lia | exact Hj].
Qed.

Lemma kept_app l1 l2 : joined adj l1 l2 = false -> kept adj (l1 ++ l2) = kept adj l1 ++ kept adj l2.
Proof. apply (kept_app_bounded (length l1)). apply le_n. Qed.

Lemma joined_app_r l1 l2 l3 : l2 <> [] -> joined adj l1 (l2 ++ l3) = joined adj l1 l2.
Proof.
  intros H2. induction l1 as [| x l1 IH]; [reflexivity |].
  destruct l1 as [| y l1].
  - destruct l2; [congruence | reflexivity].
  - exact IH.
Qed.

Lemma kept_sublist_bounded k : forall l, length l <= k -> sublist (kept adj l) l.
Proof.
  induction k as [| k IH]; intros l Hk.
  - destruct l; [constructor | simpl in Hk; lia].
  - destruct l as [| x [| y l]]; [constructor | apply sublist_nil_l |].
    rewrite kept_cons2. simpl in Hk. destruct (adj x y).
    + apply sublist_skip, sublist_keep, IH. lia.
    + apply sublist_skip, IH. simpl. lia.
Qed.

Lemma kept_sublist l : sublist (kept adj l) l.
Proof. apply (kept_sublist_bounded (length l)). apply le_n. Qed.

Lemma kept_chained_bounded k :
  forall l, length l <= k -> chained adj l = true -> length (kept adj l) = length l / 2.
Proof.
  induction k as [| k IH]; intros l Hk Hc.
  - destruct l; [reflexivity | simpl in Hk; lia].
  - destruct l as [| x [| y l]]; [reflexivity | reflexivity |].
    rewrite chained_cons2 in Hc. apply andb_prop in Hc. destruct Hc as [Hxy Hc].
    rewrite kept_cons2, Hxy. simpl in Hk.
    assert (Hl : chained adj l = true).
    { destruct l as [| z l]; [reflexivity |].
      rewrite chained_cons2 in Hc. apply andb_prop in Hc. tauto. }
    cbn [length]. rewrite IH by (assumption || lia).
    change (S (S (length l))) with (1 * 2 + length l) at 1.
    rewrite Nat.div_add_l by lia. lia.
Qed.

Lemma kept_chained l : chained adj l = true -> length (kept adj l) = length l / 2.
Proof. apply (kept_chained_bounded (length l)). apply le_n. Qed.

End PairingFacts.

Lemma mem_In r l : mem r l = true <-> In r l.
Proof.
  unfold mem. rewrite existsb_exists. split.
  - intros (x & Hx & E). apply Nat.eqb_eq in E. subst. assumption.
  - intros H. exists r. rewrite Nat.eqb_refl. auto.
Qed.

Lemma mem_not_In r l : ~ In r l -> mem r l = false.
Proof.
  intros H. destruct (mem r l) eqn:E; [| reflexivity].
  apply mem_In in E. contradiction.
Qed.

Lemma filter_mem_sublist k l :
  sublist k l -> NoDup l -> filter (fun r => mem r k) l = k.
Proof.
  intros H. induction H as [| x k l H IH | x k l H IH]; intros Hl.
  - reflexivity.
  - inversion Hl as [| ? ? Hx Hl']; subst. simpl.
    rewrite mem_not_In by (intros Hin; apply Hx; eapply sublist_In; eassumption).
    auto.
  - inversion Hl as [| ? ? Hx Hl']; subst. simpl.
    unfold mem at 1. simpl. rewrite Nat.eqb_refl. simpl. f_equal.
    transitivity (filter (fun r => mem r k) l); [| apply IH; assumption].
    apply filter_ext_in. intros r Hr.
    unfold mem. simpl. destruct (r =? x) eqn:E; [| reflexivity].
    apply Nat.eqb_eq in E. subst. contradiction.
Qed.

(** In a maximal run of [n] entries that follow each other, [n / 2] are
    left in place, whatever surrounds the run in the list. *)
Lemma kept_run adj l1 run l2 :
  NoDup (l1 ++ run ++ l2) ->
  chained adj run = true -> joined adj l1 run = false -> joined adj run l2 = false ->
  filter (fun r => mem r (kept adj (l1 ++ run ++ l2))) run = kept adj run.
Proof.
  intros Hnd Hc H1 H2.
  destruct run as [| x run]; [reflexivity |].
  rewrite kept_app by (rewrite joined_app_r by discriminate; assumption).
  rewrite (kept_app adj (x :: run) l2) by assumption.
  apply NoDup_app_inv in Hnd. destruct Hnd as (_ & Hnd & D1).
  apply NoDup_app_inv in Hnd. destruct Hnd as (Hrun & _ & D2).
  transitivity (filter (fun r => mem r (kept adj (x :: run))) (x :: run));
    [| apply filter_mem_sublist; [apply kept_sublist | assumption]].
  apply filter_ext_in. intros r Hr. unfold mem at 1. rewrite !existsb_app.
  change (existsb (Nat.eqb r) (kept adj l1)) with (mem r (kept adj l1)).
  change (existsb (Nat.eqb r) (kept adj l2)) with (mem r (kept adj l2)).
  rewrite (mem_not_In r (kept adj l1)), (mem_not_In r (kept adj l2)).
  - rewrite orb_false_r. reflexivity.
  - intros Hin. apply (D2 r Hr). eapply sublist_In; [apply kept_sublist | exact Hin].
  - intros Hin. apply (sublist_In _ _ _ (kept_sublist adj l1)) in Hin.
    apply (D1 r Hin). apply in_or_app. auto.
Qed.

(** ** The reducer on the scanner's list *)

Lemma contains_In d r : contains d r = true <-> In r (refs d).
Proof.
  unfold contains. destruct (locate r d) as [[q n] |] eqn:L; simpl.
  - split; [intros _ | reflexivity].
    destruct (locate_sound _ _ _ _ L) as [<- <-].
    rewrite refs_plug. apply in_or_app. right. apply in_or_app. left.
    apply node_ref_in_refs.
  - apply locate_None in L. split; [discriminate | contradiction].
Qed.

Lemma contains_false d r : ~ In r (refs d) -> contains d r = false.
Proof.
  intros H. destruct (contains d r) eqn:E; [| reflexivity].
  apply contains_In in E. contradiction.
Qed.

Lemma remove_gone d x :
  NoDup (refs d) -> spacer_at d x -> ~ In x (refs (remove x d)).
Proof.
  intros Hnd (f & q & n & L & _). rewrite (remove_located _ _ _ _ _ Hnd L).
  destruct (locate_sound _ _ _ _ L) as [<- <-].
  apply NoDup_plug_hole in Hnd. destruct Hnd as [_ Hnd].
  destruct (Hnd _ (node_ref_in_refs n)) as [Hb Ha]. simpl in Hb, Ha.
  rewrite in_app_iff in Hb, Ha. simpl in Hb.
  rewrite refs_plug. unfold close. simpl.
  fold (refs_of (f_before f ++ f_after f)). rewrite refs_of_app.
  rewrite !in_app_iff. simpl. rewrite !in_app_iff. tauto.
Qed.

(** A spacer paragraph the reducer does not visit stays in the tree. *)
Lemma reducePairs_keeps k :
  forall l d x,
    length l <= k -> NoDup l -> NoDup (refs d) ->
    (forall r, In r l -> spacer_at d r) ->
    spacer_at d x -> ~ In x l ->
    spacer_at (reducePairs l d) x.
Proof.
  induction k as [| k IH]; intros l d x Hk Hl Hnd Hs Hx Hin.
  - destruct l; [assumption | simpl in Hk; lia].
  - destruct l as [| first rest]; [assumption |].
    assert (Hfirst : spacer_at d first) by (apply Hs; left; reflexivity).
    assert (N1 : NoDup (refs (remove first d)))
      by (eapply sublist_NoDup; [apply refs_remove_sublist | assumption]).
    inversion Hl as [| ? ? Hf Hl']; subst.
    assert (Hrest : forall r, In r rest -> spacer_at (remove first d) r).
    { intros r Hr. apply spacer_at_remove; auto.
      - apply Hs. right. assumption.
      - intros ->. contradiction. }
    assert (Hx1 : spacer_at (remove first d) x).
    { apply spacer_at_remove; auto. intros ->. apply Hin. left. reflexivity. }
    cbn [reducePairs]. destruct rest as [| second rest']; [assumption |].
    inversion Hl' as [| ? ? Hs' Hl'']; subst. simpl in Hk.
    destruct (adjacent d first second).
    + apply IH; auto; [lia | | ].
      * intros r Hr. apply Hrest. right. assumption.
      * intros Hr. apply Hin. right. right. assumption.
    + apply IH; auto; [simpl; lia |].
      intros Hr. apply Hin. right. assumption.
Qed.

Lemma settled_refl d r : spacer_at d r -> settled d d r.
Proof. intros (f & q & n & L & S). exists f, q, f, q, n. auto. Qed.

Lemma settled_spacer_at d0 d r : settled d0 d r -> spacer_at d r.
Proof. intros (f0 & q0 & f & q & n & _ & L & _ & S). exists f, q, n. auto. Qed.

Lemma settled_adjacent d0 d r y : settled d0 d r -> adjacent d r y = adjacent d0 r y.
Proof.
  intros (f0 & q0 & f & q & n & L0 & L & E & _).
  unfold adjacent, nextElementSibling. rewrite L0, L, E. reflexivity.
Qed.

Lemma siblings_after_later d r f q n :
  well_formed d -> locate r d = Some (f :: q, n) ->
  forall x, In x (refs_of (f_after f)) -> r < x.
Proof.
  intros Hwf L x Hx. destruct (locate_sound _ _ _ _ L) as [<- <-].
  assert (E : refs (plug (f :: q) n) =
              (refs_before q ++ f_ref f :: refs_of (f_before f)) ++
              node_ref n :: (refs_of (childNodes n) ++ refs_of (f_after f) ++ refs_after q)).
  { rewrite plug_cons, refs_plug, refs_fill, (refs_head n). simpl.
    rewrite <- !app_assoc. simpl. rewrite <- !app_assoc. reflexivity. }
  apply (Hwf _ _ _ E). rewrite !in_app_iff. tauto.
Qed.

Lemma settled_remove d0 d first r :
  well_formed d0 -> NoDup (refs d) ->
  settled d0 d first -> settled d0 d r -> first < r ->
  settled d0 (remove first d) r.
Proof.
  intros Hwf Hnd H1 Hr Hlt.
  destruct (settled_spacer_at _ _ _ H1) as (f1 & q1 & n1 & L1 & S1).
  destruct Hr as (f0 & q0 & f & q & n & L0 & L & E & S).
  destruct (spacer_flat _ S1) as [F1 E1]. destruct (spacer_flat _ S) as [Fn En].
  exists f0, q0, (remove_frame first f), (map (remove_frame first) q), n.
  split; [assumption |]. split; [| split; [| assumption]].
  - apply (locate_remove first r d (f :: q) n L).
    + eapply flat_not_inside; try eassumption. lia.
    + eapply flat_not_ancestor; eassumption.
  - simpl. rewrite E. apply remove_list_absent. intros Hin.
    apply (siblings_after_later d0 r f0 q0 n Hwf L0) in Hin. lia.
Qed.

Lemma reducePairs_contains d0 k :
  well_formed d0 ->
  forall l d,
    length l <= k -> ordered l -> NoDup (refs d) ->
    (forall r, In r l -> settled d0 d r) ->
    forall r, In r l ->
      contains (reducePairs l d) r = mem r (kept (adjacent d0) l).
Proof.
  intros Hwf. induction k as [| k IH]; intros l d Hk Hord Hnd Hs r Hr.
  - destruct l; [contradiction | simpl in Hk; lia].
  - destruct l as [| first rest]; [contradiction |].
    assert (Hl := ordered_NoDup _ Hord).
    apply ordered_cons in Hord. destruct Hord as [Hlt Hord].
    inversion Hl as [| ? ? Hf Hl']; subst.
    assert (H1 : settled d0 d first) by (apply Hs; left; reflexivity).
    assert (Hfirst := settled_spacer_at _ _ _ H1).
    assert (N1 : NoDup (refs (remove first d)))
      by (eapply sublist_NoDup; [apply refs_remove_sublist | assumption]).
    assert (Hrest : forall x, In x rest -> settled d0 (remove first d) x).
    { intros x Hx. apply settled_remove; auto. apply Hs. right. assumption. }
    assert (Hgone : forall l',
               (forall x, In x l' -> In x rest) -> NoDup l' ->
               contains (reducePairs l' (remove first d)) first = false).
    { intros l' Hsub Hnd'. apply contains_false. intros Hin.
      destruct (reducePairs_frame _ l' (remove first d) (le_n _) Hnd' N1) as (_ & S & _).
      - intros x Hx. eapply settled_spacer_at. apply Hrest, Hsub, Hx.
      - apply (sublist_In _ _ _ S) in Hin. revert Hin. apply remove_gone; assumption. }
    cbn [reducePairs]. destruct rest as [| second rest'].
    + destruct Hr as [<- | []]. simpl.
      apply contains_false. apply remove_gone; assumption.
    + rewrite kept_cons2, (settled_adjacent d0 d first second H1).
      inversion Hl' as [| ? ? Hs' Hl'']; subst. simpl in Hk.
      apply ordered_cons in Hord. destruct Hord as [Hlt' Hord'].
      destruct (adjacent d0 first second).
      * destruct Hr as [<- | [<- | Hr]].
        -- rewrite Hgone; [| intros x Hx; right; assumption | assumption].
           symmetry. apply mem_not_In. intros [E | Hin]; [apply Hf; left; auto |].
           apply Hf. right. eapply sublist_In; [apply kept_sublist | exact Hin].
        -- unfold mem. simpl. rewrite Nat.eqb_refl. simpl.
           apply contains_In.
           destruct (reducePairs_keeps _ rest' (remove first d) second (le_n _) Hl'' N1)
             as (f & q & n & L & _).
           ++ intros x Hx. eapply settled_spacer_at. apply Hrest. right. assumption.
           ++ eapply settled_spacer_at. apply Hrest. left. reflexivity.
           ++ assumption.
           ++ apply contains_In. unfold contains. rewrite L. reflexivity.
        -- rewrite (IH rest' (remove first d)); auto; [| lia |].
           ++ unfold mem. simpl. destruct (r =? second) eqn:E; [| reflexivity].
              apply Nat.eqb_eq in E. subst. contradiction.
           ++ intros x Hx. apply Hrest. right. assumption.
      * destruct Hr as [<- | Hr].
        -- rewrite Hgone; [| auto | assumption].
           symmetry. apply mem_not_In. intros Hin. apply Hf.
           eapply sublist_In; [apply kept_sublist | exact Hin].
        -- apply (IH (second :: rest') (remove first d)); auto.
           ++ simpl. lia.
           ++ apply ordered_cons. auto.
Qed.

(** ** One round of [normalizeBr], by cases *)

(** What one round of [normalizeBr] returns for the marker at [p]. *)
Lemma brStep_shape p i a :
  NoDup (refs (plug p (Br i a))) ->
  is_container (plug p (Br i a)) = true ->
  exists f q,
    unwrapped p = f :: q /\
    brStep i (plug p (Br i a)) =
    Ok (if strips (f :: q) (Br i a) then plug q (close f) else plug (f :: q) (Br i a)).
Proof.
  intros Hnd Hroot.
  assert (Hp : p <> []) by (intros ->; discriminate).
  destruct p as [| f0 p0]; [congruence |].
  set (p := f0 :: p0) in *.
  assert (Hlast : isInlineWrapper (f_tag (last p f0)) = false).
  { rewrite (is_container_plug p _ f0) in Hroot by assumption.
    apply negb_true_iff in Hroot. exact Hroot. }
  assert (Hfuel : length p <= nodeCount (plug p (Br i a))).
  { unfold nodeCount. rewrite refs_plug, !length_app.
    assert (length p <= length (refs_before p)); [| lia].
    clear. induction p as [| f p IH]; simpl; [lia |].
    rewrite length_app. simpl. lia. }
  unfold brStep. change i with (node_ref (Br i a)) at 1 2.
  rewrite unwrapBr_plug; try assumption.
  2:{ intros f. rewrite (last_default p f f0) by assumption. exact Hlast. }
  cbn [bind].
  assert (Hq := unwrapped_nonempty p Hp).
  assert (Hnd1 : NoDup (refs (plug (unwrapped p) (Br i a))))
    by (eapply sublist_NoDup; [apply refs_unwrapped_sublist | eassumption]).
  rewrite (removeTrailingBr_located _ _ (unwrapped p) (Br i a))
    by (apply (locate_plug _ (Br i a)); assumption).
  destruct (unwrapped p) as [| f q] eqn:Eq; [congruence |].
  exists f, q. split; [reflexivity |].
  destruct (strips (f :: q) (Br i a)); [| reflexivity].
  f_equal. exact (remove_plug f q (Br i a) Hnd1).
Qed.

(** ** The places of filler markers *)

Lemma places_from_app par t o below k l1 l2 :
  places_from par t o below k (l1 ++ l2) =
  places_from par t o below k l1 ++ places_from par t o below (k + length l1) l2.
Proof.
  revert k. induction l1 as [| c l1 IH]; intros k.
  - simpl. rewrite Nat.add_0_r. reflexivity.
  - simpl. rewrite IH, <- !app_assoc, Nat.add_succ_r. reflexivity.
Qed.

Lemma only_alone f n : (length (f_before f ++ n :: f_after f) =? 1) = alone f.
Proof.
  unfold alone. destruct (f_before f) as [| c l]; simpl.
  - destruct (f_after f); reflexivity.
  - rewrite length_app. simpl. rewrite Nat.add_succ_r. reflexivity.
Qed.

Lemma filler_places_fill f n :
  filler_places (fill f n) =
  places_from (f_ref f) (f_tag f) (alone f) filler_places 0 (f_before f) ++
  own_place f n ++ filler_places n ++
  places_from (f_ref f) (f_tag f) (alone f) filler_places (S (length (f_before f))) (f_after f).
Proof.
  unfold fill. cbn [filler_places]. rewrite only_alone, places_from_app.
  cbn [places_from]. unfold own_place. rewrite <- ?app_assoc. reflexivity.
Qed.

Lemma filler_places_close f :
  filler_places (close f) =
  places_from (f_ref f) (f_tag f) (length (f_before f ++ f_after f) =? 1) filler_places 0
    (f_before f) ++
  places_from (f_ref f) (f_tag f) (length (f_before f ++ f_after f) =? 1) filler_places
    (length (f_before f)) (f_after f).
Proof. unfold close. cbn [filler_places]. apply places_from_app. Qed.

Lemma own_place_Element f m : isFiller m = false -> own_place f m = [].
Proof. unfold own_place. intros ->. reflexivity. Qed.

(** What is around the hole of a position does not depend on the hole. *)
Lemma filler_places_plug_cons p :
  forall f, exists before after,
    forall n, filler_places (plug (f :: p) n) =
              before ++ own_place f n ++ filler_places n ++ after.
Proof.
  induction p as [| g p IH]; intros f.
  - eexists. eexists. intros n. simpl plug. apply filler_places_fill.
  - destruct (IH g) as (B & A & E).
    exists (B ++ places_from (f_ref f) (f_tag f) (alone f) filler_places 0 (f_before f)),
           (places_from (f_ref f) (f_tag f) (alone f) filler_places
              (S (length (f_before f))) (f_after f) ++ A).
    intros n. rewrite plug_cons, E, filler_places_fill.
    rewrite own_place_Element by reflexivity.
    rewrite <- !app_assoc. reflexivity.
Qed.

Lemma filler_places_plug p :
  exists before after,
    forall n, isFiller n = false ->
              filler_places (plug p n) = before ++ filler_places n ++ after.
Proof.
  destruct p as [| f p].
  - exists [], []. intros n _. simpl. rewrite app_nil_r. reflexivity.
  - destruct (filler_places_plug_cons p f) as (B & A & E).
    exists B, A. intros n Hn. rewrite E, own_place_Element by assumption. reflexivity.
Qed.

Lemma select_head sel n :
  select sel n = (if sel n then [node_ref n] else []) ++ select_of sel (childNodes n).
Proof.
  destruct n as [i s | i a | i t a cs].
  - unfold select. simpl. destruct (sel _); reflexivity.
  - unfold select. simpl. destruct (sel _); reflexivity.
  - apply select_Element.
Qed.

(** The markers listed are the filler markers of the tree. *)
Lemma filler_places_select n :
  map place_of (filler_places n) = select_of isFiller (childNodes n).
Proof.
  induction n as [i s | i a | i t a cs IH] using node_induction;
    [reflexivity | reflexivity |].
  cbn [filler_places childNodes]. generalize (length cs =? 1) as o. intros o.
  generalize 0 as k.
  induction IH as [| c cs Hc Hcs IHcs]; intros k; [reflexivity |].
  cbn [places_from select_of flat_map]. rewrite !map_app, Hc, IHcs, (select_head isFiller c).
  fold (select_of isFiller cs). rewrite <- app_assoc.
  destruct (isFiller c); reflexivity.
Qed.

Lemma filler_places_NoDup d :
  is_container d = true -> NoDup (refs d) -> NoDup (map place_of (filler_places d)).
Proof.
  intros Hroot Hnd. rewrite filler_places_select.
  destruct d as [i s | i a | i t a cs]; try discriminate.
  apply (sublist_NoDup _ (refs (Element i t a cs))); [| assumption].
  eapply sublist_trans; [| apply (select_sublist isFiller)].
  rewrite select_Element. simpl. apply sublist_refl.
Qed.

Lemma filler_places_isBr d e :
  is_container d = true -> In e (filler_places d) -> In (place_of e) (select isBr d).
Proof.
  intros Hroot He. apply (in_map place_of) in He. rewrite filler_places_select in He.
  destruct d as [i s | i a | i t a cs]; try discriminate.
  rewrite select_Element. simpl. unfold select_of in *. rewrite in_flat_map in *.
  destruct He as (c & Hc & He). exists c. split; [assumption |].
  unfold select in *. rewrite in_map_iff in *. destruct He as (m & Em & Hm).
  exists m. split; [assumption |]. rewrite filter_In in *. destruct Hm as [Hm Hf].
  split; [assumption |]. unfold isFiller in Hf. apply andb_prop in Hf. tauto.
Qed.

Lemma map_unique {A B : Type} (g : A -> B) l a b :
  NoDup (map g l) -> In a l -> In b l -> g a = g b -> a = b.
Proof.
  induction l as [| c l IH]; [contradiction |]. simpl. intros H Ha Hb E.
  inversion H as [| ? ? Hc Hl]; subst.
  destruct Ha as [-> | Ha], Hb as [-> | Hb]; try reflexivity.
  - exfalso. apply Hc. rewrite E. apply in_map. assumption.
  - exfalso. apply Hc. rewrite <- E. apply in_map. assumption.
  - apply IH; assumption.
Qed.

(** The entry of a filler marker is read off its position. *)
Lemma filler_places_located d x f q b par t j o :
  is_container d = true -> NoDup (refs d) ->
  locate x d = Some (f :: q, b) -> isFiller b = true ->
  In (x, par, t, j, o) (filler_places d) ->
  par = f_ref f /\ t = f_tag f /\ j = length (f_before f) /\ o = alone f.
Proof.
  intros Hroot Hnd L Hb He.
  destruct (locate_sound _ _ _ _ L) as [Ed Ex].
  destruct (filler_places_plug_cons q f) as (B & A & E).
  assert (Hown : In (x, f_ref f, f_tag f, length (f_before f), alone f) (filler_places d)).
  { rewrite <- Ed, E. unfold own_place. rewrite Hb, Ex.
    rewrite !in_app_iff. right. left. left. reflexivity. }
  assert (Heq := map_unique place_of _ _ _ (filler_places_NoDup d Hroot Hnd) He Hown eq_refl).
  inversion Heq. auto.
Qed.

(** Changing the flag, or taking a child out before the others, leaves the
    markers with their parent. *)
Lemma places_from_flag par t o1 o2 below cs :
  forall k x par' t' j o,
    In (x, par', t', j, o) (places_from par t o1 below k cs) ->
    In (x, par', t', j, o) (places_from par t o2 below k cs) \/
    (In x (map node_ref cs) /\
     In (x, par', t', j, o2) (places_from par t o2 below k cs)).
Proof.
  induction cs as [| c cs IH]; intros k x par' t' j o H; [contradiction |].
  cbn [places_from] in *. rewrite !in_app_iff in H.
  destruct H as [H | [H | H]].
  - destruct (isFiller c); [| contradiction]. destruct H as [H | []].
    inversion H; subst. right. split; [left; reflexivity |].
    apply in_or_app. left. left. reflexivity.
  - left. rewrite !in_app_iff. auto.
  - destruct (IH _ _ _ _ _ _ H) as [H' | [Hx H']].
    + left. rewrite !in_app_iff. auto.
    + right. split; [right; assumption |]. rewrite !in_app_iff. auto.
Qed.

Lemma places_from_shift par t o1 o2 below cs :
  forall k x par' t' j o,
    In (x, par', t', j, o) (places_from par t o1 below (S k) cs) ->
    exists j' o', j' <= j /\ In (x, par', t', j', o') (places_from par t o2 below k cs).
Proof.
  induction cs as [| c cs IH]; intros k x par' t' j o H; [contradiction |].
  cbn [places_from] in *. rewrite !in_app_iff in H.
  destruct H as [H | [H | H]].
  - destruct (isFiller c) eqn:E; [| contradiction]. destruct H as [H | []].
    inversion H; subst. exists k, o2. split; [lia |].
    apply in_or_app. left. left. reflexivity.
  - exists j, o. split; [lia |]. rewrite !in_app_iff. auto.
  - destruct (IH _ _ _ _ _ _ H) as (j' & o' & Hj & H').
    exists j', o'. split; [assumption |]. rewrite !in_app_iff. auto.
Qed.

Lemma node_ref_refs_of cs x : In x (map node_ref cs) -> In x (refs_of cs).
Proof.
  rewrite in_map_iff. intros (c & <- & Hc). unfold refs_of. rewrite in_flat_map.
  exists c. split; [assumption | apply node_ref_in_refs].
Qed.

Lemma filler_places_leaf b : is_leaf b = true -> filler_places b = [].
Proof. destruct b; [reflexivity | reflexivity | discriminate]. Qed.

(** Unwrapping one marker leaves every other filler marker where it is. *)
Lemma filler_places_pop f g p b e :
  alone f = true -> is_leaf b = true -> place_of e <> node_ref b ->
  In e (filler_places (plug (f :: g :: p) b)) ->
  In e (filler_places (plug (g :: p) b)).
Proof.
  intros Ha Hb Hx. destruct (filler_places_plug_cons p g) as (B & A & E).
  rewrite (plug_cons f), !E, filler_places_fill.
  rewrite (own_place_Element g (fill f b)) by reflexivity.
  apply alone_inv in Ha. destruct Ha as [-> ->].
  rewrite (filler_places_leaf b Hb). cbn [places_from app].
  rewrite !in_app_iff. intros H.
  assert (Hown : forall h, ~ In e (own_place h b)).
  { intros h Hin. unfold own_place in Hin. destruct (isFiller b); [| contradiction].
    destruct Hin as [<- | []]. apply Hx. reflexivity. }
  specialize (Hown f). simpl in H. tauto.
Qed.

Lemma filler_places_unwrapped p b e :
  is_leaf b = true -> place_of e <> node_ref b ->
  In e (filler_places (plug p b)) ->
  In e (filler_places (plug (unwrapped p) b)).
Proof.
  intros Hb Hx. induction p as [| f p IH]; [auto |].
  destruct p as [| g p]; [auto |].
  rewrite unwrapped_cons2.
  destruct (alone f && isInlineWrapper (f_tag f)) eqn:E; [| auto].
  apply andb_prop in E. destruct E as [Ha _].
  intros H. apply IH. apply (filler_places_pop f g p b e); assumption.
Qed.

(** Taking out the last child, a marker that is not a filler. *)
Lemma filler_places_strip f q y x par t j o :
  is_leaf y = true -> isFiller y = false -> f_after f = [] ->
  In (x, par, t, j, o) (filler_places (plug (f :: q) y)) ->
  In (x, par, t, j, o) (filler_places (plug q (close f))) \/
  (In x (refs_of (f_before f)) /\
   exists o', In (x, par, t, j, o') (filler_places (plug q (close f)))).
Proof.
  intros Hl Hy Ha. destruct (filler_places_plug q) as (B & A & E).
  rewrite plug_cons, !E by reflexivity.
  rewrite filler_places_fill, filler_places_close, Ha, (filler_places_leaf y Hl).
  rewrite (own_place_Element f y Hy). cbn [places_from app]. rewrite !app_nil_r.
  rewrite !in_app_iff. intros [H | [H | H]].
  - left. tauto.
  - destruct (places_from_flag _ _ _ (length (f_before f) =? 1) _ _ _ _ _ _ _ _ H)
      as [H' | [Hx H']].
    + left. tauto.
    + right. split; [apply node_ref_refs_of; assumption |].
      eexists. rewrite !in_app_iff. right. left. exact H'.
  - left. tauto.
Qed.

Lemma places_from_leaves par t o cs :
  (forall c, In c cs -> is_leaf c = true /\ isFiller c = false) ->
  forall k, places_from par t o filler_places k cs = [].
Proof.
  induction cs as [| c cs IH]; intros Hc k; [reflexivity |].
  cbn [places_from]. destruct (Hc c (or_introl eq_refl)) as [Hl Hf].
  rewrite Hf, (filler_places_leaf c Hl). simpl. apply IH.
  intros c' Hc'. apply Hc. right. assumption.
Qed.

Lemma spacer_no_places n : spacer n = true -> filler_places n = [].
Proof.
  unfold spacer. intros H. apply andb_prop in H. destruct H as [Hp Hs].
  destruct n as [i s | i a | i t a cs]; try discriminate.
  apply places_from_leaves. apply (isPossibleSpacer_children _ Hs).
Qed.

(** Taking out a spacer paragraph: the filler markers keep their parent; the
    ones after the paragraph under the same parent move up by one. *)
Lemma filler_places_drop f q n x par t j o :
  spacer n = true ->
  In (x, par, t, j, o) (filler_places (plug (f :: q) n)) ->
  exists j' o', j' <= j /\ In (x, par, t, j', o') (filler_places (plug q (close f))).
Proof.
  intros S. destruct (filler_places_plug q) as (B & A & E).
  assert (Hn : isFiller n = false).
  { destruct (spacer_flat n S) as [_ Hl]. destruct n; try discriminate. reflexivity. }
  rewrite plug_cons, !E by reflexivity.
  rewrite filler_places_fill, filler_places_close, (spacer_no_places n S).
  rewrite (own_place_Element f n Hn). cbn [app].
  rewrite !in_app_iff. intros [H | [[H | H] | H]].
  - exists j, o. split; [lia |]. rewrite !in_app_iff. tauto.
  - destruct (places_from_flag _ _ _ (length (f_before f ++ f_after f) =? 1)
                _ _ _ _ _ _ _ _ H) as [H' | [_ H']].
    + exists j, o. split; [lia |]. rewrite !in_app_iff. tauto.
    + eexists j, _. split; [lia |]. rewrite !in_app_iff. right. left. left. exact H'.
  - destruct (places_from_shift _ _ _ (length (f_before f ++ f_after f) =? 1)
                _ _ _ _ _ _ _ _ H) as (j' & o' & Hj & H').
    exists j', o'. split; [assumption |]. rewrite !in_app_iff. tauto.
  - exists j, o. split; [lia |]. rewrite !in_app_iff. tauto.
Qed.

Lemma siblings_before_earlier f q n :
  ordered (refs (plug (f :: q) n)) ->
  forall x, In x (refs_of (f_before f)) -> x < node_ref n.
Proof.
  intros Hwf x Hx. apply in_split in Hx. destruct Hx as (m1 & m2 & Em).
  assert (E : refs (plug (f :: q) n) =
              (refs_before q ++ f_ref f :: m1) ++
              x :: (m2 ++ refs n ++ refs_of (f_after f) ++ refs_after q)).
  { rewrite plug_cons, refs_plug, refs_fill, Em.
    repeat (rewrite <- ?app_assoc; simpl). reflexivity. }
  apply (Hwf _ _ _ E). rewrite !in_app_iff. right. left. apply node_ref_in_refs.
Qed.

Lemma strips_last f q b : strips (f :: q) b = true -> f_after f = [] /\ ckeFiller b = false.
Proof.
  unfold strips. intros H. apply andb_prop in H. destruct H as [Hc H].
  apply negb_true_iff in Hc. split; [| assumption].
  destruct (find matches_p_td (inclusive_ancestors (f :: q) b)) as [c |]; [| discriminate].
  apply andb_prop in H. destruct H as [H _]. cbn [at_node_end] in H.
  destruct (f_after f); [reflexivity | discriminate].
Qed.

(** One round of [normalizeBr], seen from the filler markers. *)
Lemma brStep_places x d p b :
  well_formed d -> is_container d = true ->
  locate x d = Some (p, b) -> isBr b = true ->
  exists d',
    brStep x d = Ok d' /\
    (forall y par t j o,
        In (y, par, t, j, o) (filler_places d) -> y <> x ->
        exists o', In (y, par, t, j, o') (filler_places d') /\ (x < y -> o' = o)) /\
    (forall par t j o,
        In (x, par, t, j, o) (filler_places d) ->
        isInlineWrapper t && o = false -> d' = d) /\
    (forall par t j o,
        In (x, par, t, j, o) (filler_places d) ->
        isInlineWrapper t && o = true -> ~ In par (refs d')).
Proof.
  intros Hwf Hroot L Hb.
  assert (Hnd := well_formed_NoDup _ Hwf).
  assert (Hfill : forall par t j o, In (x, par, t, j, o) (filler_places d) -> isFiller b = true).
  { intros par t j o He. apply (in_map place_of) in He.
    rewrite filler_places_select in He.
    assert (Hs : In x (select isFiller d)).
    { destruct d as [i s | i a | i t' a cs]; try discriminate.
      rewrite select_Element. exact He. }
    destruct (select_locate isFiller d x Hnd Hs) as (p' & b' & L' & Hb').
    congruence. }
  destruct (locate_sound _ _ _ _ L) as [Ed Ex]. subst d x.
  apply isBr_inv in Hb. destruct Hb as (i & a & ->).
  destruct (brStep_shape p i a Hnd Hroot) as (f' & q' & Eq & E).
  eexists. split; [exact E |].
  assert (Hwf1 : ordered (refs (plug (f' :: q') (Br i a)))).
  { rewrite <- Eq. eapply ordered_sublist; [apply refs_unwrapped_sublist | exact Hwf]. }
  split; [| split].
  - intros y par t j o He Hy.
    apply (filler_places_unwrapped p (Br i a)) in He; [| reflexivity | exact Hy].
    rewrite Eq in He.
    destruct (strips (f' :: q') (Br i a)) eqn:Es; [| exists o; auto].
    destruct (strips_last _ _ _ Es) as [Ha Hc].
    assert (Hnf : isFiller (Br i a) = false) by (unfold isFiller; rewrite Hc; reflexivity).
    destruct (filler_places_strip f' q' (Br i a) y par t j o eq_refl Hnf Ha He)
      as [H | [Hbefore (o' & H)]].
    + exists o. auto.
    + exists o'. split; [assumption |]. intros Hlt.
      apply (siblings_before_earlier f' q' (Br i a) Hwf1) in Hbefore. simpl in *. lia.
  - intros par t j o He Hflag.
    assert (Hf := Hfill _ _ _ _ He).
    destruct p as [| f q]; [discriminate |].
    destruct (filler_places_located _ _ f q (Br i a) par t j o Hroot Hnd L Hf He)
      as (-> & -> & -> & ->).
    rewrite andb_comm in Hflag. rewrite (unwrapped_id f q Hflag) in Eq.
    inversion Eq; subst f' q'.
    replace (strips (f :: q) (Br i a)) with false; [reflexivity |].
    unfold strips. unfold isFiller in Hf. simpl in Hf. rewrite Hf. reflexivity.
  - intros par t j o He Hflag.
    assert (Hf := Hfill _ _ _ _ He).
    destruct p as [| f q]; [discriminate |].
    destruct (filler_places_located _ _ f q (Br i a) par t j o Hroot Hnd L Hf He)
      as (-> & -> & -> & ->).
    rewrite andb_comm in Hflag.
    destruct q as [| g q].
    { simpl in Hroot. apply andb_prop in Hflag. destruct Hflag as [_ Hw].
      rewrite Hw in Hroot. discriminate. }
    rewrite unwrapped_cons2, Hflag in Eq.
    replace (strips (f' :: q') (Br i a)) with false.
    2:{ unfold strips. unfold isFiller in Hf. simpl in Hf. rewrite Hf. reflexivity. }
    rewrite <- Eq. intros Hin.
    apply (sublist_In _ _ _ (refs_unwrapped_sublist (g :: q) (Br i a))) in Hin.
    revert Hnd Hin. rewrite (plug_cons f), !refs_plug, refs_fill.
    apply andb_prop in Hflag. destruct Hflag as [Ha _].
    apply alone_inv in Ha. destruct Ha as [-> ->]. simpl. rewrite ?app_nil_r.
    intros Hnd Hin. apply NoDup_remove_2 in Hnd. apply Hnd.
    rewrite !in_app_iff in *. simpl in *. tauto.
Qed.

Lemma forEach_brStep_places l :
  forall d,
    well_formed d -> is_container d = true -> ordered l ->
    (forall x, In x l -> In x (select isBr d)) ->
    exists d',
      forEach brStep l d = Ok d' /\
      sublist (refs d') (refs d) /\
      (forall y par t j o,
          In (y, par, t, j, o) (filler_places d) ->
          ~ In y l \/ isInlineWrapper t && o = false ->
          exists o', In (y, par, t, j, o') (filler_places d')) /\
      (forall y par t j o,
          In (y, par, t, j, o) (filler_places d) ->
          In y l -> isInlineWrapper t && o = true ->
          ~ In par (refs d')).
Proof.
  induction l as [| x l IH]; intros d Hwf Hroot Hord Hin.
  - exists d. split; [reflexivity |]. split; [apply sublist_refl |].
    split; [eauto | contradiction].
  - assert (Hl := ordered_NoDup _ Hord).
    apply ordered_cons in Hord. destruct Hord as [Hlt Hord].
    inversion Hl as [| ? ? Hx Hl']; subst.
    destruct (select_locate isBr d x (well_formed_NoDup _ Hwf) (Hin x (or_introl eq_refl)))
      as (p & b & L & Hb).
    destruct (brStep_spec x d p b Hwf Hroot L Hb) as (d1 & E1 & S1 & R1 & F1 & B1 & _).
    destruct (brStep_places x d p b Hwf Hroot L Hb) as (d1' & E1' & Hothers & Hsame & Hgone).
    assert (d1' = d1) by congruence. subst d1'.
    destruct (IH d1) as (d' & E' & S' & Hkept & Hout).
    + eapply ordered_sublist; eassumption.
    + assumption.
    + assumption.
    + intros y Hy. apply B1; [intros ->; contradiction | apply Hin; right; assumption].
    + exists d'. cbn [forEach]. rewrite E1. cbn [bind].
      split; [assumption |]. split; [eapply sublist_trans; eassumption |].
      split.
      * intros y par t j o He Hcase.
        destruct (Nat.eq_dec y x) as [-> | Hyx].
        -- destruct Hcase as [Hcase | Hflag]; [exfalso; apply Hcase; left; reflexivity |].
           rewrite (Hsame _ _ _ _ He Hflag) in *.
           apply (Hkept x par t j o He). left. assumption.
        -- destruct (Hothers y par t j o He Hyx) as (o1 & He1 & Ho1).
           destruct (in_dec Nat.eq_dec y l) as [Hyl | Hyl].
           ++ assert (o1 = o) by (apply Ho1, Hlt; assumption). subst o1.
              apply (Hkept y par t j o He1).
              destruct Hcase as [Hcase | Hflag]; [| right; assumption].
              exfalso. apply Hcase. right. assumption.
           ++ apply (Hkept y par t j o1 He1). left. assumption.
      * intros y par t j o He Hy Hflag.
        destruct Hy as [<- | Hy].
        -- intros Hpar. apply (Hgone _ _ _ _ He Hflag).
           eapply sublist_In; eassumption.
        -- assert (Hyx : y <> x) by (intros ->; contradiction).
           destruct (Hothers y par t j o He Hyx) as (o1 & He1 & Ho1).
           assert (o1 = o) by (apply Ho1, Hlt; assumption). subst o1.
           apply (Hout y par t j o He1 Hy Hflag).
Qed.

(** [normalizeBr] and the filler markers: a marker that is not the only
    child of a recognized inline wrapper stays where it is; one that is
    loses that wrapper. *)
Lemma normalizeBr_places d :
  well_formed d -> is_container d = true ->
  exists d',
    normalizeBr d = Ok d' /\
    sublist (refs d') (refs d) /\
    (forall y par t j o,
        In (y, par, t, j, o) (filler_places d) ->
        if isInlineWrapper t && o
        then ~ In par (refs d')
        else exists o', In (y, par, t, j, o') (filler_places d')).
Proof.
  intros Hwf Hroot. rewrite normalizeBr_forEach.
  rewrite select_querySelectorAll by (apply is_container_not_br; assumption).
  destruct (forEach_brStep_places (select isBr d) d Hwf Hroot) as (d' & E & S & Hkept & Hout).
  - eapply ordered_sublist; [apply select_sublist | exact Hwf].
  - auto.
  - exists d'. split; [assumption |]. split; [assumption |].
    intros y par t j o He.
    destruct (isInlineWrapper t && o) eqn:Hflag.
    + apply (Hout y par t j o He); [| assumption].
      apply (filler_places_isBr d _ Hroot He).
    + apply (Hkept y par t j o He). right. assumption.
Qed.

Lemma remove_spacer_places d r x par t j o :
  NoDup (refs d) -> spacer_at d r ->
  In (x, par, t, j, o) (filler_places d) ->
  exists j' o', j' <= j /\ In (x, par, t, j', o') (filler_places (remove r d)).
Proof.
  intros Hnd (f & q & n & L & S). rewrite (remove_located _ _ _ _ _ Hnd L).
  destruct (locate_sound _ _ _ _ L) as [<- _].
  apply filler_places_drop. assumption.
Qed.

Lemma reducePairs_places k :
  forall l d x par t j o,
    length l <= k -> NoDup l -> NoDup (refs d) ->
    (forall r, In r l -> spacer_at d r) ->
    In (x, par, t, j, o) (filler_places d) ->
    exists j' o', j' <= j /\ In (x, par, t, j', o') (filler_places (reducePairs l d)).
Proof.
  induction k as [| k IH]; intros l d x par t j o Hk Hl Hnd Hs He.
  - destruct l; [| simpl in Hk; lia]. exists j, o. split; [lia | assumption].
  - destruct l as [| first rest]; [exists j, o; split; [lia | assumption] |].
    assert (Hfirst : spacer_at d first) by (apply Hs; left; reflexivity).
    assert (N1 : NoDup (refs (remove first d)))
      by (eapply sublist_NoDup; [apply refs_remove_sublist | assumption]).
    destruct (remove_spacer_places d first x par t j o Hnd Hfirst He) as (j1 & o1 & Hj1 & He1).
    inversion Hl as [| ? ? Hx Hl']; subst.
    assert (Hrest : forall r, In r rest -> spacer_at (remove first d) r).
    { intros r Hr. apply spacer_at_remove; auto.
      - apply Hs. right. assumption.
      - intros ->. contradiction. }
    assert (Hgo : forall l', (forall r, In r l' -> In r rest) -> NoDup l' -> length l' <= k ->
                exists j' o', j' <= j /\
                  In (x, par, t, j', o') (filler_places (reducePairs l' (remove first d)))).
    { intros l' Hsub Hnd' Hlen.
      destruct (IH l' (remove first d) x par t j1 o1 Hlen Hnd' N1) as (j' & o' & Hj' & H').
      - intros r Hr. apply Hrest, Hsub, Hr.
      - assumption.
      - exists j', o'. split; [lia | assumption]. }
    cbn [reducePairs]. destruct rest as [| second rest'].
    + exists j1, o1. split; assumption.
    + inversion Hl' as [| ? ? Hx' Hl'']; subst. simpl in Hk.
      destruct (adjacent d first second).
      * apply Hgo; [intros r Hr; right; assumption | assumption | lia].
      * apply Hgo; [auto | assumption | simpl; lia].
Qed.

(** ** Comparing markup *)

Lemma attrs_eqb_eq a b : attrs_eqb a b = true <-> a = b.
Proof.
  revert b. induction a as [| [k v] a IH]; intros [| [k' v'] b]; simpl;
    try (split; [discriminate | congruence]); [tauto |].
  rewrite !andb_true_iff, !String.eqb_eq, IH. split.
  - intros [[-> ->] ->]. reflexivity.
  - intros H. inversion H. auto.
Qed.

Lemma html_eqb_eq h : forall h', html_eqb h h' = true <-> h = h'.
Proof.
  induction h as [s | a | t a cs IH] using html_induction; intros [s' | a' | t' a' cs'];
    simpl; try (split; [discriminate | congruence]).
  - rewrite String.eqb_eq. split; congruence.
  - rewrite attrs_eqb_eq. split; congruence.
  - rewrite !andb_true_iff, String.eqb_eq, attrs_eqb_eq.
    assert (Hcs : (fix all (l l' : list html) {struct l} : bool :=
                     match l, l' with
                     | [], [] => true
                     | c :: r, c' :: r' => html_eqb c c' && all r r'
                     | _, _ => false
                     end) cs cs' = true <-> cs = cs').
    { clear t a t' a'. revert cs'.
      induction IH as [| c cs Hc Hcs IHcs]; intros [| c' cs'];
        try (split; [discriminate | congruence]); [tauto |].
      rewrite andb_true_iff, Hc, IHcs. split.
      - intros [-> ->]. reflexivity.
      - intros H. inversion H. auto. }
    rewrite Hcs. split.
    + intros [[-> ->] ->]. reflexivity.
    + intros H. inversion H. auto.
Qed.

Lemma markup_eqb_eq v : forall v', markup_eqb v v' = true <-> v = v'.
Proof.
  induction v as [| c v IH]; intros [| c' v']; simpl;
    try (split; [discriminate | congruence]); [tauto |].
  rewrite andb_true_iff, html_eqb_eq, IH. split.
  - intros [-> ->]. reflexivity.
  - intros H. inversion H. auto.
Qed.

(** The passes return the markup they were given exactly when there was
    nothing for them to do. *)
Lemma markup_unchanged_at_rest v d' :
  normalizeDiv (createDiv v) = Ok d' -> markup_eqb v (innerHTML d') = at_rest v.
Proof.
  intros E. assert (N := normalized_innerHTML v d' E).
  destruct (at_rest v) eqn:Ha.
  - apply at_rest_fixed in Ha. apply markup_eqb_eq. congruence.
  - destruct (markup_eqb v (innerHTML d')) eqn:Em; [| reflexivity].
    apply markup_eqb_eq in Em. rewrite <- Em in N.
    apply fixed_at_rest in N. congruence.
Qed.

(** With the text control out of view, this is [normalizeLegacyMessage]. *)
Lemma normalizeLegacyMessage_control_page
    (resource : Type) (loads : list html -> list resource) w c :
  (fst (fst (fst (normalizeLegacyMessage_control loads w c))),
   snd (fst (fst (normalizeLegacyMessage_control loads w c)))) =
  normalizeLegacyMessage w.
Proof.
  unfold normalizeLegacyMessage_control, normalizeLegacyMessage.
  destruct (element w) as [t | ? ? ?]; [| reflexivity].
  cbv zeta. destruct (normalizeDiv (createDiv (value t))); reflexivity.
Qed.

(** * The claims *)

(** ** Runs of spacer paragraphs *)

(** C3.  In the list the scanner hands to [reduceSpacerParagraphs], take any
    maximal run: entries that each are the next element sibling of the entry
    before ([chained]), with neither the entry before the run nor the entry
    after it adjacent to it ([joined]).  The reducer returns, and of the [n]
    paragraphs of the run exactly [n / 2] (rounded down) are still in the
    tree: none of 1, one of 2, one of 3, two of 4, two of 5.  Two spacer
    paragraphs with another element between them are not adjacent, so each is
    a run of its own and none of them is left. *)
Theorem reduceSpacerParagraphs_halves_runs (d : node) (l1 run l2 : list ref) :
  well_formed d ->
  getPossibleSpacerParagraphs d = l1 ++ run ++ l2 ->
  chained (adjacent d) run = true ->
  joined (adjacent d) l1 run = false ->
  joined (adjacent d) run l2 = false ->
  exists d',
    reduceSpacerParagraphs (getPossibleSpacerParagraphs d) d = Ok d' /\
    length (filter (contains d') run) = length run / 2.
Proof.
  intros Hwf El Hc H1 H2.
  assert (Hnd := well_formed_NoDup _ Hwf).
  assert (Hord : ordered (getPossibleSpacerParagraphs d)).
  { eapply ordered_sublist; [apply getPossibleSpacerParagraphs_sublist | exact Hwf]. }
  assert (Hl := ordered_NoDup _ Hord).
  exists (reducePairs (getPossibleSpacerParagraphs d) d).
  split; [apply reduceSpacerParagraphs_pairs; assumption |].
  rewrite <- (kept_chained (adjacent d) run Hc).
  rewrite <- (kept_run (adjacent d) l1 run l2); try assumption;
    [| rewrite <- El; assumption].
  f_equal. apply filter_ext_in. intros r Hr. rewrite <- El.
  apply (reducePairs_contains d _ Hwf _ d (le_n _) Hord Hnd).
  - intros x Hx. apply settled_refl.
    apply getPossibleSpacerParagraphs_spacer_at; assumption.
  - rewrite El. apply in_or_app. right. apply in_or_app. left. assumption.
Qed.

Lemma reduceSpacerParagraphs_halves_runs_witness :
  exists d',
    reduceSpacerParagraphs (getPossibleSpacerParagraphs (createDiv three_spacers))
      (createDiv three_spacers) = Ok d' /\
    length (filter (contains d') [3; 5; 7]) = 3 / 2.
Proof.
  apply (reduceSpacerParagraphs_halves_runs (createDiv three_spacers) [] [3; 5; 7] []).
  - apply well_formed_createDiv.
  - reflexivity.
  - reflexivity.
  - reflexivity.
  - reflexivity.
Defined.

Example run_of_1 : normalized [pid "a" [br]] = Some [].
Proof. reflexivity. Qed.

Example run_of_2 : normalized [pid "a" [br]; pid "b" [br]] = Some [pid "b" [br]].
Proof. reflexivity. Qed.

Example run_of_4 :
  normalized [pid "a" [br]; pid "b" [br]; pid "c" [br]; pid "d" [br]]
  = Some [pid "b" [br]; pid "d" [br]].
Proof. reflexivity. Qed.

Example run_of_5 :
  normalized [pid "a" [br]; pid "b" [br]; pid "c" [br]; pid "d" [br]; pid "e" [br]]
  = Some [pid "b" [br]; pid "d" [br]].
Proof. reflexivity. Qed.

Example separated_spacers :
  normalized [pid "a" [br]; HElement "HR" [] []; pid "b" [br]] = Some [HElement "HR" [] []].
Proof. reflexivity. Qed.

(** C2.  Stated for the reducer: the paragraphs that survive a run are its
    trailing [n / 2] members.  The loop keeps every second member instead:
    of a run of three the second paragraph is the one left, not the third. *)
Theorem run_of_three_keeps_the_middle :
  normalized [pid "a" [br]; pid "b" [br]; pid "c" [br]] = Some [pid "b" [br]].
Proof. reflexivity. Qed.

(** C10.  With pairwise distinct entries the look-ahead of
    [reduceSpacerParagraphs] never counts past 1: the candidate stays
    [paragraphs[i]], whose next element sibling cannot be both of the two
    entries that follow.  So the branch for a non-zero even offset is never
    taken, and the reducer removes the first member of each adjacent pair and
    any entry without an adjacent successor ([reducePairs]). *)
Theorem reduceSpacerParagraphs_pairwise (paragraphs : list ref) (d : node) :
  NoDup paragraphs ->
  (forall fuel i candidate offset,
      nth_error paragraphs i = Some candidate ->
      adjacentOffset fuel paragraphs d candidate i 0 = Ok offset ->
      offset <= 1 /\ ((offset =? 0) || (offset mod 2 =? 1) = true)) /\
  reduceSpacerParagraphs paragraphs d = Ok (reducePairs paragraphs d).
Proof.
  intros Hnd. split; [| apply reduceSpacerParagraphs_pairs; assumption].
  intros fuel i candidate offset _ H.
  apply adjacentOffset_le_1 in H; [| assumption].
  split; [assumption |].
  destruct offset as [| [| offset]]; [reflexivity | reflexivity | lia].
Qed.

Lemma NoDup_3_5_7 : NoDup [3; 5; 7].
Proof. repeat constructor; simpl; lia. Qed.

Lemma reduceSpacerParagraphs_pairwise_witness :
  (forall fuel i candidate offset,
      nth_error [3; 5; 7] i = Some candidate ->
      adjacentOffset fuel [3; 5; 7] (createDiv three_spacers) candidate i 0 = Ok offset ->
      offset <= 1 /\ ((offset =? 0) || (offset mod 2 =? 1) = true)) /\
  reduceSpacerParagraphs [3; 5; 7] (createDiv three_spacers)
  = Ok (reducePairs [3; 5; 7] (createDiv three_spacers)).
Proof.
  apply (reduceSpacerParagraphs_pairwise [3; 5; 7] (createDiv three_spacers)).
  apply NoDup_3_5_7.
Defined.

(** ** The call as a whole *)

(** C7.  [normalizeLegacyMessage] throws exactly when its argument is not a
    textarea, and when it throws nothing has changed: the check comes before
    any parsing or mutation, and on a textarea no later step throws. *)
Theorem normalizeLegacyMessage_throws_iff (w : page) :
  ((exists e, fst (normalizeLegacyMessage w) = Threw e) <->
   isTextArea (element w) = false) /\
  (forall e, fst (normalizeLegacyMessage w) = Threw e ->
             snd (normalizeLegacyMessage w) = w).
Proof.
  destruct w as [[t | tag props content] doc].
  - destruct (normalizeLegacyMessage_textarea t doc) as (div' & _ & E).
    rewrite E. simpl. split.
    + split; [intros [e H]; discriminate | discriminate].
    + intros e H. discriminate.
  - simpl. split.
    + split; [reflexivity | eauto].
    + reflexivity.
Qed.

(** Selected text does not stay selected when the value changes, whatever
    else the call sets off. *)
Lemma only_sets_value_fails : ~ only_sets_value.
Proof.
  intros H.
  destruct (H string (fun _ => []) message_page message_control _ _ _ eq_refl)
    as (_ & Hs & _).
  discriminate.
Qed.

(** C9, amended.  When the call returns, the argument is a textarea and
    nothing is returned.  Its value now is the serialized content of the
    working [div] after the passes and is marked dirty; its attributes and
    the document are as before.  The selection is as before exactly when the
    text of the value did not change, which is when the old text was in
    serialized form and the passes found nothing to do; otherwise nothing is
    selected any more and the cursor is at the end of the text.  Besides, the
    call has started whatever loading the platform starts for the markup of
    the old value, and nothing else. *)
Theorem normalizeLegacyMessage_value_and_selection
    (resource : Type) (loads : list html -> list resource) (w : page) (c : controlState) :
  fst (fst (fst (normalizeLegacyMessage_control loads w c))) = Returned ->
  exists t div',
    element w = HTMLTextAreaElement t /\
    normalizeDiv (createDiv (value t)) = Ok div' /\
    normalizeLegacyMessage_control loads w c =
    (Returned,
     Page (HTMLTextAreaElement (TextArea (innerHTML div') (properties t))) (document w),
     ControlState
       (if serialized c && at_rest (value t) then control_selection c else CursorAtEnd)
       true true,
     loads (value t)).
Proof.
  destruct w as [[t | tag props content] doc]; [| discriminate].
  intros _. destruct (normalizeDiv_createDiv (value t)) as (div' & E & _).
  exists t, div'. split; [reflexivity |]. split; [assumption |].
  unfold normalizeLegacyMessage_control. cbn [element document]. rewrite E.
  unfold value_assigned. rewrite (markup_unchanged_at_rest _ _ E). reflexivity.
Qed.

Lemma normalizeLegacyMessage_value_and_selection_witness :
  exists t div',
    element message_page = HTMLTextAreaElement t /\
    normalizeDiv (createDiv (value t)) = Ok div' /\
    normalizeLegacyMessage_control (flat_map image_sources) message_page message_control =
    (Returned,
     Page (HTMLTextAreaElement (TextArea (innerHTML div') (properties t)))
          (document message_page),
     ControlState
       (if serialized message_control && at_rest (value t)
        then control_selection message_control else CursorAtEnd)
       true true,
     flat_map image_sources (value t)).
Proof.
  apply (normalizeLegacyMessage_value_and_selection
           string (flat_map image_sources) message_page message_control).
  reflexivity.
Defined.

Example message_control_normalized :
  normalizeLegacyMessage_control (flat_map image_sources) message_page message_control =
  (Returned,
   Page (HTMLTextAreaElement (TextArea [p [HText "a"]] [("name", "message")]))
        [HElement "FORM" [] []],
   ControlState CursorAtEnd true true,
   []) /\
  normalizeLegacyMessage_control (flat_map image_sources)
    (Page (HTMLTextAreaElement
             (TextArea [p [HText "a"; HElement "IMG" [("src", "a.png")] []]] [])) [])
    message_control =
  (Returned,
   Page (HTMLTextAreaElement
           (TextArea [p [HText "a"; HElement "IMG" [("src", "a.png")] []]] [])) [],
   ControlState (Range 0 3 Forward) true true,
   ["a.png"]).
Proof. split; reflexivity. Qed.

Example filler_parents_nested :
  filler_parents (createDiv [p [HText "x"; filler]; p [HElement "B" [] [filler]]])
  = [(3, 1, "P"); (6, 5, "B")].
Proof. reflexivity. Qed.

Example message_page_normalized :
  normalizeLegacyMessage message_page =
  (Returned,
   Page (HTMLTextAreaElement (TextArea [p [HText "a"]] [("name", "message")]))
        [HElement "FORM" [] []]).
Proof. reflexivity. Qed.

(** ** Filler markers *)

(** A filler marker alone in a [<b>] is unwrapped like any other marker. *)
Lemma fillers_stay_in_place_fails : ~ (forall v, fillers_stay_in_place v).
Proof.
  intros H.
  specialize (H [p [HElement "B" [] [filler]]] _ eq_refl 3 (or_introl eq_refl)).
  discriminate.
Qed.

(** C1, amended.  No filler marker is deleted: the filler markers of the
    tree after the passes are those of the parsed input, in the same
    document order.  A filler marker keeps its parent unless, in the parsed
    input, it is the only child of a recognized inline wrapper: then
    [unwrapBr], which has no guard for filler markers, moves it out and the
    wrapper is removed from the tree.  A marker that keeps its parent also
    keeps the number of child nodes before it through [normalizeBr]; the
    reducer can only lower that number, by removing spacer paragraphs that
    stand before the marker under the same parent. *)
Theorem fillers_survive (t : textarea) (doc : list html) :
  exists d1 div',
    normalizeBr (createDiv (value t)) = Ok d1 /\
    normalizeDiv (createDiv (value t)) = Ok div' /\
    normalizeLegacyMessage (Page (HTMLTextAreaElement t) doc) =
    (Returned, Page (HTMLTextAreaElement (TextArea (innerHTML div') (properties t))) doc) /\
    select isFiller div' = select isFiller (createDiv (value t)) /\
    (forall x parent tag index only,
        In (x, parent, tag, index, only) (filler_places (createDiv (value t))) ->
        if isInlineWrapper tag && only
        then ~ In parent (refs div')
        else (exists only1, In (x, parent, tag, index, only1) (filler_places d1)) /\
             (exists index' only',
                 index' <= index /\
                 In (x, parent, tag, index', only') (filler_places div'))).
Proof.
  assert (Hwf := well_formed_createDiv (value t)).
  assert (Hroot : is_container (createDiv (value t)) = true) by reflexivity.
  destruct (normalizeBr_places _ Hwf Hroot) as (d1 & E1 & S1 & Hplaces).
  destruct (normalizeDiv_createDiv (value t)) as (d' & E & F & _).
  destruct (normalizeLegacyMessage_textarea t doc) as (d'' & E' & R).
  assert (d'' = d') by congruence. subst d''.
  assert (Hwf1 : well_formed d1) by (eapply ordered_sublist; eassumption).
  assert (Hnd1 := well_formed_NoDup _ Hwf1).
  assert (Hl : NoDup (getPossibleSpacerParagraphs d1)).
  { eapply sublist_NoDup; [apply getPossibleSpacerParagraphs_sublist | assumption]. }
  assert (Ed' : d' = reducePairs (getPossibleSpacerParagraphs d1) d1).
  { revert E. unfold normalizeDiv. rewrite E1. cbn [bind].
    rewrite reduceSpacerParagraphs_pairs by assumption. congruence. }
  assert (Hs : forall r, In r (getPossibleSpacerParagraphs d1) -> spacer_at d1 r).
  { intros r. apply getPossibleSpacerParagraphs_spacer_at. assumption. }
  exists d1, d'. repeat (split; [assumption |]).
  intros x parent tag index only He. specialize (Hplaces x parent tag index only He).
  destruct (isInlineWrapper tag && only).
  - intros Hin. apply Hplaces. rewrite Ed' in Hin.
    destruct (reducePairs_frame _ _ d1 (le_n _) Hl Hnd1 Hs) as (_ & S2 & _).
    eapply sublist_In; eassumption.
  - split; [assumption |]. destruct Hplaces as (o1 & He1). rewrite Ed'.
    apply (reducePairs_places _ _ d1 x parent tag index o1 (le_n _) Hl Hnd1 Hs He1).
Qed.

(** The place among the siblings is not kept in general: a spacer paragraph
    before a filler marker goes, and the marker moves up. *)
Lemma filler_index_can_drop :
  exists v d' x,
    normalizeDiv (createDiv v) = Ok d' /\
    parent_and_index x (createDiv v) = Some (0, 1) /\
    parent_and_index x d' = Some (0, 0).
Proof. exists [p [br]; filler], (Element 0 "DIV" [] [Br 3 [("data-cke-filler", "true")]]), 3. repeat split. Qed.

Example filler_places_nested :
  filler_places (createDiv [p [HText "x"; filler]; p [HElement "B" [] [filler]]]) =
  [(3, 1, "P", 1, false); (6, 5, "B", 0, true)].
Proof. reflexivity. Qed.

(** ** Running the normalizer again *)


Example trailing_markers_twice :
  normalized [HElement "TD" [] [HText "x"; br; br]] = Some [HElement "TD" [] [HText "x"; br]] /\
  normalized [HElement "TD" [] [HText "x"; br]] = Some [HElement "TD" [] [HText "x"]].
Proof. split; reflexivity. Qed.



(** ** Trailing markers *)

Lemma remove_detaches d x f q n :
  NoDup (refs d) -> locate x d = Some (f :: q, n) -> contains (remove x d) x = false.
Proof.
  intros Hnd L. apply contains_false. rewrite (remove_located _ _ _ _ _ Hnd L).
  destruct (locate_sound _ _ _ _ L) as [<- <-].
  apply NoDup_plug_hole in Hnd. destruct Hnd as [_ Hnd].
  destruct (Hnd _ (node_ref_in_refs n)) as [Hb Ha]. simpl in Hb, Ha.
  rewrite in_app_iff in Hb, Ha. simpl in Hb.
  rewrite refs_plug. unfold close. simpl.
  fold (refs_of (f_before f ++ f_after f)). rewrite refs_of_app.
  rewrite !in_app_iff. simpl. rewrite !in_app_iff. tauto.
Qed.

(** C5.  For a marker that is not a filler, with [c] its nearest enclosing
    paragraph or table cell and the marker the last node of [c]
    ([isAtNodeEnd]): in a paragraph with one child node the marker stays; in
    a paragraph with two or more child nodes it is removed; in a table cell
    it is removed whatever the number of child nodes.  Without such a [c], or
    when the marker is not last in it, the tree is left as it is. *)
Theorem removeTrailingBr_scope (d : node) (br : ref) :
  NoDup (refs d) ->
  In br (select isBr d) ->
  dataset_ckeFiller br d = false ->
  (forall c, closest matches_p_td br d = Some c ->
             isAtNodeEnd br (node_ref c) d = true ->
             (tagName c = "P" -> length (childNodes c) = 1 ->
              removeTrailingBr br d = d /\ contains (removeTrailingBr br d) br = true) /\
             (tagName c = "P" -> 2 <= length (childNodes c) ->
              removeTrailingBr br d = remove br d /\
              contains (removeTrailingBr br d) br = false) /\
             (tagName c = "TD" ->
              removeTrailingBr br d = remove br d /\
              contains (removeTrailingBr br d) br = false)) /\
  (closest matches_p_td br d = None -> removeTrailingBr br d = d) /\
  (forall c, closest matches_p_td br d = Some c ->
             isAtNodeEnd br (node_ref c) d = false -> removeTrailingBr br d = d).
Proof.
  intros Hnd Hbr Hf.
  destruct (select_locate isBr d br Hnd Hbr) as (path & b & L & Hb).
  rewrite removeTrailingBr_trailing. unfold trailing. rewrite Hf. simpl.
  split; [| split].
  - intros c Hc He. rewrite Hc, He. simpl.
    assert (Hp : exists f q, path = f :: q).
    { unfold closest in Hc. rewrite L in Hc. destruct path as [| f q]; [| eauto].
      simpl in Hc. apply isBr_inv in Hb. destruct Hb as (i & a & ->). discriminate. }
    destruct Hp as (f & q & ->).
    assert (Hgone := remove_detaches d br f q b Hnd L).
    assert (Hin : contains d br = true) by (unfold contains; rewrite L; reflexivity).
    split; [| split].
    + intros Ht Hn. rewrite Ht, Hn. simpl. auto.
    + intros Ht Hn. rewrite Ht. simpl.
      replace (1 <? length (childNodes c)) with true
        by (symmetry; apply Nat.ltb_lt; lia).
      auto.
    + intros Ht. rewrite Ht. simpl. auto.
  - intros Hc. rewrite Hc. reflexivity.
  - intros c Hc He. rewrite Hc, He. reflexivity.
Qed.

Lemma removeTrailingBr_scope_witness :
  (forall c, closest matches_p_td 5 trailing_cases = Some c ->
             isAtNodeEnd 5 (node_ref c) trailing_cases = true ->
             (tagName c = "P" -> length (childNodes c) = 1 ->
              removeTrailingBr 5 trailing_cases = trailing_cases /\
              contains (removeTrailingBr 5 trailing_cases) 5 = true) /\
             (tagName c = "P" -> 2 <= length (childNodes c) ->
              removeTrailingBr 5 trailing_cases = remove 5 trailing_cases /\
              contains (removeTrailingBr 5 trailing_cases) 5 = false) /\
             (tagName c = "TD" ->
              removeTrailingBr 5 trailing_cases = remove 5 trailing_cases /\
              contains (removeTrailingBr 5 trailing_cases) 5 = false)) /\
  (closest matches_p_td 5 trailing_cases = None ->
   removeTrailingBr 5 trailing_cases = trailing_cases) /\
  (forall c, closest matches_p_td 5 trailing_cases = Some c ->
             isAtNodeEnd 5 (node_ref c) trailing_cases = false ->
             removeTrailingBr 5 trailing_cases = trailing_cases).
Proof.
  apply (removeTrailingBr_scope trailing_cases 5).
  - apply well_formed_NoDup, well_formed_createDiv.
  - vm_compute. intuition.
  - reflexivity.
Defined.

Example removeTrailingBr_cases :
  map serialize (childNodes (removeTrailingBr 2 trailing_cases))
  = [p [br]; p [HText "x"; br]; HElement "TD" [] [br]; br] /\
  map serialize (childNodes (removeTrailingBr 5 trailing_cases))
  = [p [br]; p [HText "x"]; HElement "TD" [] [br]; br] /\
  map serialize (childNodes (removeTrailingBr 7 trailing_cases))
  = [p [br]; p [HText "x"; br]; HElement "TD" [] []; br] /\
  map serialize (childNodes (removeTrailingBr 8 trailing_cases))
  = [p [br]; p [HText "x"; br]; HElement "TD" [] [br]; br].
Proof. repeat split. Qed.

(** ** Unwrapping *)

Lemma unwrapBr_through wrappers a rest b :
  forall fuel,
    NoDup (refs (plug (wrappers ++ a :: rest) b)) ->
    Forall lone_wrapper wrappers ->
    isInlineWrapper (f_tag a) = false ->
    length wrappers < fuel ->
    unwrapBr fuel (node_ref b) (plug (wrappers ++ a :: rest) b)
    = Ok (plug (a :: rest) b).
Proof.
  induction wrappers as [| w ws IH]; intros fuel Hnd Hw Ha Hfuel.
  - destruct fuel as [| fuel]; [lia |]. simpl app in *.
    assert (L := locate_plug _ _ Hnd).
    cbn [unwrapBr]. rewrite (has_sibling_alone _ _ _ _ _ L).
    unfold parentElement. rewrite L. cbn [tagName fill]. rewrite Ha.
    destruct (alone a); reflexivity.
  - destruct fuel as [| fuel]; [simpl in Hfuel; lia |].
    inversion Hw as [| ? ? (Hwt & Hwb & Hwa) Hws]; subst.
    change ((w :: ws) ++ a :: rest) with (w :: (ws ++ a :: rest)) in *.
    assert (L := locate_plug _ _ Hnd).
    assert (Hal : alone w = true) by (unfold alone; rewrite Hwb, Hwa; reflexivity).
    cbn [unwrapBr]. rewrite (has_sibling_alone _ _ _ _ _ L), Hal.
    unfold parentElement. rewrite L. cbn [negb tagName fill node_ref]. rewrite Hwt.
    assert (Hnd' : NoDup (refs (plug (ws ++ a :: rest) b))).
    { eapply sublist_NoDup; [apply refs_pop_sublist | exact Hnd]. }
    assert (E : exists g rest', ws ++ a :: rest = g :: rest')
      by (destruct ws; simpl; eauto).
    destruct E as (g & rest' & E).
    rewrite E in Hnd |- *. rewrite unwrap_step by assumption.
    rewrite <- E. apply IH; try assumption.
    simpl in Hfuel. lia.
Qed.

Lemma refs_before_app p q : refs_before (p ++ q) = refs_before q ++ refs_before p.
Proof.
  induction p as [| f p IH]; simpl; [rewrite app_nil_r; reflexivity |].
  rewrite IH, <- app_assoc. reflexivity.
Qed.

Lemma refs_after_app p q : refs_after (p ++ q) = refs_after p ++ refs_after q.
Proof.
  induction p as [| f p IH]; simpl; [reflexivity |].
  rewrite IH, <- app_assoc. reflexivity.
Qed.

Lemma frame_ref_in_before w p : In w p -> In (f_ref w) (refs_before p).
Proof.
  induction p as [| f p IH]; simpl; [contradiction |].
  intros [-> | H]; apply in_or_app; [right; left; reflexivity | left; auto].
Qed.

(** C6.  A marker inside a chain of recognized inline wrappers, each the
    only child of its parent, below an element [a] that is not a recognized
    inline wrapper (the root [div] when every other ancestor is one): the
    loop of [unwrapBr] ends as soon as it may run one more time than there
    are wrappers, the marker then is a child of [a] in the place the outermost
    wrapper had, and the wrappers are gone from the tree. *)
Theorem unwrapBr_reaches_container
    (wrappers : list frame) (a : frame) (rest : list frame)
    (i : ref) (attributes : attrs) (fuel : nat) :
  NoDup (refs (plug (wrappers ++ a :: rest) (Br i attributes))) ->
  Forall lone_wrapper wrappers ->
  isInlineWrapper (f_tag a) = false ->
  length wrappers < fuel ->
  exists d',
    unwrapBr fuel i (plug (wrappers ++ a :: rest) (Br i attributes)) = Ok d' /\
    d' = plug (a :: rest) (Br i attributes) /\
    parentElement i d' = Some (fill a (Br i attributes)) /\
    Forall (fun w => contains d' (f_ref w) = false) wrappers.
Proof.
  intros Hnd Hw Ha Hfuel.
  exists (plug (a :: rest) (Br i attributes)).
  split; [apply (unwrapBr_through wrappers a rest (Br i attributes)); assumption |].
  split; [reflexivity |].
  assert (Hnd' : NoDup (refs (plug (a :: rest) (Br i attributes)))).
  { clear Hw Hfuel. induction wrappers as [| w ws IH]; [assumption |].
    apply IH. eapply sublist_NoDup; [apply refs_pop_sublist | exact Hnd]. }
  split.
  - unfold parentElement.
    assert (L := locate_plug (a :: rest) (Br i attributes) Hnd').
    change (node_ref (Br i attributes)) with i in L. rewrite L. reflexivity.
  - clear Hfuel Hw Hnd'. rewrite Forall_forall. intros w Hin. apply contains_false.
    apply frame_ref_in_before in Hin.
    rewrite refs_plug, refs_before_app, refs_after_app, <- !app_assoc in Hnd.
    rewrite refs_plug.
    remember (refs_before (a :: rest)) as RB. remember (refs_after (a :: rest)) as RA.
    apply NoDup_app_inv in Hnd. destruct Hnd as (_ & Hnd & D1).
    apply NoDup_app_inv in Hnd. destruct Hnd as (_ & _ & D2).
    intros Hr. rewrite !in_app_iff in Hr. destruct Hr as [Hr | Hr].
    + apply (D1 _ Hr). apply in_or_app. left. assumption.
    + apply (D2 _ Hin). rewrite !in_app_iff. tauto.
Qed.

Lemma unwrapBr_reaches_container_witness :
  exists d',
    unwrapBr 3 4 (plug (nested_wrappers ++ [Frame 1 "P" [] [] []; Frame 0 "DIV" [] [] []])
                       (Br 4 [])) = Ok d' /\
    d' = plug [Frame 1 "P" [] [] []; Frame 0 "DIV" [] [] []] (Br 4 []) /\
    parentElement 4 d' = Some (fill (Frame 1 "P" [] [] []) (Br 4 [])) /\
    Forall (fun w => contains d' (f_ref w) = false) nested_wrappers.
Proof.
  apply (unwrapBr_reaches_container nested_wrappers (Frame 1 "P" [] [] [])
           [Frame 0 "DIV" [] [] []] 4 [] 3).
  - simpl. repeat constructor; simpl; lia.
  - repeat constructor.
  - reflexivity.
  - simpl. lia.
Defined.

Example unwrapBr_nested :
  unwrapBr 3 4 (createDiv [p [HElement "B" [] [HElement "I" [] [br]]]])
  = Ok (Element 0 "DIV" [] [Element 1 "P" [] [Br 4 []]]).
Proof. reflexivity. Qed.

(** ** The scanner *)

(** A table cell holding one marker is not found. *)
Lemma scanner_skips_table_cells :
  getPossibleSpacerParagraphs (createDiv [HElement "TD" [] [br]])
  <> spacer_containers (createDiv [HElement "TD" [] [br]]).
Proof. discriminate. Qed.

Lemma only_child_is_marker_spacer n :
  only_child_is_marker n = true -> isPossibleSpacer n = true.
Proof.
  unfold only_child_is_marker, isPossibleSpacer, childElementCount, children.
  destruct (childNodes n) as [| c [| c' l]]; try discriminate.
  intros H. destruct c; try discriminate. exact H.
Qed.

(** C8, amended.  [getPossibleSpacerParagraphs] only reads the tree and
    returns paragraphs, never table cells, in document order: every [p] below
    the root whose only child node is a marker that is not a filler is in the
    list, and every entry of the list is a [p] below the root whose only
    element child is such a marker. *)
Theorem getPossibleSpacerParagraphs_paragraphs (d : node) :
  sublist (getPossibleSpacerParagraphs d) (map node_ref (descendants d)) /\
  (forall n, In n (descendants d) ->
             matches_p n = true -> only_child_is_marker n = true ->
             In (node_ref n) (getPossibleSpacerParagraphs d)) /\
  (forall r, In r (getPossibleSpacerParagraphs d) ->
             exists n c, In n (descendants d) /\ node_ref n = r /\
                         matches_p n = true /\ children n = [c] /\
                         isBr c = true /\ ckeFiller c = false).
Proof.
  split; [| split].
  - unfold getPossibleSpacerParagraphs, querySelectorAll.
    eapply sublist_trans; apply sublist_map_filter.
  - intros n Hn Hp Hm. apply getPossibleSpacerParagraphs_In. exists n.
    unfold spacer. rewrite Hp, (only_child_is_marker_spacer n Hm). auto.
  - intros r Hr. apply getPossibleSpacerParagraphs_In in Hr.
    destruct Hr as (n & Hn & Hs & Hr). unfold spacer in Hs.
    apply andb_prop in Hs. destruct Hs as [Hp Hs].
    unfold isPossibleSpacer, childElementCount in Hs.
    destruct (children n) as [| c [| c' l]] eqn:E; try discriminate.
    simpl in Hs. apply andb_prop in Hs. destruct Hs as [Hb Hf].
    apply negb_true_iff in Hf. exists n, c. auto 10.
Qed.

Example scanner_in_document_order :
  getPossibleSpacerParagraphs
    (createDiv [p [br]; HElement "TD" [] [br]; p [filler]; HElement "DIV" [] [p [br]]])
  = [1; 8].
Proof. reflexivity. Qed.

(** * Further properties of the normalizer *)

(** ** The passes as sequences of edits *)

Lemma steps_one R d d' : R d d' -> steps R d d'.
Proof. intros H. eapply steps_cons; [exact H | apply steps_nil]. Qed.

Lemma steps_trans R d1 d2 d3 : steps R d1 d2 -> steps R d2 d3 -> steps R d1 d3.
Proof.
  intros H12 H23. induction H12 as [| a b c Hab Hbc IH]; [assumption |].
  eapply steps_cons; [exact Hab | apply IH; assumption].
Qed.

Lemma steps_unwrapped p i a :
  steps unwraps_or_strips (plug p (Br i a)) (plug (unwrapped p) (Br i a)).
Proof.
  induction p as [| f p IH]; [apply steps_nil |].
  destruct p as [| g p]; [apply steps_nil |].
  rewrite unwrapped_cons2.
  destruct (alone f && isInlineWrapper (f_tag f)) eqn:E; [| apply steps_nil].
  apply andb_prop in E. destruct E as [Ha Hw].
  eapply steps_cons; [apply edit_unwrap; assumption | exact IH].
Qed.

Lemma brStep_steps x d p b :
  well_formed d -> is_container d = true ->
  locate x d = Some (p, b) -> isBr b = true ->
  exists d', brStep x d = Ok d' /\ steps unwraps_or_strips d d'.
Proof.
  intros Hwf Hroot L Hb.
  destruct (locate_sound _ _ _ _ L) as [Ed Ex]. subst d x.
  apply isBr_inv in Hb. destruct Hb as (i & a & ->).
  destruct (brStep_shape p i a (well_formed_NoDup _ Hwf) Hroot) as (f & q & Eq & E).
  eexists. split; [exact E |].
  eapply steps_trans; [apply steps_unwrapped |]. rewrite Eq.
  destruct (strips (f :: q) (Br i a)) eqn:Es; [| apply steps_nil].
  apply steps_one, edit_strip. assumption.
Qed.

Lemma forEach_brStep_steps l d :
  well_formed d -> is_container d = true -> NoDup l ->
  (forall x, In x l -> In x (select isBr d)) ->
  exists d', forEach brStep l d = Ok d' /\ steps unwraps_or_strips d d'.
Proof.
  revert d. induction l as [| x l IH]; intros d Hwf Hroot Hl Hin.
  - exists d. split; [reflexivity | apply steps_nil].
  - inversion Hl as [| ? ? Hx Hl']; subst.
    destruct (select_locate isBr d x (well_formed_NoDup _ Hwf) (Hin x (or_introl eq_refl)))
      as (p & b & L & Hb).
    destruct (brStep_spec x d p b Hwf Hroot L Hb) as (d1 & E1 & S1 & R1 & F1 & B1 & _).
    destruct (brStep_steps x d p b Hwf Hroot L Hb) as (d1' & E1' & T1).
    assert (d1' = d1) by congruence. subst d1'.
    destruct (IH d1) as (d' & E' & T').
    + eapply ordered_sublist; eassumption.
    + assumption.
    + assumption.
    + intros y Hy. apply B1; [intros ->; contradiction | apply Hin; right; assumption].
    + exists d'. cbn [forEach]. rewrite E1. cbn [bind].
      split; [assumption | eapply steps_trans; eassumption].
Qed.

Lemma normalizeBr_steps d :
  well_formed d -> is_container d = true ->
  exists d', normalizeBr d = Ok d' /\ steps unwraps_or_strips d d'.
Proof.
  intros Hwf Hroot. rewrite normalizeBr_forEach.
  rewrite select_querySelectorAll by (apply is_container_not_br; assumption).
  apply forEach_brStep_steps; try assumption; [| auto].
  eapply sublist_NoDup; [apply select_sublist | apply well_formed_NoDup; assumption].
Qed.

Lemma reducePairs_steps k :
  forall l d,
    length l <= k -> NoDup l -> NoDup (refs d) ->
    (forall r, In r l -> spacer_at d r) ->
    steps drops_spacer d (reducePairs l d).
Proof.
  induction k as [| k IH]; intros l d Hk Hl Hnd Hs.
  - destruct l; [apply steps_nil | simpl in Hk; lia].
  - destruct l as [| first rest]; [apply steps_nil |].
    assert (Hfirst : spacer_at d first) by (apply Hs; left; reflexivity).
    assert (T1 : drops_spacer d (remove first d)).
    { destruct Hfirst as (f & q & n & L & S).
      rewrite (remove_located _ _ _ _ _ Hnd L).
      destruct (locate_sound _ _ _ _ L) as [<- _]. apply edit_drop. assumption. }
    assert (N1 : NoDup (refs (remove first d)))
      by (eapply sublist_NoDup; [apply refs_remove_sublist | assumption]).
    inversion Hl as [| ? ? Hx Hl']; subst.
    assert (Hrest : forall r, In r rest -> spacer_at (remove first d) r).
    { intros r Hr. apply spacer_at_remove; auto.
      - apply Hs. right. assumption.
      - intros ->. contradiction. }
    cbn [reducePairs]. destruct rest as [| second rest']; [apply steps_one; assumption |].
    inversion Hl' as [| ? ? Hx' Hl'']; subst. simpl in Hk.
    eapply steps_cons; [exact T1 |].
    destruct (adjacent d first second).
    + apply IH; [lia | assumption | assumption |].
      intros r Hr. apply Hrest. right. assumption.
    + apply IH; [simpl; lia | assumption | assumption | assumption].
Qed.

(** The passes return for every textarea value, and between the parsed value
    and the tree that is serialized there are only these edits. *)
Lemma normalizeDiv_steps v :
  exists d1 d',
    normalizeBr (createDiv v) = Ok d1 /\
    steps unwraps_or_strips (createDiv v) d1 /\
    reduceSpacerParagraphs (getPossibleSpacerParagraphs d1) d1 = Ok d' /\
    steps drops_spacer d1 d' /\
    normalizeDiv (createDiv v) = Ok d'.
Proof.
  assert (Hwf := well_formed_createDiv v).
  assert (Hroot : is_container (createDiv v) = true) by reflexivity.
  destruct (normalizeBr_spec _ Hwf Hroot) as (d1 & E1 & S1 & R1 & _).
  destruct (normalizeBr_steps _ Hwf Hroot) as (d1' & E1' & T1).
  assert (d1' = d1) by congruence. subst d1'.
  assert (Hwf1 : well_formed d1) by (eapply ordered_sublist; eassumption).
  assert (Hnd1 := well_formed_NoDup _ Hwf1).
  assert (Hl : NoDup (getPossibleSpacerParagraphs d1)).
  { eapply sublist_NoDup; [apply getPossibleSpacerParagraphs_sublist | assumption]. }
  exists d1, (reducePairs (getPossibleSpacerParagraphs d1) d1).
  split; [assumption |]. split; [assumption |].
  split; [apply reduceSpacerParagraphs_pairs; assumption |].
  split.
  - apply (reducePairs_steps _ _ _ (le_n _) Hl Hnd1).
    intros r. apply getPossibleSpacerParagraphs_spacer_at. assumption.
  - unfold normalizeDiv. rewrite E1. cbn [bind].
    apply reduceSpacerParagraphs_pairs. assumption.
Qed.

(** ** Labels along a position *)

Lemma labels_Element i t a cs :
  labels (Element i t a cs) = (i, t, a, "") :: flat_map labels cs.
Proof.
  unfold labels. simpl. f_equal.
  induction cs as [| c cs IH]; [reflexivity |].
  simpl. rewrite map_app, IH. reflexivity.
Qed.

Lemma labels_fill f n :
  labels (fill f n) =
  (f_ref f, f_tag f, f_attrs f, "") ::
  flat_map labels (f_before f) ++ labels n ++ flat_map labels (f_after f).
Proof. unfold fill. rewrite labels_Element, flat_map_app. reflexivity. Qed.

Lemma labels_close f :
  labels (close f) =
  (f_ref f, f_tag f, f_attrs f, "") ::
  flat_map labels (f_before f) ++ flat_map labels (f_after f).
Proof. unfold close. rewrite labels_Element, flat_map_app. reflexivity. Qed.

(** The labels around the hole of a position do not depend on what is in
    the hole. *)
Lemma labels_plug p :
  exists before after, forall n, labels (plug p n) = before ++ labels n ++ after.
Proof.
  induction p as [| f p IH].
  - exists [], []. intros n. simpl. rewrite app_nil_r. reflexivity.
  - destruct IH as (b & a & IH).
    exists (b ++ (f_ref f, f_tag f, f_attrs f, "") :: flat_map labels (f_before f)),
           (flat_map labels (f_after f) ++ a).
    intros n. rewrite plug_cons, IH, labels_fill.
    rewrite <- !app_assoc. simpl. rewrite <- !app_assoc. reflexivity.
Qed.

Lemma labels_Br i a : labels (Br i a) = [(i, "BR", a, "")].
Proof. reflexivity. Qed.

Lemma unwraps_or_strips_labels d d' :
  unwraps_or_strips d d' ->
  sublist (labels d') (labels d) /\
  filter survivor (labels d') = filter survivor (labels d).
Proof.
  intros [f g p i a Ha Hw | f p i a Hs].
  - destruct (labels_plug (g :: p)) as (b & c & E).
    rewrite (plug_cons f), !E, labels_fill.
    apply alone_inv in Ha. destruct Ha as [-> ->]. simpl. rewrite ?app_nil_r.
    split; [sublist_solve |].
    rewrite !filter_app. simpl. rewrite Hw, andb_false_r. reflexivity.
  - destruct (labels_plug p) as (b & c & E).
    rewrite (plug_cons f), !E, labels_fill, labels_close, labels_Br.
    split.
    { rewrite <- ?app_assoc. simpl. rewrite <- ?app_assoc.
      apply sublist_app_same, sublist_keep, sublist_app_same, sublist_skip, sublist_refl. }
    rewrite !filter_app. f_equal. f_equal.
    change (?x :: ?l ++ ?m) with ((x :: l) ++ m).
    rewrite !filter_app. reflexivity.
Qed.

Lemma drops_spacer_labels d d' : drops_spacer d d' -> sublist (labels d') (labels d).
Proof.
  intros [f p n S]. destruct (labels_plug p) as (b & c & E).
  rewrite (plug_cons f), !E, labels_fill, labels_close. sublist_solve.
Qed.

Lemma steps_sublist R d d' :
  (forall a b, R a b -> sublist (labels b) (labels a)) ->
  steps R d d' -> sublist (labels d') (labels d).
Proof.
  intros HR H. induction H as [| a b c Hab Hbc IH]; [apply sublist_refl |].
  eapply sublist_trans; [exact IH | apply HR; assumption].
Qed.

(** X1.  Whatever the textarea holds, the passes only take nodes out: every
    node of the tree that is serialized is a node of the parsed value, with
    the tag, the attributes and the text it had, and the nodes that are left
    are in the document order they were in.  No node is created, renamed,
    rewritten or moved past another one. *)
Theorem normalizer_only_deletes (v : list html) :
  exists d',
    normalizeDiv (createDiv v) = Ok d' /\
    sublist (labels d') (labels (createDiv v)).
Proof.
  destruct (normalizeDiv_steps v) as (d1 & d' & _ & T1 & _ & T2 & E).
  exists d'. split; [assumption |].
  eapply sublist_trans.
  - apply (steps_sublist drops_spacer); [apply drops_spacer_labels | eassumption].
  - apply (steps_sublist unwraps_or_strips); [| eassumption].
    intros a b H. apply unwraps_or_strips_labels. assumption.
Qed.

(** X2.  [normalizeBr] touches nothing but line-break markers and recognized
    inline wrappers: the text nodes and the other elements of the tree it
    returns are those of the parsed value, one for one and in the same
    order, with their tags, attributes and text. *)
Theorem normalizeBr_keeps_text_and_blocks (v : list html) :
  exists d1,
    normalizeBr (createDiv v) = Ok d1 /\
    filter survivor (labels d1) = filter survivor (labels (createDiv v)).
Proof.
  destruct (normalizeDiv_steps v) as (d1 & d' & E1 & T1 & _).
  exists d1. split; [assumption |].
  clear E1. induction T1 as [| a b c Hab Hbc IH]; [reflexivity |].
  rewrite IH. apply unwraps_or_strips_labels. assumption.
Qed.

(** X3.  The mutations of a call are of three kinds only.  [normalizeBr]
    replaces a recognized inline wrapper by the marker that is its only
    child, or takes out a marker that [removeTrailingBr] picks; the reducer
    takes out paragraphs whose only element child is a marker that is not a
    filler. *)
Theorem normalizer_edits (v : list html) :
  exists d1 d',
    normalizeBr (createDiv v) = Ok d1 /\
    steps unwraps_or_strips (createDiv v) d1 /\
    reduceSpacerParagraphs (getPossibleSpacerParagraphs d1) d1 = Ok d' /\
    steps drops_spacer d1 d' /\
    normalized v = Some (innerHTML d').
Proof.
  destruct (normalizeDiv_steps v) as (d1 & d' & E1 & T1 & E2 & T2 & E).
  exists d1, d'. repeat (split; [assumption |]).
  apply normalized_innerHTML. assumption.
Qed.

(** ** What the reducer leaves alone *)

Lemma refs_remove_other f q n x :
  In x (refs (plug (f :: q) n)) -> ~ In x (refs n) -> In x (refs (plug q (close f))).
Proof.
  rewrite plug_cons, !refs_plug, refs_fill. unfold close. simpl refs.
  fold (refs_of (f_before f ++ f_after f)). rewrite refs_of_app.
  rewrite !in_app_iff. simpl. rewrite !in_app_iff. tauto.
Qed.

Lemma reducePairs_spares d0 k :
  well_formed d0 ->
  forall l d,
    length l <= k -> ordered l -> NoDup (refs d) ->
    (forall r, In r l -> settled d0 d r) ->
    forall x,
      In x (refs d) ->
      (forall r q n, In r l -> locate r d0 = Some (q, n) -> ~ In x (refs n)) ->
      In x (refs (reducePairs l d)).
Proof.
  intros Hwf. induction k as [| k IH]; intros l d Hk Hord Hnd Hs x Hx Hout.
  - destruct l; [assumption | simpl in Hk; lia].
  - destruct l as [| first rest]; [assumption |].
    assert (Hl := ordered_NoDup _ Hord).
    apply ordered_cons in Hord. destruct Hord as [Hlt Hord].
    inversion Hl as [| ? ? Hf Hl']; subst.
    assert (H1 : settled d0 d first) by (apply Hs; left; reflexivity).
    assert (N1 : NoDup (refs (remove first d)))
      by (eapply sublist_NoDup; [apply refs_remove_sublist | assumption]).
    assert (Hrest : forall r, In r rest -> settled d0 (remove first d) r).
    { intros r Hr. apply settled_remove; auto. apply Hs. right. assumption. }
    assert (Hx1 : In x (refs (remove first d))).
    { destruct H1 as (f0 & q0 & f & q & n & L0 & L & _ & _).
      rewrite (remove_located _ _ _ _ _ Hnd L).
      destruct (locate_sound _ _ _ _ L) as [Ed _]. rewrite <- Ed in Hx.
      apply (refs_remove_other f q n); [assumption |].
      apply (Hout first (f0 :: q0) n); [left; reflexivity | assumption]. }
    cbn [reducePairs]. destruct rest as [| second rest']; [assumption |].
    inversion Hl' as [| ? ? Hs' Hl'']; subst. simpl in Hk.
    apply ordered_cons in Hord. destruct Hord as [Hlt' Hord'].
    destruct (adjacent d first second).
    + apply IH; auto; [lia | |].
      * intros r Hr. apply Hrest. right. assumption.
      * intros r q n Hr. apply Hout. right. right. assumption.
    + apply IH; auto; [simpl; lia | apply ordered_cons; auto |].
      intros r q n Hr. apply Hout. right. assumption.
Qed.

(** X4.  In the second half of a call the only nodes that go are paragraphs
    the scanner returned and nodes below them: a node of the tree that
    [normalizeBr] returns which is neither such a paragraph nor inside one is
    still in the tree that is serialized. *)
Theorem reducer_spares_the_rest (v : list html) :
  exists d1 d',
    normalizeBr (createDiv v) = Ok d1 /\
    reduceSpacerParagraphs (getPossibleSpacerParagraphs d1) d1 = Ok d' /\
    forall x,
      In x (refs d1) ->
      (forall r q n,
          In r (getPossibleSpacerParagraphs d1) ->
          locate r d1 = Some (q, n) -> ~ In x (refs n)) ->
      In x (refs d').
Proof.
  assert (Hwf := well_formed_createDiv v).
  assert (Hroot : is_container (createDiv v) = true) by reflexivity.
  destruct (normalizeBr_spec _ Hwf Hroot) as (d1 & E1 & S1 & R1 & _).
  assert (Hwf1 : well_formed d1) by (eapply ordered_sublist; eassumption).
  assert (Hnd1 := well_formed_NoDup _ Hwf1).
  assert (Hord : ordered (getPossibleSpacerParagraphs d1)).
  { eapply ordered_sublist; [apply getPossibleSpacerParagraphs_sublist | exact Hwf1]. }
  exists d1, (reducePairs (getPossibleSpacerParagraphs d1) d1).
  split; [assumption |].
  split; [apply reduceSpacerParagraphs_pairs, ordered_NoDup; assumption |].
  intros x Hx Hout.
  apply (reducePairs_spares d1 _ Hwf1 _ d1 (le_n _) Hord Hnd1); try assumption.
  intros r Hr. apply settled_refl.
  apply getPossibleSpacerParagraphs_spacer_at; assumption.
Qed.

(** ** Running the normalizer until nothing changes *)




(** ** Markup without line breaks *)

Lemma descendants_or_self_trans d n m :
  In n (descendants_or_self d) -> In m (descendants_or_self n) ->
  In m (descendants_or_self d).
Proof.
  induction d as [i s | i a | i t a cs IH] using node_induction; intros Hn Hm.
  - destruct Hn as [<- | []]. assumption.
  - destruct Hn as [<- | []]. assumption.
  - destruct Hn as [<- | Hn]; [assumption |]. right.
    rewrite in_flat_map in *. destruct Hn as (c & Hc & Hn).
    exists c. split; [assumption |].
    rewrite Forall_forall in IH. apply IH; assumption.
Qed.

Lemma createNode_has_br h :
  forall next n,
    In n (descendants_or_self (createNode next h)) -> isBr n = true -> has_br h = true.
Proof.
  induction h as [s | a | t a cs IH] using html_induction; intros next n Hn Hb.
  - destruct Hn as [<- | []]. discriminate.
  - reflexivity.
  - rewrite createNode_Element in Hn. destruct Hn as [<- | Hn]; [discriminate |].
    cbn [has_br]. revert Hn. generalize (S next) as k.
    induction IH as [| c cs Hc Hcs IHcs]; intros k Hn; [contradiction |].
    cbn [createNodes flat_map existsb] in *. rewrite in_app_iff in Hn.
    apply orb_true_iff. destruct Hn as [Hn | Hn]; [left; eauto | right; eauto].
Qed.

Lemma createDiv_has_br v n :
  In n (descendants (createDiv v)) -> isBr n = true -> existsb has_br v = true.
Proof.
  intros Hn Hb.
  assert (H : has_br (HElement "DIV" [] v) = true).
  { apply (createNode_has_br _ 0 n); [| assumption]. right. exact Hn. }
  exact H.
Qed.

Lemma filter_nil {A : Type} (sel : A -> bool) l :
  (forall a, In a l -> sel a = false) -> filter sel l = [].
Proof.
  induction l as [| a l IH]; intros H; [reflexivity |].
  simpl. rewrite (H a (or_introl eq_refl)). apply IH. intros b Hb. apply H. right. assumption.
Qed.

(** X6.  When the markup parsed from the value holds no line break, the
    passes hand the working [div] back exactly as it was parsed: no node is
    removed, unwrapped or moved. *)
Theorem passes_without_br (v : list html) :
  existsb has_br v = false -> normalizeDiv (createDiv v) = Ok (createDiv v).
Proof.
  intros Hv. apply at_rest_untouched. unfold at_rest.
  assert (Hno : forall n, In n (descendants (createDiv v)) -> isBr n = false).
  { intros n Hn. destruct (isBr n) eqn:E; [| reflexivity].
    rewrite (createDiv_has_br v n Hn E) in Hv. discriminate. }
  unfold querySelectorAll at 1. rewrite (filter_nil isBr) by assumption. simpl.
  unfold getPossibleSpacerParagraphs, querySelectorAll.
  rewrite (filter_nil isPossibleSpacer); [reflexivity |].
  intros n Hn. apply filter_In in Hn. destruct Hn as [Hn _].
  destruct (isPossibleSpacer n) eqn:E; [| reflexivity].
  unfold isPossibleSpacer in E.
  destruct (childElementCount n =? 1); [| discriminate].
  destruct (children n) as [| c cs] eqn:Ec; [discriminate |]. simpl in E.
  apply andb_prop in E. destruct E as [Hb _].
  assert (Hc : In c (childNodes n)).
  { assert (H : In c (children n)) by (rewrite Ec; left; reflexivity).
    unfold children in H. apply filter_In in H. tauto. }
  rewrite Hno in Hb; [discriminate |].
  unfold descendants in *. rewrite in_flat_map in *.
  destruct Hn as (top & Htop & Hn). exists top. split; [assumption |].
  apply (descendants_or_self_trans top n c); [assumption |].
  destruct n as [? ? | ? ? | i t a cs']; try contradiction.
  right. rewrite in_flat_map. exists c. split; [assumption |].
  destruct c; left; reflexivity.
Qed.

Lemma passes_without_br_witness :
  existsb has_br [p [HText "one"]; HElement "UL" [] [HElement "LI" [] [HText "two"]]] = false /\
  normalizeDiv (createDiv [p [HText "one"]; HElement "UL" [] [HElement "LI" [] [HText "two"]]]) =
  Ok (createDiv [p [HText "one"]; HElement "UL" [] [HElement "LI" [] [HText "two"]]]).
Proof.
  split; [reflexivity |].
  apply (passes_without_br
           [p [HText "one"]; HElement "UL" [] [HElement "LI" [] [HText "two"]]]).
  reflexivity.
Defined.

(** ** The unwrap loop at its limits *)

Lemma remove_root_frame f n :
  NoDup (refs (fill f n)) -> remove (f_ref f) (fill f n) = fill f n.
Proof.
  intros H. apply (remove_root (f_ref f) (fill f n) (fill f n)); [assumption |].
  exact (locate_self (fill f n)).
Qed.

Lemma unwrapBr_no_way_out fuel :
  forall wrappers root b,
    NoDup (refs (plug (wrappers ++ [root]) b)) ->
    Forall lone_wrapper (wrappers ++ [root]) ->
    unwrapBr fuel (node_ref b) (plug (wrappers ++ [root]) b) = OutOfFuel.
Proof.
  induction fuel as [| fuel IH]; intros wrappers root b Hnd Hw; [reflexivity |].
  destruct wrappers as [| w ws].
  - simpl app in *. inversion Hw as [| ? ? (Hroot & Hb & Ha) _]; subst.
    assert (L : locate (node_ref b) (plug [root] b) = Some ([root], b))
      by (apply locate_plug; exact Hnd).
    cbn [unwrapBr]. rewrite (has_sibling_alone _ _ _ _ _ L).
    unfold alone. rewrite Hb, Ha. cbn [negb].
    unfold parentElement. rewrite L. cbn [tagName fill]. rewrite Hroot.
    unfold insertAdjacentElement_afterend.
    change (plug [root] b) with (fill root b) in *.
    rewrite locate_self.
    change (node_ref (fill root b)) with (f_ref root).
    rewrite remove_root_frame by assumption.
    apply (IH [] root b); [assumption | assumption].
  - simpl app in *.
    destruct (ws ++ [root]) as [| g rest] eqn:E.
    { destruct ws; discriminate. }
    inversion Hw as [| ? ? (Hwrap & Hb & Ha) Hrest]; subst.
    assert (L : locate (node_ref b) (plug (w :: g :: rest) b) = Some (w :: g :: rest, b))
      by (apply locate_plug; exact Hnd).
    cbn [unwrapBr]. rewrite (has_sibling_alone _ _ _ _ _ L).
    unfold alone. rewrite Hb, Ha. cbn [negb].
    unfold parentElement. rewrite L. cbn [tagName fill node_ref]. rewrite Hwrap.
    rewrite unwrap_step; [| assumption | unfold alone; rewrite Hb, Ha; reflexivity].
    rewrite <- E. apply IH.
    + rewrite E. eapply sublist_NoDup; [apply refs_pop_sublist | exact Hnd].
    + rewrite E. assumption.
Qed.

(** X7.  [unwrapBr] relies on reaching an ancestor that is not a recognized
    inline wrapper.  For a marker in a detached chain of such wrappers, each
    the only child of the next, there is none: at the topmost wrapper
    [insertAdjacentElement] has no parent to insert into, [remove] has
    nothing to detach, and the loop goes round on the same tree.  No number
    of iterations makes it return. *)
Theorem unwrapBr_detached_wrappers
    (wrappers : list frame) (root : frame) (i : ref) (attributes : attrs) (fuel : nat) :
  NoDup (refs (plug (wrappers ++ [root]) (Br i attributes))) ->
  Forall lone_wrapper (wrappers ++ [root]) ->
  unwrapBr fuel i (plug (wrappers ++ [root]) (Br i attributes)) = OutOfFuel.
Proof. apply (unwrapBr_no_way_out fuel wrappers root (Br i attributes)). Qed.

Lemma unwrapBr_detached_wrappers_witness :
  unwrapBr 1000 2 (Element 0 "SPAN" [] [Element 1 "B" [] [Br 2 []]]) = OutOfFuel.
Proof.
  apply (unwrapBr_detached_wrappers [Frame 1 "B" [] [] []] (Frame 0 "SPAN" [] [] []) 2 [] 1000).
  - repeat constructor; simpl; intuition discriminate.
  - repeat constructor.
Defined.

(** X8.  With a root that is not an inline wrapper and enough iterations,
    [unwrapBr] returns, and it returns the tree it was given exactly when
    the marker has a sibling or its parent is not a recognized inline
    wrapper. *)
Theorem unwrapBr_unchanged_iff (d : node) (p : list frame) (i : ref) (attributes : attrs)
    (fuel : nat) :
  NoDup (refs d) -> is_container d = true ->
  locate i d = Some (p, Br i attributes) ->
  length p <= fuel ->
  exists d',
    unwrapBr fuel i d = Ok d' /\
    (d' = d <-> unwrappable i d = false).
Proof.
  intros Hnd Hroot L Hfuel.
  destruct (locate_sound _ _ _ _ L) as [Ed _].
  destruct p as [| f q].
  { simpl in Ed. subst d. discriminate. }
  rewrite (unwrappable_located _ _ _ _ _ L). subst d.
  assert (Hlast : forall f0, isInlineWrapper (f_tag (last (f :: q) f0)) = false).
  { intros f0. rewrite (is_container_plug (f :: q) _ f0) in Hroot by discriminate.
    apply negb_true_iff in Hroot. exact Hroot. }
  exists (plug (unwrapped (f :: q)) (Br i attributes)). split.
  - apply (unwrapBr_plug fuel (f :: q) (Br i attributes)); try assumption. discriminate.
  - destruct (alone f && isInlineWrapper (f_tag f)) eqn:E.
    + split; [| discriminate]. intros H. exfalso.
      destruct q as [| g q].
      { specialize (Hlast f). simpl in Hlast. apply andb_prop in E. destruct E. congruence. }
      rewrite unwrapped_cons2, E in H.
      assert (H1 := nodeCount_unwrapped (g :: q) (Br i attributes)).
      assert (H2 := nodeCount_pop f (g :: q) (Br i attributes)).
      rewrite H in H1. lia.
    + rewrite (unwrapped_id f q E). tauto.
Qed.

Lemma unwrapBr_unchanged_iff_witness :
  exists d',
    unwrapBr 3 4 (createDiv [p [HText "x"; HElement "B" [] [br]]]) = Ok d' /\
    (d' = createDiv [p [HText "x"; HElement "B" [] [br]]] <->
     unwrappable 4 (createDiv [p [HText "x"; HElement "B" [] [br]]]) = false).
Proof.
  apply (unwrapBr_unchanged_iff (createDiv [p [HText "x"; HElement "B" [] [br]]])
           [Frame 3 "B" [] [] []; Frame 1 "P" [] [Text 2 "x"] []; Frame 0 "DIV" [] [] []]
           4 [] 3).
  - apply well_formed_NoDup, well_formed_createDiv.
  - reflexivity.
  - reflexivity.
  - simpl. lia.
Defined.

(** ** Markers outside paragraphs and table cells *)

Lemma free_markers_fill f n :
  free_markers (fill f n) =
  if String.eqb (f_tag f) "P" || String.eqb (f_tag f) "TD" then []
  else flat_map free_markers (f_before f) ++ free_markers n ++
       flat_map free_markers (f_after f).
Proof.
  unfold fill. simpl. destruct (String.eqb (f_tag f) "P" || String.eqb (f_tag f) "TD");
    [reflexivity |].
  rewrite flat_map_app. reflexivity.
Qed.

Lemma free_markers_close f :
  free_markers (close f) =
  if String.eqb (f_tag f) "P" || String.eqb (f_tag f) "TD" then []
  else flat_map free_markers (f_before f) ++ flat_map free_markers (f_after f).
Proof.
  unfold close. simpl. destruct (String.eqb (f_tag f) "P" || String.eqb (f_tag f) "TD");
    [reflexivity |].
  apply flat_map_app.
Qed.

(** Two nodes with the same free markers can stand for each other in any
    position. *)
Lemma free_markers_plug p :
  forall n n', free_markers n = free_markers n' ->
               free_markers (plug p n) = free_markers (plug p n').
Proof.
  induction p as [| f p IH]; intros n n' H; [assumption |].
  rewrite !plug_cons. apply IH. rewrite !free_markers_fill, H. reflexivity.
Qed.

(** Below a paragraph or a table cell nothing counts. *)
Lemma free_markers_below p :
  forall n n',
    existsb (fun f => String.eqb (f_tag f) "P" || String.eqb (f_tag f) "TD") p = true ->
    free_markers (plug p n) = free_markers (plug p n').
Proof.
  induction p as [| f p IH]; intros n n' H; [discriminate |].
  rewrite !plug_cons. simpl in H.
  destruct (String.eqb (f_tag f) "P" || String.eqb (f_tag f) "TD") eqn:E.
  - apply free_markers_plug. rewrite !free_markers_fill, E. reflexivity.
  - apply IH. assumption.
Qed.

Lemma find_matches_p_td p :
  forall n,
    matches_p_td n = false ->
    find matches_p_td (inclusive_ancestors p n) <> None ->
    existsb (fun f => String.eqb (f_tag f) "P" || String.eqb (f_tag f) "TD") p = true.
Proof.
  induction p as [| f p IH]; intros n Hn H.
  - simpl in H. rewrite Hn in H. congruence.
  - cbn [inclusive_ancestors find] in H. rewrite Hn in H. cbn [existsb].
    destruct (String.eqb (f_tag f) "P" || String.eqb (f_tag f) "TD") eqn:E; [reflexivity |].
    apply (IH (fill f n)); assumption.
Qed.

Lemma inline_wrapper_not_block t :
  isInlineWrapper t = true -> String.eqb t "P" || String.eqb t "TD" = false.
Proof.
  unfold isInlineWrapper. intros H. apply existsb_exists in H.
  destruct H as (w & Hw & E). apply String.eqb_eq in E. subst w.
  simpl in Hw. repeat (destruct Hw as [<- | Hw]; [reflexivity |]). contradiction.
Qed.

Lemma unwraps_or_strips_free_markers d d' :
  unwraps_or_strips d d' -> free_markers d' = free_markers d.
Proof.
  intros [f g p i a Ha Hw | f p i a Hs].
  - rewrite (plug_cons f). apply free_markers_plug.
    rewrite free_markers_fill, (inline_wrapper_not_block _ Hw).
    apply alone_inv in Ha. destruct Ha as [-> ->]. reflexivity.
  - unfold strips in Hs. apply andb_prop in Hs. destruct Hs as [_ Hs].
    assert (Hblock : existsb (fun f => String.eqb (f_tag f) "P" || String.eqb (f_tag f) "TD")
                       (f :: p) = true).
    { apply (find_matches_p_td (f :: p) (Br i a)); [reflexivity |].
      destruct (find matches_p_td (inclusive_ancestors (f :: p) (Br i a)));
        [discriminate | discriminate]. }
    rewrite (plug_cons f). cbn [existsb] in Hblock.
    destruct (String.eqb (f_tag f) "P" || String.eqb (f_tag f) "TD") eqn:E.
    + apply free_markers_plug. rewrite free_markers_fill, free_markers_close, E. reflexivity.
    + apply free_markers_below. assumption.
Qed.

Lemma spacer_no_free_markers n : spacer n = true -> free_markers n = [].
Proof.
  unfold spacer, matches_p. intros H. apply andb_prop in H. destruct H as [Hp _].
  destruct n as [i s | i a | i t a cs]; try discriminate.
  simpl. rewrite Hp. reflexivity.
Qed.

Lemma drops_spacer_free_markers d d' :
  drops_spacer d d' -> free_markers d' = free_markers d.
Proof.
  intros [f p n S]. rewrite (plug_cons f). apply free_markers_plug.
  rewrite free_markers_fill, free_markers_close, (spacer_no_free_markers n S).
  reflexivity.
Qed.

(** X13.  Line breaks outside paragraphs and table cells, in a list item or
    a quote for one, are none of the normalizer's business: the markers
    without a [p] or [td] above them are the same after a call as in the
    parsed value, in the same order.  None is removed, and none ends up in
    such a place by being unwrapped. *)
Theorem markers_outside_blocks_stay (v : list html) :
  exists d',
    normalizeDiv (createDiv v) = Ok d' /\
    normalized v = Some (innerHTML d') /\
    free_markers d' = free_markers (createDiv v).
Proof.
  destruct (normalizeDiv_steps v) as (d1 & d' & _ & T1 & _ & T2 & E).
  exists d'. split; [assumption |].
  split; [apply normalized_innerHTML; assumption |].
  transitivity (free_markers d1).
  - clear - T2. induction T2 as [| a b c Hab Hbc IH]; [reflexivity |].
    rewrite IH. apply drops_spacer_free_markers. assumption.
  - clear - T1. induction T1 as [| a b c Hab Hbc IH]; [reflexivity |].
    rewrite IH. apply unwraps_or_strips_free_markers. assumption.
Qed.

Example markers_in_a_list :
  normalized [HElement "UL" [] [HElement "LI" [] [HText "a"; br]]; p [HText "b"; br]] =
  Some [HElement "UL" [] [HElement "LI" [] [HText "a"; br]]; p [HText "b"]].
Proof. reflexivity. Qed.

(** * Properties of DOM/Traverse *)

(** ** Searching the ancestors *)

Lemma parentNode_plug f p m :
  NoDup (refs (plug (f :: p) m)) ->
  parentNode (node_ref m) (plug (f :: p) m) = Some (fill f m).
Proof.
  intros H. unfold parentNode, parentElement. rewrite locate_plug by assumption. reflexivity.
Qed.

Lemma parentNode_root m : parentNode (node_ref m) m = None.
Proof. unfold parentNode, parentElement. rewrite locate_self. reflexivity. Qed.

Lemma inclusive_ancestors_head p n :
  inclusive_ancestors p n = n :: tl (inclusive_ancestors p n).
Proof. destruct p; reflexivity. Qed.

Lemma _parent_loop_find matches type value p :
  forall m fuel,
    NoDup (refs (plug p m)) -> length p < fuel ->
    _parent_loop matches fuel (plug p m) (parentNode (node_ref m) (plug p m)) type value =
    Ok (find (fun a => _probe matches type (plug p m) a value)
             (tl (inclusive_ancestors p m))).
Proof.
  induction p as [| f p IH]; intros m fuel Hnd Hfuel.
  - simpl plug. rewrite parentNode_root. destruct fuel; [simpl in Hfuel; lia | reflexivity].
  - rewrite parentNode_plug by assumption.
    destruct fuel as [| fuel]; [simpl in Hfuel; lia |].
    cbn [inclusive_ancestors tl]. rewrite (inclusive_ancestors_head p (fill f m)).
    cbn [_parent_loop find].
    replace (isElement (fill f m)) with true by reflexivity.
    destruct (_probe matches type (plug (f :: p) m) (fill f m) value) eqn:E; [reflexivity |].
    rewrite plug_cons in *. apply IH; [assumption | simpl in Hfuel; lia].
Qed.

Lemma ancestors_refs p :
  forall m a, In a (tl (inclusive_ancestors p m)) -> In (node_ref a) (refs_before p).
Proof.
  induction p as [| f p IH]; intros m a Ha; [contradiction |].
  cbn [inclusive_ancestors tl] in Ha. simpl refs_before. rewrite in_app_iff.
  destruct p as [| g p].
  - destruct Ha as [<- | []]. right. left. reflexivity.
  - cbn [inclusive_ancestors] in Ha. destruct Ha as [<- | Ha].
    + right. left. reflexivity.
    + left. apply (IH (fill f m)). exact Ha.
Qed.

(** X9.  [_parent], and with it [parentBySel], [parentByClass] and
    [parentByTag], returns once it may go round more often than [el] has
    ancestors.  What it returns is the nearest ancestor of [el] that passes
    the probe, [null] when none does, and never [el]. *)
Theorem _parent_nearest_ancestor
    (matches : node -> node -> string -> bool) (type : probeType) (value : string)
    (d : node) (el : ref) (p : list frame) (n : node) (fuel : nat) :
  NoDup (refs d) ->
  locate el d = Some (p, n) ->
  length p < fuel ->
  _parent matches fuel el type value d =
  Ok (find (fun a => _probe matches type d a value) (tl (inclusive_ancestors p n))) /\
  forall a, _parent matches fuel el type value d = Ok (Some a) ->
            node_ref a <> el /\ _probe matches type d a value = true.
Proof.
  intros Hnd L Hfuel. destruct (locate_sound _ _ _ _ L) as [Ed Ex]. subst d el.
  assert (E := _parent_loop_find matches type value p n fuel Hnd Hfuel).
  unfold _parent. rewrite E. split; [reflexivity |].
  intros a Ha. inversion Ha as [Hf]. apply find_some in Hf. destruct Hf as [Hin Hp].
  split; [| assumption].
  apply ancestors_refs in Hin. apply NoDup_plug_hole in Hnd. destruct Hnd as [_ Hnd].
  intros Heq. rewrite Heq in Hin.
  apply (proj1 (Hnd _ (node_ref_in_refs n))). assumption.
Qed.

Lemma _parent_nearest_ancestor_witness :
  parentByTag (fun _ _ _ => false) 4 6 "UL" list_page =
  Ok (find (fun a => _probe (fun _ _ _ => false) TAG_NAME list_page a "UL")
           (tl (inclusive_ancestors
                  [Frame 5 "LI" [("class", "on")] [] [];
                   Frame 1 "UL" [("class", "a  list")]
                     [Element 2 "LI" [] [Text 3 "one"]; Text 4 " "] [];
                   Frame 0 "DIV" [] [] []]
                  (Text 6 "two")))) /\
  forall a, parentByTag (fun _ _ _ => false) 4 6 "UL" list_page = Ok (Some a) ->
            node_ref a <> 6 /\ _probe (fun _ _ _ => false) TAG_NAME list_page a "UL" = true.
Proof.
  apply (_parent_nearest_ancestor (fun _ _ _ => false) TAG_NAME "UL" list_page 6).
  - apply well_formed_NoDup, well_formed_createDiv.
  - reflexivity.
  - simpl. lia.
Defined.

Example parentByTag_list :
  parentByTag (fun _ _ _ => false) 4 6 "UL" list_page =
  Ok (Some (Element 1 "UL" [("class", "a  list")]
              [Element 2 "LI" [] [Text 3 "one"]; Text 4 " ";
               Element 5 "LI" [("class", "on")] [Text 6 "two"]])) /\
  parentByTag (fun _ _ _ => false) 4 6 "TABLE" list_page = Ok None.
Proof. split; reflexivity. Qed.

(** ** Class names *)

Lemma has_whitespace_app s1 s2 :
  has_whitespace (s1 ++ s2)%string = has_whitespace s1 || has_whitespace s2.
Proof.
  induction s1 as [| c s1 IH]; [reflexivity |].
  simpl. rewrite IH, orb_assoc. reflexivity.
Qed.

Lemma tokens_clean s :
  forall token t,
    has_whitespace token = false ->
    In t (tokens token s) -> t <> "" /\ has_whitespace t = false.
Proof.
  induction s as [| c s IH]; intros token t Hw Ht.
  - simpl in Ht. destruct token as [| c' token']; [contradiction |].
    destruct Ht as [<- | []]. split; [discriminate | assumption].
  - simpl in Ht. destruct (isAsciiWhitespace c) eqn:Ec.
    + destruct token as [| c' token'].
      * apply (IH "" t); [reflexivity | assumption].
      * destruct Ht as [<- | Ht]; [split; [discriminate | assumption] |].
        apply (IH "" t); [reflexivity | assumption].
    + apply (IH (token ++ String c "")%string t); [| assumption].
      rewrite has_whitespace_app, Hw. simpl. rewrite Ec. reflexivity.
Qed.

Lemma classList_contains_clean el className :
  classList_contains el className = true ->
  className <> "" /\ has_whitespace className = false.
Proof.
  unfold classList_contains, classList. intros H.
  apply existsb_exists in H. destruct H as (t & Ht & E).
  apply String.eqb_eq in E. subst t.
  destruct (getAttribute "class" (node_attributes el)) as [value |]; [| contradiction].
  apply (tokens_clean value "" className); [reflexivity | assumption].
Qed.

(** X10.  A class name that is empty or holds whitespace, such as two names
    at once, is never a token of a class list: [parentByClass],
    [nextByClass] and [prevByClass] find nothing for it in any tree. *)
Theorem class_name_with_whitespace
    (matches : node -> node -> string -> bool) (className : string)
    (d : node) (el : ref) (p : list frame) (n : node) (fuel : nat) :
  className = "" \/ has_whitespace className = true ->
  NoDup (refs d) ->
  locate el d = Some (p, n) ->
  length p < fuel ->
  parentByClass matches fuel el className d = Ok None /\
  nextByClass matches el className d = None /\
  prevByClass matches el className d = None.
Proof.
  intros Hc Hnd L Hfuel.
  assert (Hno : forall a, classList_contains a className = false).
  { intros a. destruct (classList_contains a className) eqn:E; [| reflexivity].
    apply classList_contains_clean in E. destruct E as [E1 E2].
    destruct Hc as [Hc | Hc]; congruence. }
  split; [| split].
  - destruct (locate_sound _ _ _ _ L) as [Ed Ex]. subst d el.
    unfold parentByClass, _parent.
    rewrite (_parent_loop_find matches CLASS_NAME className p n fuel Hnd Hfuel).
    f_equal. induction (tl (inclusive_ancestors p n)) as [| a l IH]; [reflexivity |].
    simpl. rewrite Hno. assumption.
  - unfold nextByClass, _sibling. rewrite L.
    destruct (isElement n); [| reflexivity].
    destruct (sibling NextElementSibling el d); [| reflexivity].
    simpl. rewrite Hno. reflexivity.
  - unfold prevByClass, _sibling. rewrite L.
    destruct (isElement n); [| reflexivity].
    destruct (sibling PreviousElementSibling el d); [| reflexivity].
    simpl. rewrite Hno. reflexivity.
Qed.

Lemma class_name_with_whitespace_witness :
  parentByClass (fun _ _ _ => false) 4 6 "a list" list_page = Ok None /\
  nextByClass (fun _ _ _ => false) 6 "a list" list_page = None /\
  prevByClass (fun _ _ _ => false) 6 "a list" list_page = None.
Proof.
  apply (class_name_with_whitespace (fun _ _ _ => false) "a list" list_page 6
           [Frame 5 "LI" [("class", "on")] [] [];
            Frame 1 "UL" [("class", "a  list")]
              [Element 2 "LI" [] [Text 3 "one"]; Text 4 " "] [];
            Frame 0 "DIV" [] [] []]
           (Text 6 "two") 4).
  - right. reflexivity.
  - apply well_formed_NoDup, well_formed_createDiv.
  - reflexivity.
  - simpl. lia.
Defined.

Example classList_tokens :
  classList (Element 1 "UL" [("class", "a  list")] []) = ["a"; "list"] /\
  parentByClass (fun _ _ _ => false) 4 6 "list" list_page =
  parentByTag (fun _ _ _ => false) 4 6 "UL" list_page.
Proof. split; reflexivity. Qed.

(** ** Element siblings *)

Lemma find_split {A : Type} (P : A -> bool) l x :
  find P l = Some x ->
  exists l1 l2, l = l1 ++ x :: l2 /\ P x = true /\ find P (rev l1) = None.
Proof.
  induction l as [| a l IH]; [discriminate |]. simpl.
  destruct (P a) eqn:E.
  - intros H. inversion H; subst. exists [], l. auto.
  - intros H. destruct (IH H) as (l1 & l2 & -> & Hx & Hl).
    exists (a :: l1), l2. split; [reflexivity |]. split; [assumption |].
    simpl. clear - E Hl. induction (rev l1) as [| b r IHr]; simpl.
    + rewrite E. reflexivity.
    + simpl in Hl. destruct (P b); [discriminate | auto].
Qed.

Lemma find_app_none {A : Type} (P : A -> bool) l1 l2 :
  find P l1 = None -> find P (l1 ++ l2) = find P l2.
Proof.
  induction l1 as [| a l1 IH]; [reflexivity |]. simpl.
  destruct (P a); [discriminate | assumption].
Qed.

Lemma find_rev_split {A : Type} (P : A -> bool) l x :
  find P (rev l) = Some x ->
  exists l1 l2, l = l1 ++ x :: l2 /\ P x = true /\ find P l2 = None.
Proof.
  intros H. apply find_split in H. destruct H as (r1 & r2 & E & Hx & Hr).
  exists (rev r2), (rev r1). split; [| split; assumption].
  rewrite <- (rev_involutive l), E, rev_app_distr. simpl. rewrite <- app_assoc. reflexivity.
Qed.

(** The two ways of seeing an element and a later sibling of it. *)
Lemma fill_siblings i t a before n between s after :
  fill (Frame i t a before (between ++ s :: after)) n =
  fill (Frame i t a (before ++ n :: between) after) s.
Proof. unfold fill. simpl. rewrite <- app_assoc. reflexivity. Qed.

Lemma next_then_prev
    (matches : node -> node -> string -> bool) (d : node) (el : ref) (s : node) :
  NoDup (refs d) ->
  (next matches el d = Some s ->
   exists p n, locate el d = Some (p, n) /\ prev matches (node_ref s) d = Some n) /\
  (prev matches el d = Some s ->
   exists p n, locate el d = Some (p, n) /\ next matches (node_ref s) d = Some n).
Proof.
  intros Hnd. split.
  - unfold next, _sibling. destruct (locate el d) as [[p n] |] eqn:L; [| discriminate].
    destruct (isElement n) eqn:En; [| discriminate].
    unfold sibling, nextElementSibling. rewrite L.
    destruct p as [| f q]; [discriminate |].
    destruct (find isElement (f_after f)) as [s' |] eqn:F; [| discriminate].
    cbn [_probe]. intros H. inversion H; subst s'. clear H.
    exists (f :: q), n. split; [reflexivity |].
    apply find_split in F. destruct F as (l1 & l2 & Ea & Es & Hl).
    destruct (locate_sound _ _ _ _ L) as [Ed _].
    destruct f as [i t a before after]. simpl in Ea. subst after.
    rewrite plug_cons, fill_siblings, <- plug_cons in Ed.
    assert (Ls : locate (node_ref s) d =
                 Some (Frame i t a (before ++ n :: l1) l2 :: q, s)).
    { rewrite <- Ed. apply locate_plug. rewrite Ed. assumption. }
    unfold prev, _sibling. rewrite Ls, Es.
    unfold sibling, previousElementSibling. rewrite Ls. cbn [f_before].
    rewrite rev_app_distr. simpl rev. rewrite <- app_assoc.
    rewrite find_app_none by assumption. simpl. rewrite En. reflexivity.
  - unfold prev, _sibling. destruct (locate el d) as [[p n] |] eqn:L; [| discriminate].
    destruct (isElement n) eqn:En; [| discriminate].
    unfold sibling, previousElementSibling. rewrite L.
    destruct p as [| f q]; [discriminate |].
    destruct (find isElement (rev (f_before f))) as [s' |] eqn:F; [| discriminate].
    cbn [_probe]. intros H. inversion H; subst s'. clear H.
    exists (f :: q), n. split; [reflexivity |].
    apply find_rev_split in F. destruct F as (l1 & l2 & Eb & Es & Hl).
    destruct (locate_sound _ _ _ _ L) as [Ed _].
    destruct f as [i t a before after]. simpl in Eb. subst before.
    rewrite plug_cons in Ed.
    rewrite <- (fill_siblings i t a l1 s l2 n after) in Ed.
    rewrite <- plug_cons in Ed.
    assert (Ls : locate (node_ref s) d = Some (Frame i t a l1 (l2 ++ n :: after) :: q, s)).
    { rewrite <- Ed. apply locate_plug. rewrite Ed. assumption. }
    unfold next, _sibling. rewrite Ls, Es.
    unfold sibling, nextElementSibling. rewrite Ls. cbn [f_after].
    rewrite find_app_none by assumption. simpl. rewrite En. reflexivity.
Qed.

(** X11.  [next] and [prev] undo each other: [next] returns [b] for the
    element [a] exactly when [prev] returns [a] for [b].  Text between the
    two is stepped over in both directions. *)
Theorem next_prev_round_trip
    (matches : node -> node -> string -> bool) (d : node)
    (a b : ref) (pa pb : list frame) (na nb : node) :
  NoDup (refs d) ->
  locate a d = Some (pa, na) ->
  locate b d = Some (pb, nb) ->
  next matches a d = Some nb <-> prev matches b d = Some na.
Proof.
  intros Hnd La Lb.
  destruct (locate_sound _ _ _ _ La) as [_ Ea].
  destruct (locate_sound _ _ _ _ Lb) as [_ Eb].
  split; intros H.
  - destruct (proj1 (next_then_prev matches d a nb Hnd) H) as (p & n & L & E).
    rewrite Eb in E. congruence.
  - destruct (proj2 (next_then_prev matches d b na Hnd) H) as (p & n & L & E).
    rewrite Ea in E. congruence.
Qed.

Lemma next_prev_round_trip_witness :
  next (fun _ _ _ => false) 2 list_page = Some (Element 5 "LI" [("class", "on")] [Text 6 "two"])
  <->
  prev (fun _ _ _ => false) 5 list_page = Some (Element 2 "LI" [] [Text 3 "one"]).
Proof.
  apply (next_prev_round_trip (fun _ _ _ => false) list_page 2 5
           [Frame 1 "UL" [("class", "a  list")] []
              [Text 4 " "; Element 5 "LI" [("class", "on")] [Text 6 "two"]];
            Frame 0 "DIV" [] [] []]
           [Frame 1 "UL" [("class", "a  list")]
              [Element 2 "LI" [] [Text 3 "one"]; Text 4 " "] [];
            Frame 0 "DIV" [] [] []]).
  - apply well_formed_NoDup, well_formed_createDiv.
  - reflexivity.
  - reflexivity.
Defined.

Example next_steps_over_text :
  option_map node_ref (next (fun _ _ _ => false) 2 list_page) = Some 5 /\
  option_map node_ref (prev (fun _ _ _ => false) 5 list_page) = Some 2 /\
  next (fun _ _ _ => false) 4 list_page = None.
Proof. repeat split. Qed.

(** ** The helpers by tag *)

(** [nextByTag] and [prevByTag] do not look at the tag they are given. *)
Example nextByTag_list :
  nextByTag (fun _ _ _ => false) None 2 "LI" list_page =
  inl (ReferenceError "className is not defined") /\
  option_map node_ref (next (fun _ _ _ => false) 2 list_page) = Some 5 /\
  nextByTag (fun _ _ _ => false) (Some "off") 2 "LI" list_page = inr None.
Proof. repeat split. Qed.
